(** * pplx: streaming merge engine, frame decoder and socket RPC client

    A shallow embedding of [packages/api/src/stream.ts] (merge engine,
    [StreamAccumulator], [parseEventStream]) and of the [PerplexitySocket]
    class of [packages/cli/src/auth.ts], with the properties the
    specification states about them; then of the client and the thread
    helper ([client.ts], [thread.ts]), the cookie and token functions of
    [auth.ts], the streaming writer of [layout.ts], the chat commands of
    [chat.ts] and the model categories of [models.ts], with further
    properties read off the code.

    Conventions of the embedding.
    - JSON documents are [value]s; a JavaScript object is a finite map from
      property names to values ([gmap string value]); reading a property
      that is not there gives [None], the model of [undefined].
    - Numbers are integers ([Z]): the only number the code computes with is
      [chunk_starting_offset], an index.
    - A [string] is a sequence of code units, one [ascii] each.
    - Fields are read at the types the TypeScript interfaces declare
      ([chunks] an array, [intended_usage] a string, [markdown_block] and
      [diff_block] objects, ...).  The views below say what is read when a
      value has another shape; such values lie outside the interfaces.
    - [JSON.parse] and fast-json-patch's [applyPatch] are libraries, not code
      of this repository: the definitions take them as parameters
      ([None]: the call throws).  So are [fetch], [crypto.randomUUID],
      [Bun.stringWidth], the sort of the model categories and what the
      process reads from its environment: each is an argument of the
      definition that uses it.
    - An object is its defined properties: a property set to [undefined] is
      a property that is not there. *)

From stdpp Require Import gmap strings list fin_maps pretty.
From Stdlib Require Import ZArith Lia Ascii.

#[local] Set Warnings "-register-all".
#[local] Open Scope string_scope.
#[local] Open Scope list_scope.

(** ** JavaScript values *)

Inductive value : Type :=
| VNull
| VBool (b : bool)
| VNum (n : Z)
| VStr (s : string)
| VArr (items : list value)
| VObj (props : gmap string value).

Abbreviation obj := (gmap string value).

(** [Boolean(v)]. *)
Definition truthy (v : value) : bool :=
  match v with
  | VNull => false
  | VBool b => b
  | VNum n => negb (n =? 0)%Z
  | VStr s => negb (String.eqb s "")
  | VArr _ | VObj _ => true
  end.

(** Truthiness of a property read: [undefined] is falsy. *)
Definition truthy_prop (o : option value) : bool := from_option truthy false o.

(** [o ?? d]: the default replaces [undefined] and [null] only. *)
Definition coalesce (o : option value) (d : value) : value :=
  match o with
  | None | Some VNull => d
  | Some v => v
  end.

(** [o === "lit"]. *)
Definition is_string (o : option value) (lit : string) : bool :=
  match o with
  | Some (VStr s) => String.eqb s lit
  | _ => false
  end.

(** [(v as any).key] on an arbitrary parsed value: [null] has no properties
    (the read throws, [None] outside), a primitive or an array has none of the
    names read here. *)
Definition get_prop (v : value) (key : string) : option (option value) :=
  match v with
  | VNull => None
  | VObj m => Some (m !! key)
  | _ => Some None
  end.

(** ** Strings *)

(** [s.startsWith(p)]. *)
Fixpoint startsWith (s p : string) : bool :=
  match p, s with
  | EmptyString, _ => true
  | String _ _, EmptyString => false
  | String c p', String d s' => if Ascii.eqb c d then startsWith s' p' else false
  end.

(** [s.slice(n)] for [0 <= n]. *)
Fixpoint slice_from (n : nat) (s : string) : string :=
  match n, s with
  | O, _ => s
  | S _, EmptyString => EmptyString
  | S n', String _ s' => slice_from n' s'
  end.

(** [s.includes(sub)]. *)
Fixpoint includes (s sub : string) : bool :=
  startsWith s sub ||
  match s with
  | EmptyString => false
  | String _ s' => includes s' sub
  end.

(** White space of [String.prototype.trim] among the code units below 256:
    TAB, LF, VT, FF, CR, SP and NBSP. *)
Definition is_space (c : ascii) : bool :=
  let n := nat_of_ascii c in
  ((n =? 9) || (n =? 10) || (n =? 11) || (n =? 12) || (n =? 13) || (n =? 32)
   || (n =? 160))%nat.

Fixpoint trim_start (s : string) : string :=
  match s with
  | EmptyString => EmptyString
  | String c s' => if is_space c then trim_start s' else s
  end.

Fixpoint trim_end (s : string) : string :=
  match s with
  | EmptyString => EmptyString
  | String c s' =>
      match trim_end s' with
      | EmptyString => if is_space c then EmptyString else String c EmptyString
      | t => String c t
      end
  end.

(** [s.trim()]. *)
Definition trim (s : string) : string := trim_end (trim_start s).

(** [l.slice(0, k)]: a negative end counts from the back. *)
Definition slice_to {A : Type} (l : list A) (k : Z) : list A :=
  if (0 <=? k)%Z then take (Z.to_nat k) l
  else take (length l - Z.to_nat (- k)) l.

(** ** An insertion-ordered [Map]

    JavaScript's [Map] iterates in insertion order, and [set] on a key that
    is present keeps the key's place. *)
Module JsMap.
Section Ops.
Context {K V : Type} `{EqDecision K}.

Fixpoint get (k : K) (m : list (K * V)) : option V :=
  match m with
  | [] => None
  | (k', v) :: m' => if decide (k = k') then Some v else get k m'
  end.

Fixpoint set (k : K) (v : V) (m : list (K * V)) : list (K * V) :=
  match m with
  | [] => [(k, v)]
  | (k', v') :: m' =>
      if decide (k = k') then (k, v) :: m' else (k', v') :: set k v m'
  end.

Fixpoint delete (k : K) (m : list (K * V)) : list (K * V) :=
  match m with
  | [] => []
  | (k', v') :: m' =>
      if decide (k = k') then m' else (k', v') :: delete k m'
  end.

(** [new Map(entries)]. *)
Definition of_entries (l : list (K * V)) : list (K * V) :=
  foldl (fun m kv => set kv.1 kv.2 m) [] l.

Definition keys (m : list (K * V)) : list K := m.*1.
Definition values (m : list (K * V)) : list V := m.*2.

End Ops.
End JsMap.

(** ** Block and entry views ([types.ts])

    [Block], [MarkdownBlock], [DiffBlock] and [Partial<Entry>] are objects.
    Each view reads one field at its declared type. *)

(** [block.intended_usage], a required string. *)
Definition intended_usage (b : obj) : string :=
  match b !! "intended_usage" with
  | Some (VStr s) => s
  | _ => ""
  end.

(** [block.markdown_block], an optional [MarkdownBlock]. *)
Definition markdown_block (b : obj) : option obj :=
  match b !! "markdown_block" with
  | Some (VObj m) => Some m
  | _ => None
  end.

(** [interface DiffBlock { field: string; patches?: JsonPatch[] }]. *)
Record DiffBlock : Type := mkDiffBlock {
  field : string;
  patches : option (list value)
}.

(** [block.diff_block], an optional [DiffBlock]. *)
Definition diff_block (b : obj) : option DiffBlock :=
  match b !! "diff_block" with
  | Some (VObj d) =>
      match d !! "field" with
      | Some (VStr f) =>
          Some {| field := f;
                  patches := match d !! "patches" with
                             | Some (VArr ps) => Some ps
                             | _ => None
                             end |}
      | _ => None
      end
  | _ => None
  end.

(** [markdown.chunks], an optional array. *)
Definition chunks (m : obj) : option (list value) :=
  match m !! "chunks" with
  | Some (VArr l) => Some l
  | _ => None
  end.

(** [markdown.chunk_starting_offset ?? 0]. *)
Definition chunk_starting_offset (m : obj) : Z :=
  match m !! "chunk_starting_offset" with
  | Some (VNum n) => n
  | _ => 0%Z
  end.

(** An element of [entry.blocks]. *)
Definition block_of_value (v : value) : obj :=
  match v with
  | VObj b => b
  | _ => ∅
  end.

(** A [Block[]] value as a list of blocks. *)
Definition blocks_of_value (v : value) : list obj :=
  match v with
  | VArr l => block_of_value <$> l
  | _ => []
  end.

(** [entry.blocks ?? []]. *)
Definition blocks_or_empty (entry : obj) : value :=
  coalesce (entry !! "blocks") (VArr []).

(** ** The merge engine ([stream.ts]) *)

Definition mergeMarkdownBlock (existing : option obj) (incoming : obj) : obj :=
  match existing with
  | None => incoming
  | Some existing =>
      let result := incoming ∪ existing in
      match chunks incoming with
      | Some ((_ :: _) as incomingChunks) =>
          let offset := chunk_starting_offset incoming in
          let existingChunks := default [] (chunks existing) in
          if (offset =? 0)%Z
          then <["chunks" := VArr incomingChunks]> result
          else <["chunks" := VArr (slice_to existingChunks offset ++ incomingChunks)]> result
      | _ => result
      end
  end.

(** [patches?.[0]?.path?.startsWith("/")]. *)
Definition first_path_is_pointer (ps : option (list value)) : bool :=
  match ps with
  | Some (VObj p :: _) =>
      match p !! "path" with
      | Some (VStr s) => startsWith s "/"
      | _ => false
      end
  | _ => false
  end.

(** [prev?.[field] ?? (... ? {} : "")]: the document the patches apply to. *)
Definition current_value (prev : option obj) (d : DiffBlock) : value :=
  coalesce (prev ≫= fun p => p !! field d)
           (if first_path_is_pointer (patches d) then VObj ∅ else VStr "").

Section MergeEngine.

(** [applyPatch(document, patches, false, false).newDocument]; [None] when
    the library throws. *)
Variable applyPatch : value -> list value -> option value.

(** The body of the loop of [mergeBlocks]: the block stored under the
    incoming block's key, given the block [prev] found there. *)
Definition mergeBlock (prev : option obj) (block : obj) : obj :=
  match markdown_block block with
  | Some md =>
      <["markdown_block" := VObj (mergeMarkdownBlock (prev ≫= markdown_block) md)]>
        (<["intended_usage" := VStr (intended_usage block)]> (default ∅ prev))
  | None =>
      match diff_block block with
      | Some d =>
          match applyPatch (current_value prev d) (default [] (patches d)) with
          | Some patched =>
              <[field d := patched]>
                (<["intended_usage" := VStr (intended_usage block)]> (default ∅ prev))
          | None => block ∪ default ∅ prev
          end
      | None => block ∪ default ∅ prev
      end
  end.

Definition mergeBlocks_step (blockMap : list (string * obj)) (block : obj)
  : list (string * obj) :=
  let prev := JsMap.get (intended_usage block) blockMap in
  JsMap.set (intended_usage block) (mergeBlock prev block) blockMap.

Definition mergeBlocks (existing incoming : list obj) : list obj :=
  let blockMap := JsMap.of_entries ((fun b => (intended_usage b, b)) <$> existing) in
  JsMap.values (foldl mergeBlocks_step blockMap incoming).

(** Merge incremental entry updates into a single snapshot. *)
Definition mergeEntries (existing incoming : obj) : obj :=
  let incomingRest := delete "blocks" incoming in
  let merged := incomingRest ∪ existing in
  match incoming !! "blocks" with
  | Some (VArr ((_ :: _) as incomingBlocks)) =>
      <["blocks" := VArr (VObj <$> mergeBlocks (blocks_of_value (blocks_or_empty existing))
                                               (block_of_value <$> incomingBlocks))]> merged
  | _ => <["blocks" := blocks_or_empty existing]> merged
  end.

End MergeEngine.

(** ** Answer and source extraction *)

(** A chunk is a string; [join] reads [null] as the empty string. *)
Definition chunk_text (v : value) : string :=
  match v with
  | VStr s => s
  | _ => ""
  end.

(** [chunks.join("")]. *)
Definition join_chunks (l : list value) : string :=
  foldr (fun v acc => chunk_text v +:+ acc) "" l.

(** The text of a markdown payload: its [answer] when populated, else its
    chunks joined, else nothing. *)
Definition markdown_text (m : obj) : option string :=
  match m !! "answer" with
  | Some (VStr (String c a)) => Some (String c a)
  | _ =>
      match chunks m with
      | Some ((_ :: _) as cs) => Some (join_chunks cs)
      | _ => None
      end
  end.

(** [block?.markdown_block] is there. *)
Definition has_markdown (b : obj) : bool :=
  match markdown_block b with
  | Some _ => true
  | None => false
  end.

(** The text found in the block [find] returned, if any. *)
Definition block_text (found : option obj) : option string :=
  match found with
  | Some b =>
      match markdown_block b with
      | Some m => markdown_text m
      | None => None
      end
  | None => None
  end.

(** Extract the best available markdown answer from a stream entry. *)
Definition extractAnswer (entry : obj) : string :=
  let blocks := blocks_of_value (blocks_or_empty entry) in
  let markdownBlock :=
    List.find (fun b => includes (intended_usage b) "markdown" && has_markdown b) blocks in
  match block_text markdownBlock with
  | Some text => text
  | None =>
      let textBlock :=
        List.find (fun b => String.eqb (intended_usage b) "ask_text" && has_markdown b)
                  blocks in
      default "" (block_text textBlock)
  end.

(** Extract raw web results from an entry. *)
Definition extractWebResults (entry : obj) : list value :=
  let blocks := blocks_of_value (blocks_or_empty entry) in
  match List.find (fun b => String.eqb (intended_usage b) "web_results") blocks with
  | Some webBlock =>
      match webBlock !! "web_result_block" with
      | Some (VObj w) =>
          match w !! "web_results" with
          | Some (VArr rs) => rs
          | _ => []
          end
      | _ => []
      end
  | None => []
  end.

(** [interface SourceLink { title: string; url: string }]. *)
Record SourceLink : Type := mkSourceLink {
  title : option value;
  url : option value
}.

(** Extract display-ready sources from an entry. *)
Definition extractSources (entry : obj) : list SourceLink :=
  (fun r => {| title := block_of_value r !! "name"; url := block_of_value r !! "url" |})
    <$> filter (fun r => truthy_prop (block_of_value r !! "url")
                         && truthy_prop (block_of_value r !! "name") = true)
               (extractWebResults entry).

(** ** The stream accumulator *)

Record StreamUpdate : Type := mkStreamUpdate {
  entry : obj;
  answer : string;
  delta : string;
  sources : list SourceLink;
  isFinal : bool
}.

(** The private fields of [StreamAccumulator]. *)
Record StreamAccumulator : Type := mkStreamAccumulator {
  this_entry : obj;
  this_answer : string
}.

(** [new StreamAccumulator()]. *)
Definition new_StreamAccumulator : StreamAccumulator :=
  {| this_entry := {[ "blocks" := VArr [] ]}; this_answer := "" |}.

Section Accumulator.

Variable applyPatch : value -> list value -> option value.

(** [update]: the accumulator after the call and the update it returns. *)
Definition update (this : StreamAccumulator) (incoming : obj)
  : StreamAccumulator * StreamUpdate :=
  let entry' := mergeEntries applyPatch (this_entry this) incoming in
  let answer' := extractAnswer entry' in
  let delta' :=
    if startsWith answer' (this_answer this)
    then slice_from (String.length (this_answer this)) answer'
    else answer' in
  ({| this_entry := entry'; this_answer := answer' |},
   {| entry := entry';
      answer := answer';
      delta := delta';
      sources := extractSources entry';
      isFinal := truthy_prop (incoming !! "final")
                 || is_string (incoming !! "status") "COMPLETED" |}).

(** Feeding a list of payloads in order: the updates returned. *)
Fixpoint update_all (this : StreamAccumulator) (payloads : list obj)
  : StreamAccumulator * list StreamUpdate :=
  match payloads with
  | [] => (this, [])
  | p :: ps =>
      let '(this', u) := update this p in
      let '(this'', us) := update_all this' ps in
      (this'', u :: us)
  end.

End Accumulator.

(** ** The frame decoder ([parseEventStream]) *)

(** What the generator can throw: the typed stream error
    ([new PerplexityStreamError(message, code)]) or the runtime's
    [TypeError] for a property read on [null]. *)
Inductive StreamFailure : Type :=
| PerplexityStreamError (message : value) (code : option value)
| TypeError.

(** What the body of the inner loop does with one dequeued payload. *)
Inductive Action : Type :=
| Skip
| Yield (parsed : value)
| Throw (e : StreamFailure).

(** The items a consumer receives, and how the sequence ends ([None]: the
    generator returns). *)
Record Decoded : Type := mkDecoded {
  emitted : list value;
  failure : option StreamFailure
}.

(** [a ?? b] where [b] may be [undefined] too. *)
Definition coalesce_prop (a b : option value) : option value :=
  match a with
  | None | Some VNull => b
  | Some _ => a
  end.

Section Decoder.

(** [JSON.parse(data)]; [None] when it throws its [SyntaxError]. *)
Variable JSON_parse : string -> option value.

Definition on_payload (raw : string) : Action :=
  let data := trim raw in
  if String.eqb data "" || String.eqb data "[DONE]" then Skip
  else
    match JSON_parse data with
    | None => Skip
    | Some parsed =>
        match get_prop parsed "status" with
        | None => Throw TypeError
        | Some status =>
            let text := default None (get_prop parsed "text") in
            let error_code := default None (get_prop parsed "error_code") in
            if is_string status "failed" || is_string status "FAILED"
            then Throw (PerplexityStreamError
                          (coalesce text (VStr "Perplexity stream failed")) error_code)
            else if truthy_prop error_code
            then Throw (PerplexityStreamError
                          (coalesce (coalesce_prop text error_code)
                                    (VStr "Perplexity stream failed")) error_code)
            else Yield parsed
        end
    end.

(** The inner loop: [while (queue.length > 0)]. *)
Fixpoint drain (queue : list string) : Decoded :=
  match queue with
  | [] => {| emitted := []; failure := None |}
  | raw :: queue' =>
      match on_payload raw with
      | Skip => drain queue'
      | Yield parsed =>
          let rest := drain queue' in
          {| emitted := parsed :: emitted rest; failure := failure rest |}
      | Throw e => {| emitted := []; failure := Some e |}
      end
  end.

(** The outer loop.  [reads] lists, for every chunk the reader delivers
    before it reports [done], the [data] payloads eventsource-parser hands
    to [onEvent] while that chunk is fed. *)
Fixpoint parseEventStream (reads : list (list string)) : Decoded :=
  match reads with
  | [] => {| emitted := []; failure := None |}
  | queue :: reads' =>
      let now := drain queue in
      match failure now with
      | Some e => now
      | None =>
          let later := parseEventStream reads' in
          {| emitted := emitted now ++ emitted later; failure := failure later |}
      end
  end.

End Decoder.

(** ** The socket RPC client ([PerplexitySocket]) *)

Module Socket.

Definition CONNECT_TIMEOUT_MS : Z := 10000.
Definition RPC_TIMEOUT_MS : Z := 30000.

(** The errors the class creates, by their messages. *)
Inductive SocketError : Type :=
| ConnectionTimeout            (* "Socket.IO connection timeout" *)
| ConnectError (text : string) (* "Socket.IO connect error: ..." *)
| WebSocketError               (* "WebSocket error" *)
| ClosedDuringHandshake        (* "WebSocket closed during handshake" *)
| RpcTimeout (event : string)  (* "RPC timeout: ..." *)
| SocketClosed                 (* "Socket closed" *)
| MalformedAck (ackId : N)     (* "Malformed ACK payload for ack ..." *)
| RpcFailure (message : value).

(** A settled promise: [resolve(result)] ([None]: [undefined]) or
    [reject(error)]. *)
Inductive Settled : Type :=
| Resolved (result : option value)
| Rejected (e : SocketError).

(** The frames handed to [ws.send]. *)
Inductive Frame : Type :=
| Pong                                          (* "3" *)
| Join (auth : option value)                    (* "40" + JSON.stringify(auth) *)
| Event (ackId : N) (event : string) (data : value).  (* "42<id>[event,data]" *)

(** An entry of [#pendingAcks]: the promise its [resolve] and [reject]
    settle (numbered by the call's ack id) and its timer. *)
Record Pending : Type := mkPending {
  promise : N;
  timer : N
}.

(** A timer armed by [emitWithAck]: its callback closes over the ack id and
    the event name. *)
Record RpcTimer : Type := mkRpcTimer {
  timer_ackId : N;
  timer_event : string;
  timer_ms : Z
}.

Record PerplexitySocket : Type := mkSocket {
  nextAckId : N;
  pendingAcks : list (N * Pending);
  phase : N;                         (* the constructor's [phase] variable *)
  connect_timer : bool;              (* the connect timeout is armed *)
  ready : option Settled;            (* the [#ready] promise *)
  timers : list (N * RpcTimer);      (* the armed RPC timers, by handle *)
  promises : list (N * Settled);     (* the settled [emitWithAck] promises *)
  sent : list Frame;                 (* frames sent, oldest first *)
  ws_closed : bool                   (* [ws.close()] was called *)
}.

(** A promise settles once: a later [resolve] or [reject] does nothing. *)
Definition settle {K : Type} `{EqDecision K} (k : K) (o : Settled)
  (ps : list (K * Settled)) : list (K * Settled) :=
  match JsMap.get k ps with
  | Some _ => ps
  | None => JsMap.set k o ps
  end.

Definition settle_ready (o : Settled) (r : option Settled) : option Settled :=
  match r with
  | Some _ => r
  | None => Some o
  end.

(** [new PerplexitySocket(auth)]. *)
Definition new_socket : PerplexitySocket :=
  {| nextAckId := 0; pendingAcks := []; phase := 0; connect_timer := true;
     ready := None; timers := []; promises := []; sent := []; ws_closed := false |}.

(** The loop shared by [onclose] (RPC handler) and [close()]:
    [clearTimeout(pending.timer); pending.reject(new Error("Socket closed"))]
    for every pending call. *)
Definition reject_all (s : PerplexitySocket) : PerplexitySocket :=
  foldl (fun s p =>
           {| nextAckId := nextAckId s; pendingAcks := pendingAcks s; phase := phase s;
              connect_timer := connect_timer s; ready := ready s;
              timers := JsMap.delete (timer p) (timers s);
              promises := settle (promise p) (Rejected SocketClosed) (promises s);
              sent := sent s; ws_closed := ws_closed s |})
        s (JsMap.values (pendingAcks s)).

Definition clear_pending (s : PerplexitySocket) : PerplexitySocket :=
  {| nextAckId := nextAckId s; pendingAcks := []; phase := phase s;
     connect_timer := connect_timer s; ready := ready s; timers := timers s;
     promises := promises s; sent := sent s; ws_closed := ws_closed s |}.

(** [close()]. *)
Definition close (s : PerplexitySocket) : PerplexitySocket :=
  let s := clear_pending (reject_all s) in
  {| nextAckId := nextAckId s; pendingAcks := pendingAcks s; phase := phase s;
     connect_timer := connect_timer s; ready := ready s; timers := timers s;
     promises := promises s; sent := sent s; ws_closed := true |}.

(** [emitWithAck(event, data, timeoutMs = RPC_TIMEOUT_MS)]: the socket
    after the call and the id of the promise returned.  The frame is
    recorded as sent: [ws.send] is taken to succeed, as it does on an open
    socket. *)
Definition emitWithAck (s : PerplexitySocket) (event : string) (data : value)
  (timeoutMs : option Z) : PerplexitySocket * N :=
  let ackId := nextAckId s in
  ({| nextAckId := N.succ ackId;
      pendingAcks := JsMap.set ackId {| promise := ackId; timer := ackId |} (pendingAcks s);
      phase := phase s; connect_timer := connect_timer s; ready := ready s;
      timers := JsMap.set ackId
                  {| timer_ackId := ackId; timer_event := event;
                     timer_ms := default RPC_TIMEOUT_MS timeoutMs |} (timers s);
      promises := promises s;
      sent := sent s ++ [Event ackId event data];
      ws_closed := ws_closed s |}, ackId).

(** The runtime fires the timer with handle [h], if it is still armed: the
    callback [() => { pendingAcks.delete(ackId); reject(...) }]. *)
Definition timer_fires (s : PerplexitySocket) (h : N) : PerplexitySocket :=
  match JsMap.get h (timers s) with
  | None => s
  | Some t =>
      {| nextAckId := nextAckId s;
         pendingAcks := JsMap.delete (timer_ackId t) (pendingAcks s);
         phase := phase s; connect_timer := connect_timer s; ready := ready s;
         timers := JsMap.delete h (timers s);
         promises := settle (timer_ackId t) (Rejected (RpcTimeout (timer_event t)))
                            (promises s);
         sent := sent s; ws_closed := ws_closed s |}
  end.

(** The connect timeout fires, if it is still armed. *)
Definition connect_timer_fires (s : PerplexitySocket) : PerplexitySocket :=
  if connect_timer s then
    {| nextAckId := nextAckId s; pendingAcks := pendingAcks s; phase := phase s;
       connect_timer := false;
       ready := settle_ready (Rejected ConnectionTimeout) (ready s);
       timers := timers s; promises := promises s; sent := sent s;
       ws_closed := ws_closed s |}
  else s.

Definition is_digit (c : ascii) : bool :=
  let n := nat_of_ascii c in ((48 <=? n) && (n <=? 57))%nat.

(** The longest run of decimal digits at the front, read in base ten, and
    what follows it. *)
Fixpoint digits_from (acc : N) (s : string) : N * string :=
  match s with
  | String c s' =>
      if is_digit c
      then digits_from (10 * acc + N.of_nat (nat_of_ascii c - 48)) s'
      else (acc, s)
  | EmptyString => (acc, s)
  end.

(** The regular expression of the ack frame: the prefix 43, one or more
    decimal digits (the ack id, read by [Number.parseInt(match[1], 10)]),
    then any text (the payload). *)
Definition match_ack (data : string) : option (N * string) :=
  match data with
  | String "4" (String "3" (String c rest)) =>
      if is_digit c then Some (digits_from 0 (String c rest)) else None
  | _ => None
  end.

(** ["error" in result] for a truthy object [result], and the message
    [error_message ?? error_code ?? error ?? "RPC error"]. *)
Definition rpc_error_of (result : option value) : option value :=
  match result with
  | Some (VObj response) =>
      match response !! "error" with
      | Some _ =>
          Some (coalesce (coalesce_prop (response !! "error_message")
                            (coalesce_prop (response !! "error_code")
                                           (response !! "error")))
                         (VStr "RPC error"))
      | None => None
      end
  | _ => None
  end.

Section Handlers.

Variable JSON_parse : string -> option value.

Definition send (f : Frame) (s : PerplexitySocket) : PerplexitySocket :=
  {| nextAckId := nextAckId s; pendingAcks := pendingAcks s; phase := phase s;
     connect_timer := connect_timer s; ready := ready s; timers := timers s;
     promises := promises s; sent := sent s ++ [f]; ws_closed := ws_closed s |}.

(** The [onmessage] handler [#installRpcHandler] installs. *)
Definition rpc_onmessage (s : PerplexitySocket) (data : string) : PerplexitySocket :=
  if String.eqb data "2" then send Pong s
  else if negb (startsWith data "43") then s
  else
    match match_ack data with
    | None => s
    | Some (ackId, body) =>
        match JsMap.get ackId (pendingAcks s) with
        | None => s
        | Some pending =>
            let outcome :=
              match (if String.eqb body "" then Some None
                     else option_map Some (JSON_parse body)) with
              | None => Rejected (MalformedAck ackId)
              | Some payload =>
                  let result :=
                    match payload with
                    | Some (VArr items) => head items
                    | _ => payload
                    end in
                  match rpc_error_of result with
                  | Some message => Rejected (RpcFailure message)
                  | None => Resolved result
                  end
              end in
            {| nextAckId := nextAckId s;
               pendingAcks := JsMap.delete ackId (pendingAcks s);
               phase := phase s; connect_timer := connect_timer s; ready := ready s;
               timers := JsMap.delete (timer pending) (timers s);
               promises := settle (promise pending) outcome (promises s);
               sent := sent s; ws_closed := ws_closed s |}
        end
    end.

(** The [onmessage] handler of the constructor (the handshake). *)
Definition handshake_onmessage (auth : option value) (s : PerplexitySocket)
  (data : string) : PerplexitySocket :=
  if String.eqb data "2" then send Pong s
  else if startsWith data "0{" && (phase s =? 0)%N then
    send (Join auth)
      {| nextAckId := nextAckId s; pendingAcks := pendingAcks s; phase := 1;
         connect_timer := connect_timer s; ready := ready s; timers := timers s;
         promises := promises s; sent := sent s; ws_closed := ws_closed s |}
  else if startsWith data "40" && (phase s =? 1)%N then
    {| nextAckId := nextAckId s; pendingAcks := pendingAcks s; phase := 2;
       connect_timer := false; ready := settle_ready (Resolved None) (ready s);
       timers := timers s; promises := promises s; sent := sent s;
       ws_closed := ws_closed s |}
  else if startsWith data "44" then
    {| nextAckId := nextAckId s; pendingAcks := pendingAcks s; phase := phase s;
       connect_timer := false;
       ready := settle_ready (Rejected (ConnectError (slice_from 2 data))) (ready s);
       timers := timers s; promises := promises s; sent := sent s;
       ws_closed := ws_closed s |}
  else s.

(** [ws.onmessage]: the RPC handler replaces the handshake's once the
    join is acknowledged ([phase] 2). *)
Definition onmessage (auth : option value) (s : PerplexitySocket) (data : string)
  : PerplexitySocket :=
  if (phase s =? 2)%N then rpc_onmessage s data else handshake_onmessage auth s data.

(** [ws.onclose]: before the join is acknowledged the constructor's handler
    fails the handshake; afterwards the RPC handler rejects the pending
    calls. *)
Definition onclose (s : PerplexitySocket) : PerplexitySocket :=
  if (phase s =? 2)%N then clear_pending (reject_all s)
  else
    {| nextAckId := nextAckId s; pendingAcks := pendingAcks s; phase := phase s;
       connect_timer := false;
       ready := settle_ready (Rejected ClosedDuringHandshake) (ready s);
       timers := timers s; promises := promises s; sent := sent s;
       ws_closed := ws_closed s |}.

(** [ws.onerror], the constructor's handler throughout. *)
Definition onerror (s : PerplexitySocket) : PerplexitySocket :=
  {| nextAckId := nextAckId s; pendingAcks := pendingAcks s; phase := phase s;
     connect_timer := false;
     ready := settle_ready (Rejected WebSocketError) (ready s);
     timers := timers s; promises := promises s; sent := sent s;
     ws_closed := ws_closed s |}.

(** What can happen to a socket: a method call, or a callback the runtime
    runs. *)
Inductive Input : Type :=
| CallEmitWithAck (event : string) (data : value) (timeoutMs : option Z)
| CallClose
| WsMessage (data : string)
| WsClose
| WsError
| TimerFires (handle : N)
| ConnectTimerFires.

Definition step (auth : option value) (s : PerplexitySocket) (i : Input)
  : PerplexitySocket :=
  match i with
  | CallEmitWithAck event data timeoutMs => (emitWithAck s event data timeoutMs).1
  | CallClose => close s
  | WsMessage data => onmessage auth s data
  | WsClose => onclose s
  | WsError => onerror s
  | TimerFires h => timer_fires s h
  | ConnectTimerFires => connect_timer_fires s
  end.

Definition run (auth : option value) (s : PerplexitySocket) (inputs : list Input)
  : PerplexitySocket :=
  foldl (step auth) s inputs.

End Handlers.

End Socket.

(** ** A reference [JSON.parse]

    The definitions above take [JSON.parse] as a parameter.  To run them on
    concrete payloads, [JSON_parse] below reads the JSON grammar (RFC 8259)
    on the part this development represents: numbers without fraction or
    exponent, and [\u] escapes below 0100.  It answers [None] on any
    other text. *)
Module Json.

(** The double quote, code unit 34. *)
Abbreviation DQUOTE := (Ascii false true false false false true false false) (only parsing).


Definition is_ws (c : ascii) : bool :=
  let n := nat_of_ascii c in ((n =? 32) || (n =? 9) || (n =? 10) || (n =? 13))%nat.

Fixpoint skip_ws (s : string) : string :=
  match s with
  | String c s' => if is_ws c then skip_ws s' else s
  | EmptyString => s
  end.

Definition hex_digit (c : ascii) : option N :=
  let n := N_of_ascii c in
  if ((48 <=? n) && (n <=? 57))%N then Some (n - 48)%N
  else if ((97 <=? n) && (n <=? 102))%N then Some (n - 87)%N
  else if ((65 <=? n) && (n <=? 70))%N then Some (n - 55)%N
  else None.

(** The four hex digits of a [\u] escape, as a code unit below 256. *)
Definition unicode_escape (s : string) : option (ascii * string) :=
  match s with
  | String a (String b (String c (String d rest))) =>
      match hex_digit a, hex_digit b, hex_digit c, hex_digit d with
      | Some 0%N, Some 0%N, Some h, Some l => Some (ascii_of_N (16 * h + l), rest)
      | _, _, _, _ => None
      end
  | _ => None
  end.

(** The characters of a string literal after its opening quote. *)
Fixpoint string_body (fuel : nat) (s : string) : option (string * string) :=
  match fuel with
  | O => None
  | S fuel' =>
      match s with
      | EmptyString => None
      | String DQUOTE rest => Some (EmptyString, rest)
      | String "\" (String e rest) =>
          let continue_with (c : ascii) (rest : string) :=
            match string_body fuel' rest with
            | Some (t, rest') => Some (String c t, rest')
            | None => None
            end in
          match e with
          | DQUOTE => continue_with DQUOTE rest
          | "\"%char => continue_with "\"%char rest
          | "/"%char => continue_with "/"%char rest
          | "b"%char => continue_with (ascii_of_nat 8) rest
          | "f"%char => continue_with (ascii_of_nat 12) rest
          | "n"%char => continue_with (ascii_of_nat 10) rest
          | "r"%char => continue_with (ascii_of_nat 13) rest
          | "t"%char => continue_with (ascii_of_nat 9) rest
          | "u"%char =>
              match unicode_escape rest with
              | Some (c, rest') => continue_with c rest'
              | None => None
              end
          | _ => None
          end
      | String c rest =>
          if (nat_of_ascii c <? 32)%nat then None
          else
            match string_body fuel' rest with
            | Some (t, rest') => Some (String c t, rest')
            | None => None
            end
      end
  end.

(** An integer literal: [-]? then [0] or a digit run without leading zero;
    a fraction or an exponent is not read. *)
Definition number (s : string) : option (Z * string) :=
  let '(negative, s) :=
    match s with
    | String "-" s' => (true, s')
    | _ => (false, s)
    end in
  match s with
  | String c _ =>
      if Socket.is_digit c then
        let '(n, rest) :=
          if Ascii.eqb c "0" then (0%N, slice_from 1 s) else Socket.digits_from 0 s in
        match rest with
        | String "." _ | String "e" _ | String "E" _ => None
        | _ => Some (if negative then (- Z.of_N n)%Z else Z.of_N n, rest)
        end
      else None
  | EmptyString => None
  end.

Definition literal (lit : string) (v : value) (s : string) : option (value * string) :=
  if startsWith s lit then Some (v, slice_from (String.length lit) s) else None.

Fixpoint parse_value (fuel : nat) (s : string) : option (value * string) :=
  match fuel with
  | O => None
  | S fuel' =>
      match skip_ws s with
      | String "{" rest =>
          match skip_ws rest with
          | String "}" rest' => Some (VObj ∅, rest')
          | rest' => parse_members fuel' ∅ rest'
          end
      | String "[" rest =>
          match skip_ws rest with
          | String "]" rest' => Some (VArr [], rest')
          | rest' => parse_elements fuel' [] rest'
          end
      | String DQUOTE rest =>
          match string_body (S (String.length rest)) rest with
          | Some (t, rest') => Some (VStr t, rest')
          | None => None
          end
      | String "n" _ as s' => literal "null" VNull s'
      | String "t" _ as s' => literal "true" (VBool true) s'
      | String "f" _ as s' => literal "false" (VBool false) s'
      | s' =>
          match number s' with
          | Some (n, rest) => Some (VNum n, rest)
          | None => None
          end
      end
  end
with parse_elements (fuel : nat) (acc : list value) (s : string)
  : option (value * string) :=
  match fuel with
  | O => None
  | S fuel' =>
      match parse_value fuel' s with
      | Some (v, rest) =>
          match skip_ws rest with
          | String "," rest' => parse_elements fuel' (acc ++ [v]) rest'
          | String "]" rest' => Some (VArr (acc ++ [v]), rest')
          | _ => None
          end
      | None => None
      end
  end
with parse_members (fuel : nat) (acc : obj) (s : string) : option (value * string) :=
  match fuel with
  | O => None
  | S fuel' =>
      match skip_ws s with
      | String DQUOTE rest =>
          match string_body (S (String.length rest)) rest with
          | Some (key, rest1) =>
              match skip_ws rest1 with
              | String ":" rest2 =>
                  match parse_value fuel' rest2 with
                  | Some (v, rest3) =>
                      match skip_ws rest3 with
                      | String "," rest4 => parse_members fuel' (<[key := v]> acc) rest4
                      | String "}" rest4 => Some (VObj (<[key := v]> acc), rest4)
                      | _ => None
                      end
                  | None => None
                  end
              | _ => None
              end
          | None => None
          end
      | _ => None
      end
  end.

Definition JSON_parse (text : string) : option value :=
  match parse_value (2 * String.length text + 2) text with
  | Some (v, rest) => if String.eqb (skip_ws rest) "" then Some v else None
  | None => None
  end.

End Json.

(** ** Inputs of the worked examples *)

(** The splice rule in the specification's words: offset 0 replaces,
    any other offset keeps that many accumulated chunks. *)
Definition spliced_as_specified (accumulated incomingChunks : list value) (offset : Z)
  : list value :=
  if (offset =? 0)%Z then incomingChunks
  else (take (Z.to_nat offset) accumulated ++ incomingChunks)%list.

Definition chunks_abc : obj := {[ "chunks" := VArr [VStr "a"; VStr "b"; VStr "c"] ]}.
Definition chunk_X_at_1 : obj :=
  {[ "chunks" := VArr [VStr "X"]; "chunk_starting_offset" := VNum 1 ]}.
Definition no_chunks_at_1 : obj :=
  {[ "chunks" := VArr []; "chunk_starting_offset" := VNum 1 ]}.


(** A payload whose only block is the text answer [text]. *)
Definition answer_payload (text : string) : obj :=
  {[ "blocks" :=
       VArr [VObj {[ "intended_usage" := VStr "ask_text";
                     "markdown_block" := VObj {[ "answer" := VStr text ]} ]}] ]}.

(** Payloads with and without a completion signal. *)
Definition final_payload : obj := {[ "final" := VBool true ]}.
Definition completed_payload : obj := {[ "status" := VStr "COMPLETED" ]}.
Definition lowercase_completed_payload : obj := {[ "status" := VStr "completed" ]}.
Definition pending_payload : obj := {[ "status" := VStr "PENDING" ]}.

(** ** The claims about the decoder, in the specification's words *)




(** The test the code makes: the same statuses, or a truthy error_code. *)
Definition declares_failure (parsed : value) : bool :=
  match parsed with
  | VObj m =>
      is_string (m !! "status") "failed" || is_string (m !! "status") "FAILED"
      || truthy_prop (m !! "error_code")
  | _ => false
  end.



(** ** Inputs and spec-worded claims for the merge engine *)

(** A patch engine on which every application throws: it stands for a
    failed patch, and for the engine in examples that carry no patch. *)
Definition applyPatch_throws : value -> list value -> option value :=
  fun _ _ => None.

(** A block that patches its [goals] field with a [replace] at a path that
    is not there. *)
Definition replace_missing_path_block : obj :=
  {[ "intended_usage" := VStr "plan";
     "diff_block" :=
       VObj {[ "field" := VStr "goals";
               "patches" :=
                 VArr [VObj {[ "op" := VStr "replace";
                               "path" := VStr "/0/title";
                               "value" := VStr "x" ]}] ]} ]}.

(** The incoming block patches the very key the blocks are stored under. *)
Definition patches_key (b : obj) : bool :=
  match markdown_block b, diff_block b with
  | None, Some d => String.eqb (field d) "intended_usage"
  | _, _ => false
  end.

(** "The later one wins over the earlier for overlapping fields": in the
    merged block of their key, a field both blocks set has the later
    block's value. *)
Definition last_write_wins (result : list obj) (earlier later : obj) : Prop :=
  forall r, r ∈ result -> intended_usage r = intended_usage later ->
  forall f v, is_Some (earlier !! f) -> later !! f = Some v -> r !! f = Some v.

(** Two blocks of one key that both set [content]; the later one also
    carries a markdown payload. *)
Definition content_old_block : obj :=
  {[ "intended_usage" := VStr "ask_text"; "content" := VStr "old" ]}.
Definition content_new_markdown_block : obj :=
  {[ "intended_usage" := VStr "ask_text"; "content" := VStr "new";
     "markdown_block" := VObj {[ "answer" := VStr "A" ]} ]}.
Definition content_new_block : obj :=
  {[ "intended_usage" := VStr "ask_text"; "content" := VStr "new" ]}.

(** The entry carries a non-empty [blocks] array. *)
Definition carries_blocks (e : obj) : bool :=
  match e !! "blocks" with
  | Some (VArr (_ :: _)) => true
  | _ => false
  end.


(** ** Where the merge of entries is associative *)


(** The keys of a [Map] after a [set] on [k]: a new key goes last. *)
Definition add_key (keys : list string) (k : string) : list string :=
  if decide (k ∈ keys) then keys else keys ++ [k].




(** ** Invariants *)

(** The block map of [mergeBlocks]: every block sits under its own
    [intended_usage]. *)
Definition keyed (m : list (string * obj)) : Prop :=
  Forall (fun kb => intended_usage kb.2 = kb.1) m.

(** ** Invariant and spec-worded claims for the socket *)

Module SocketInv.
Import Socket.

(** What holds of every socket the class can reach: pending calls and armed
    RPC timers go together, a pending call's promise is not settled yet, and
    ids not handed out yet are unused. *)
Record wf (s : PerplexitySocket) : Prop := mkWf {
  wf_pending_keys : NoDup (JsMap.keys (pendingAcks s));
  wf_timer_keys : NoDup (JsMap.keys (timers s));
  wf_pending : forall k p, JsMap.get k (pendingAcks s) = Some p -> promise p = k /\ timer p = k;
  wf_timer : forall h t, JsMap.get h (timers s) = Some t -> timer_ackId t = h;
  wf_armed : forall k, is_Some (JsMap.get k (timers s)) <-> is_Some (JsMap.get k (pendingAcks s));
  wf_unsettled : forall k, is_Some (JsMap.get k (pendingAcks s)) -> JsMap.get k (promises s) = None;
  wf_fresh : forall k, (nextAckId s <= k)%N ->
             JsMap.get k (pendingAcks s) = None /\ JsMap.get k (promises s) = None
}.

(** A call that is no longer pending has a settled promise: no handler
    drops a call without settling it. *)
Definition none_lost (s : PerplexitySocket) : Prop :=
  forall k, (k < nextAckId s)%N -> JsMap.get k (pendingAcks s) = None ->
            is_Some (JsMap.get k (promises s)).

(** What the loop of [reject_all] does to the promises and to the timers. *)
Definition reject_promises (ps : list Pending) (pr : list (N * Settled)) : list (N * Settled) :=
  foldl (fun pr p => settle (promise p) (Rejected SocketClosed) pr) pr ps.

Definition clear_timers (ps : list Pending) (ts : list (N * RpcTimer)) : list (N * RpcTimer) :=
  foldl (fun ts p => JsMap.delete (timer p) ts) ts ps.

(** What closing does to the pending calls of [s], seen in [s']. *)
Definition all_pending_rejected (s s' : PerplexitySocket) : Prop :=
  pendingAcks s' = []
  /\ (forall k, is_Some (JsMap.get k (pendingAcks s)) ->
        JsMap.get k (promises s') = Some (Rejected SocketClosed))
  /\ (forall h, JsMap.get h (timers s') = None)
  /\ (forall k r, JsMap.get k (promises s) = Some r -> JsMap.get k (promises s') = Some r).

(** The handshake, then two RPC calls. *)
Definition two_pending_inputs : list Input :=
  [WsMessage "0{}"; WsMessage "40";
   CallEmitWithAck "refreshJWT" VNull None; CallEmitWithAck "ping" VNull (Some 5000%Z)].

End SocketInv.

(** * The client, the thread helper and the cookie store *)

(** [if (block.answer)]: the markdown payload has a populated answer. *)
Definition has_answer (m : obj) : bool :=
  match m !! "answer" with
  | Some (VStr (String _ _)) => true
  | _ => false
  end.

(** The text a consumer holds after appending the delta of every update,
    in order. *)
Definition appended_deltas (updates : list StreamUpdate) : string :=
  foldr (fun u rest => delta u +:+ rest) "" updates.

(** Every update's answer starts with the answer before it. *)
Fixpoint answers_grow (previous : string) (updates : list StreamUpdate) : bool :=
  match updates with
  | [] => true
  | u :: rest => startsWith (answer u) previous && answers_grow (answer u) rest
  end.

(** An entry with two web results, the second without a url. *)
Definition web_results_entry : obj :=
  {[ "blocks" :=
       VArr [VObj {[ "intended_usage" := VStr "web_results";
                     "web_result_block" :=
                       VObj {[ "web_results" :=
                                 VArr [VObj {[ "name" := VStr "A"; "url" := VStr "https://a" ]};
                                       VObj {[ "name" := VStr "B" ]}] ]} ]}] ]}.

(** [{ ...rest } = v]: the own enumerable properties of a parsed value.  An
    array or a string has its indices, the other primitives have none. *)
Definition own_props (v : value) : obj :=
  match v with
  | VObj m => m
  | VArr l => list_to_map (imap (fun i x => (pretty i, x)) l)
  | VStr s =>
      list_to_map (imap (fun i c => (pretty i, VStr (String c EmptyString)))
                        (String.list_ascii_of_string s))
  | _ => ∅
  end.

(** ** The client ([client.ts]) *)

Module Client.

Definition DEFAULT_API_VERSION : string := "2.18".
Definition DEFAULT_BASE_URL : string := "https://www.perplexity.ai".
Definition DEFAULT_USER_AGENT : string := "WindowsApp".

Definition SUPPORTED_BLOCKS : list string :=
  ["answer_modes"; "media_items"; "knowledge_cards"; "inline_entity_cards";
   "place_widgets"; "finance_widgets"; "sports_widgets"; "search_result_widgets";
   "inline_images"; "diff_blocks"].

(** [interface ClientOptions]. *)
Record ClientOptions : Type := mkClientOptions {
  options_baseUrl : option string;
  options_cookies : option string;
  options_headers : option (gmap string string);
  options_apiVersion : option string;
  options_userAgent : option string
}.

(** The private fields of [PerplexityClient]. *)
Record PerplexityClient : Type := mkClient {
  baseUrl : string;
  cookies : string;
  headers : gmap string string;
  apiVersion : string;
  userAgent : string
}.

(** [new PerplexityClient(options)]. *)
Definition new_client (options : ClientOptions) : PerplexityClient :=
  {| baseUrl := default DEFAULT_BASE_URL (options_baseUrl options);
     cookies := default "" (options_cookies options);
     headers := default ∅ (options_headers options);
     apiVersion := default DEFAULT_API_VERSION (options_apiVersion options);
     userAgent := default DEFAULT_USER_AGENT (options_userAgent options) |}.

(** [buildHeaders(reason, overrides)]; [requestId] is the value
    [crypto.randomUUID()] returns. *)
Definition buildHeaders (this : PerplexityClient) (reason : string)
  (overrides : option (gmap string string)) (requestId : string) : gmap string string :=
  let builtin : gmap string string :=
    list_to_map
      [("Content-Type", "application/json");
       ("Accept", "text/event-stream");
       ("Origin", baseUrl this);
       ("Referer", baseUrl this +:+ "/");
       ("User-Agent", userAgent this);
       ("X-App-ApiClient", "default");
       ("X-App-ApiVersion", apiVersion this);
       ("X-Perplexity-Request-Reason", reason);
       ("X-Request-ID", requestId)] in
  let result := default ∅ overrides ∪ (headers this ∪ builtin) in
  if negb (String.eqb (cookies this) "")
     && negb (from_option (fun c => negb (String.eqb c "")) false (result !! "Cookie"))
  then <["Cookie" := cookies this]> result
  else result.

(** [buildSubmitParams(query, options)].  [uuid1] and [uuid2] are what the
    two calls of [crypto.randomUUID()] return, [timeZone] what the runtime
    resolves.  A property whose value is [undefined] is not there. *)
Definition buildSubmitParams (this : PerplexityClient) (query : string) (options : obj)
  (uuid1 uuid2 timeZone : string) : obj :=
  let optional (key : string) (v : option value) (params : obj) : obj :=
    match v with
    | Some x => <[key := x]> params
    | None => params
    end in
  optional "existing_entry_uuid" (options !! "existingEntryId")
    (optional "query_source" (options !! "querySource")
       (list_to_map
          [("query_str", VStr query);
           ("search_focus", coalesce (options !! "focus") (VStr "internet"));
           ("mode", coalesce (options !! "mode") (VStr "copilot"));
           ("model_preference", coalesce (options !! "model") (VStr "pplx_pro_upgraded"));
           ("sources", coalesce (options !! "sources") (VArr [VStr "web"]));
           ("attachments", coalesce (options !! "attachments") (VArr []));
           ("frontend_uuid", coalesce (options !! "frontendId") (VStr uuid1));
           ("frontend_context_uuid", coalesce (options !! "threadId") (VStr uuid2));
           ("version", VStr (apiVersion this));
           ("language", coalesce (options !! "language") (VStr "en-US"));
           ("timezone", coalesce (options !! "timezone") (VStr timeZone));
           ("search_recency_filter", coalesce (options !! "recency") VNull);
           ("is_incognito", coalesce (options !! "incognito") (VBool true));
           ("use_schematized_api", coalesce (options !! "useSchematizedApi") (VBool true));
           ("skip_search_enabled", coalesce (options !! "skipSearch") (VBool true));
           ("supported_block_use_cases",
            coalesce (options !! "supportedBlockUseCases")
                     (VArr (VStr <$> SUPPORTED_BLOCKS)))])).

(** [interface PerplexityResponse]. *)
Record PerplexityResponse : Type := mkResponse {
  response_entry : obj;
  response_answer : string;
  response_sources : list SourceLink;
  response_webResults : list value
}.

(** [buildResponse(accumulator)]. *)
Definition buildResponse (accumulator : StreamAccumulator) : PerplexityResponse :=
  {| response_entry := this_entry accumulator;
     response_answer := this_answer accumulator;
     response_sources := extractSources (this_entry accumulator);
     response_webResults := extractWebResults (this_entry accumulator) |}.

(** What [stream], [reconnect] and [ask] throw. *)
Inductive Failure : Type :=
| FetchRejected
| PerplexityApiError (status : Z) (statusText url : string) (body : option string)
| PerplexityError (message : string)
| StreamFailed (e : StreamFailure).

(** What [fetch] resolves with: [text] is [None] when [response.text()]
    rejects, [body] is [None] for a null body and otherwise lists what the
    reader delivers (the argument of [parseEventStream]). *)
Record Response : Type := mkFetched {
  ok : bool;
  status : Z;
  statusText : string;
  text : option string;
  body : option (list (list string))
}.

Section Streaming.

Variable JSON_parse : string -> option value.
Variable applyPatch : value -> list value -> option value.

(** The [for await] loop over the decoded payloads, driven by a consumer
    that asks for every update: the updates yielded, and how the generator
    ends.  The decoder is pulled one payload at a time, so its failure is met
    only if no update before it was final. *)
Fixpoint consume (accumulator : StreamAccumulator) (entries : list value)
  (failed : option StreamFailure) : list StreamUpdate * (Failure + PerplexityResponse) :=
  match entries with
  | [] =>
      ([], match failed with
           | Some e => inl (StreamFailed e)
           | None => inr (buildResponse accumulator)
           end)
  | e :: entries' =>
      let '(accumulator', u) := update applyPatch accumulator (own_props e) in
      if isFinal u then ([u], inr (buildResponse accumulator'))
      else
        let '(us, ending) := consume accumulator' entries' failed in
        (u :: us, ending)
  end.

(** The part [stream] and [reconnect] share, from the awaited [fetch] on;
    [None] when [fetch] rejects. *)
Definition stream_response (url : string) (fetched : option Response)
  : list StreamUpdate * (Failure + PerplexityResponse) :=
  match fetched with
  | None => ([], inl FetchRejected)
  | Some response =>
      if negb (ok response)
      then ([], inl (PerplexityApiError (status response) (statusText response) url
                                        (text response)))
      else
        match body response with
        | None => ([], inl (PerplexityError "Perplexity response contained no body"))
        | Some reads =>
            let decoded := parseEventStream JSON_parse reads in
            consume new_StreamAccumulator (emitted decoded) (failure decoded)
        end
  end.

(** [stream(query, options)], given what [fetch] does. *)
Definition stream (this : PerplexityClient) (fetched : option Response)
  : list StreamUpdate * (Failure + PerplexityResponse) :=
  stream_response (baseUrl this +:+ "/rest/sse/perplexity_ask") fetched.

(** [reconnect(entryUuid, cursor, options)], given what [fetch] does. *)
Definition reconnect (this : PerplexityClient) (entryUuid : string)
  (cursor : option string) (fetched : option Response)
  : list StreamUpdate * (Failure + PerplexityResponse) :=
  stream_response
    (baseUrl this +:+ "/rest/sse/perplexity_ask/reconnect/" +:+ entryUuid
     +:+ match cursor with
         | Some (String c cs) => "?cursor=" +:+ String c cs
         | _ => ""
         end)
    fetched.

(** [ask(query, options)]: the value the generator returns; the response
    it builds is an object, so the guard on a missing value never throws. *)
Definition ask (this : PerplexityClient) (fetched : option Response)
  : Failure + PerplexityResponse :=
  (stream this fetched).2.

End Streaming.

End Client.

(** ** The thread helper ([thread.ts]) *)

Module Thread.

(** The private fields of [PerplexityThread] (the client apart). *)
Record PerplexityThread : Type := mkThread {
  threadId : string;
  lastEntryId : option value;
  defaults : obj
}.

(** [new PerplexityThread(client, options)]; [uuid] is what
    [crypto.randomUUID()] returns. *)
Definition new_thread (id : option string) (defaults0 : option obj) (uuid : string)
  : PerplexityThread :=
  {| threadId := default uuid id; lastEntryId := None; defaults := default ∅ defaults0 |}.

Definition updateDefaults (this : PerplexityThread) (update : obj) : PerplexityThread :=
  {| threadId := threadId this; lastEntryId := lastEntryId this;
     defaults := update ∪ defaults this |}.

Definition reset (this : PerplexityThread) (newId : option string) (uuid : string)
  : PerplexityThread :=
  {| threadId := default uuid newId; lastEntryId := None; defaults := defaults this |}.

(** [mergeOptions(options)]. *)
Definition mergeOptions (this : PerplexityThread) (options : obj) : obj :=
  let merged := <["threadId" := VStr (threadId this)]> (options ∪ defaults this) in
  match lastEntryId this with
  | Some id => <["existingEntryId" := id]> merged
  | None => delete "existingEntryId" merged
  end.

(** [ask]: the thread after the client's [ask] ended as given. *)
Definition ask (this : PerplexityThread)
  (ended : Client.Failure + Client.PerplexityResponse) : PerplexityThread :=
  match ended with
  | inr response =>
      {| threadId := threadId this;
         lastEntryId := Client.response_entry response !! "uuid";
         defaults := defaults this |}
  | inl _ => this
  end.

(** [stream]: the thread after the client's generator ended as given. *)
Definition stream (this : PerplexityThread)
  (ended : Client.Failure + Client.PerplexityResponse) : PerplexityThread :=
  match ended with
  | inr response =>
      if truthy_prop (Client.response_entry response !! "uuid")
      then {| threadId := threadId this;
              lastEntryId := Client.response_entry response !! "uuid";
              defaults := defaults this |}
      else this
  | inl _ => this
  end.

End Thread.

(** ** Cookies and tokens ([auth.ts]) *)

Module Auth.

(** [value.split(".")]. *)
Fixpoint split_dot (s : string) : list string :=
  match s with
  | EmptyString => [EmptyString]
  | String c s' =>
      if Ascii.eqb c "." then EmptyString :: split_dot s'
      else
        match split_dot s' with
        | part :: parts => String c part :: parts
        | [] => [String c EmptyString]
        end
  end.

Definition isLikelyJwt (value : string) : bool :=
  let parts := split_dot value in
  if negb (length parts =? 3)%nat then false
  else forallb (fun part => (0 <? String.length part)%nat) parts.

Definition jwtToCookie (jwt : string) : string :=
  "__Secure-next-auth.session-token=" +:+ jwt.

Definition normalizeCookies (value : string) : string :=
  let trimmed := trim value in
  if String.eqb trimmed "" then ""
  else if includes trimmed "next-auth.session-token="
          || includes trimmed "__Secure-next-auth.session-token="
  then trimmed
  else if isLikelyJwt trimmed then jwtToCookie trimmed
  else trimmed.

(** The cookie file: missing, or there with its content; reading a file
    that is not readable throws. *)
Inductive CookiesFile : Type :=
| Missing
| Present (content : string) (readable : bool).

(** What the functions read from the process and the machine:
    [defaults_read] is the output of the [defaults read] command, [None]
    when [execSync] throws. *)
Record Environment : Type := mkEnvironment {
  PPLX_COOKIES : option string;
  PPLX_AUTH_NO_BORROW : option string;
  cookies_file : CookiesFile;
  platform : string;
  defaults_read : option string
}.

Definition shouldSkipDesktopToken (env : Environment) : bool :=
  match PPLX_AUTH_NO_BORROW env with
  | Some v => String.eqb v "1"
  | None => false
  end.

Definition extractTokenFromUserDefaults (env : Environment) : option string :=
  if negb (String.eqb (platform env) "darwin") then None
  else
    match defaults_read env with
    | None => None
    | Some output =>
        let token := trim output in
        if String.eqb token "" || String.eqb token "(null)" then None else Some token
    end.

(** [cookies || null]. *)
Definition or_null (cookies : string) : option string :=
  if String.eqb cookies "" then None else Some cookies.

(** Load cookies from the environment or local config file. *)
Definition resolveCookies (env : Environment) : option string :=
  match PPLX_COOKIES env with
  | Some (String c cs) => or_null (normalizeCookies (String c cs))
  | _ =>
      match cookies_file env with
      | Present content true => or_null (normalizeCookies content)
      | Present _ false => None
      | Missing =>
          if negb (shouldSkipDesktopToken env) then
            match extractTokenFromUserDefaults env with
            | Some nativeToken => Some (jwtToCookie nativeToken)
            | None => None
            end
          else None
      end
  end.

Definition with_file (env : Environment) (f : CookiesFile) : Environment :=
  {| PPLX_COOKIES := PPLX_COOKIES env; PPLX_AUTH_NO_BORROW := PPLX_AUTH_NO_BORROW env;
     cookies_file := f; platform := platform env; defaults_read := defaults_read env |}.

(** [storeCookies(cookies)], the writes succeeding: a file that was missing
    is created with mode 0o600, which its owner reads. *)
Definition storeCookies (cookies : string) (env : Environment) : Environment :=
  with_file env
    (Present cookies match cookies_file env with
                     | Present _ readable => readable
                     | Missing => true
                     end).

(** [clearCookies()]: a file that is there is emptied; [written] tells
    whether the write succeeds (its exception is swallowed). *)
Definition clearCookies (written : bool) (env : Environment) : Environment :=
  match cookies_file env with
  | Present _ readable => if written then with_file env (Present "" readable) else env
  | Missing => env
  end.

(** [login()]: the cookies returned and the environment left, [None] when
    it throws.  [otp] is what the e-mail flow returns ([None]: it throws);
    the writes of [storeCookies] succeed. *)
Definition login (env : Environment) (otp : option string) : option (string * Environment) :=
  match (if negb (shouldSkipDesktopToken env) then extractTokenFromUserDefaults env
         else None) with
  | Some nativeToken =>
      let cookies := jwtToCookie nativeToken in
      Some (cookies, storeCookies cookies env)
  | None =>
      match otp with
      | Some jwt =>
          let cookies := jwtToCookie jwt in
          Some (cookies, storeCookies cookies env)
      | None => None
      end
  end.

(** [typeof response?.[key] === "string" ? response[key] : ...]. *)
Definition string_field (response : option value) (key : string) : option string :=
  match response with
  | Some (VObj r) =>
      match r !! key with
      | Some (VStr s) => Some s
      | _ => None
      end
  | _ => None
  end.

(** [refreshToken(currentJwt)], given how the socket's [ready()] promise
    and the promise of the [refreshJWT] call settle. *)
Definition refreshToken (currentJwt : string) (ready : Socket.Settled)
  (acked : Socket.Settled) : string :=
  match ready with
  | Socket.Rejected _ => currentJwt
  | Socket.Resolved _ =>
      match acked with
      | Socket.Rejected _ => currentJwt
      | Socket.Resolved response =>
          let refreshed :=
            match string_field response "perplexity_jwt" with
            | Some s => Some s
            | None => string_field response "jwt"
            end in
          match refreshed with
          | Some (String c s) => String c s
          | _ => currentJwt
          end
      end
  end.

(** A Mac on which the desktop app is signed in, and nothing is stored. *)
Definition macos_with_token : Environment :=
  {| PPLX_COOKIES := None; PPLX_AUTH_NO_BORROW := None; cookies_file := Missing;
     platform := "darwin"; defaults_read := Some " eyJ.abc.def " |}.

End Auth.

(** ** The frames a socket has sent *)

Module SocketFrames.
Import Socket.

(** The auth payloads of the join frames, oldest first. *)
Definition join_frames (frames : list Frame) : list (option value) :=
  omap (fun f => match f with Join auth => Some auth | _ => None end) frames.

(** The ack ids of the event frames, oldest first. *)
Definition event_ids (frames : list Frame) : list N :=
  omap (fun f => match f with Event ackId _ _ => Some ackId | _ => None end) frames.

End SocketFrames.
(** ** The streaming writer ([layout.ts]) *)

Module Layout.

Definition MAX_WIDTH : Z := 100.

(** [terminalWidth()], given [process.stdout.columns]. *)
Definition terminalWidth (columns : option Z) : Z :=
  Z.min (default 88%Z columns) MAX_WIDTH.

(** The escape character, the line feed and the reset sequence. *)
Definition ESC : ascii := ascii_of_nat 27.
Definition LF : ascii := ascii_of_nat 10.
Definition RESET : string := String ESC "[0m".

(** One call of [process.stdout.write]: a character, a complete escape
    sequence, or the line break of [wrap()], which carries the styles it
    emits again. *)
Inductive Written : Type :=
| WriteChar (c : ascii)
| WriteAnsi (sequence : string)
| WriteWrap (restyled : string).

(** The fields of [StreamWriter]. *)
Record StreamWriter : Type := mkWriter {
  width : Z;
  prefix : string;
  col : Z;
  ansiBuffer : string;
  inAnsi : bool;
  activeAnsi : string
}.

(** The text a call writes. *)
Definition written_text (this : StreamWriter) (w : Written) : string :=
  match w with
  | WriteChar c => String c EmptyString
  | WriteAnsi sequence => sequence
  | WriteWrap restyled => RESET +:+ String LF EmptyString +:+ prefix this +:+ restyled
  end.

Section Writer.

(** [Bun.stringWidth]. *)
Variable stringWidth : string -> Z.

(** [new StreamWriter(prefix)]. *)
Definition new_writer (columns : option Z) (prefix0 : string) : StreamWriter :=
  {| width := terminalWidth columns - stringWidth prefix0 - 1;
     prefix := prefix0; col := 0; ansiBuffer := ""; inAnsi := false; activeAnsi := "" |}.

(** [wrap()]. *)
Definition wrap (st : StreamWriter * list Written) : StreamWriter * list Written :=
  let '(this, out) := st in
  ({| width := width this; prefix := prefix this; col := 0;
      ansiBuffer := ansiBuffer this; inAnsi := inAnsi this;
      activeAnsi := activeAnsi this |},
   out ++ [WriteWrap (activeAnsi this)]).

(** The body of the loop of [write]. *)
Definition write_char (st : StreamWriter * list Written) (char : ascii)
  : StreamWriter * list Written :=
  let '(this, out) := st in
  if inAnsi this then
    let buffer := ansiBuffer this +:+ String char EmptyString in
    if Ascii.eqb char "m" then
      ({| width := width this; prefix := prefix this; col := col this;
          ansiBuffer := ""; inAnsi := false;
          activeAnsi := if String.eqb buffer RESET then ""
                        else activeAnsi this +:+ buffer |},
       out ++ [WriteAnsi buffer])
    else
      ({| width := width this; prefix := prefix this; col := col this;
          ansiBuffer := buffer; inAnsi := true; activeAnsi := activeAnsi this |},
       out)
  else if Ascii.eqb char ESC then
    ({| width := width this; prefix := prefix this; col := col this;
        ansiBuffer := String char EmptyString; inAnsi := true;
        activeAnsi := activeAnsi this |},
     out)
  else if Ascii.eqb char LF then wrap st
  else
    let charWidth := stringWidth (String char EmptyString) in
    let '(this', out') := if (width this <? col this + charWidth)%Z then wrap st else st in
    ({| width := width this'; prefix := prefix this'; col := col this' + charWidth;
        ansiBuffer := ansiBuffer this'; inAnsi := inAnsi this';
        activeAnsi := activeAnsi this' |},
     out' ++ [WriteChar char]).

(** [write(text)]: the writer after the call, and the calls of
    [process.stdout.write] so far. *)
Definition write (st : StreamWriter * list Written) (text : string)
  : StreamWriter * list Written :=
  foldl write_char st (String.list_ascii_of_string text).

(** [flush()]. *)
Definition flush (st : StreamWriter * list Written) : StreamWriter * list Written :=
  let '(this, out) := st in
  if String.eqb (ansiBuffer this) "" then st
  else
    ({| width := width this; prefix := prefix this; col := col this;
        ansiBuffer := ""; inAnsi := false; activeAnsi := activeAnsi this |},
     out ++ [WriteAnsi (ansiBuffer this)]).

(** *** What the terminal shows *)

(** The characters of every line written so far: the finished lines, and
    the line being written. *)
Definition add_written (lines : list (list ascii) * list ascii) (w : Written)
  : list (list ascii) * list ascii :=
  match w with
  | WriteChar c => (lines.1, lines.2 ++ [c])
  | WriteWrap _ => (lines.1 ++ [lines.2], [])
  | WriteAnsi _ => lines
  end.

Definition lines_of (out : list Written) : list (list ascii) * list ascii :=
  foldl add_written ([], []) out.

(** The columns a line takes. *)
Definition line_width (line : list ascii) : Z :=
  foldr (fun c total => stringWidth (String c EmptyString) + total)%Z 0%Z line.

End Writer.

(** The styles in force after the escape sequences written: those since
    the last reset. *)
Definition styles_of (out : list Written) : string :=
  foldl (fun active w =>
           match w with
           | WriteAnsi sequence =>
               if String.eqb sequence RESET then "" else active +:+ sequence
           | _ => active
           end) "" out.

(** What was written, the line breaks of [wrap()] left out. *)
Definition unwrapped (out : list Written) : string :=
  foldr (fun w rest =>
           match w with
           | WriteChar c => String c rest
           | WriteAnsi sequence => sequence +:+ rest
           | WriteWrap _ => rest
           end) "" out.

(** The text holds no line feed. *)
Definition no_line_feed (text : string) : bool :=
  forallb (fun c => negb (Ascii.eqb c LF)) (String.list_ascii_of_string text).

End Layout.

(** ** Chat commands ([chat.ts]) *)

Module Chat.

Definition FOCUS_VALUES : list string := ["internet"; "academic"; "youtube"; "reddit"; "writing"].
Definition MODE_VALUES : list string := ["copilot"; "concise"].
Definition RECENCY_VALUES : list string := ["day"; "week"; "month"; "year"].

(** [text.split(/\s+/)]: the parts between the runs of white space; [gap]
    tells that the character before was white space. *)
Fixpoint split_gap (gap : bool) (text : string) : list string :=
  match text with
  | EmptyString => [EmptyString]
  | String c rest =>
      if is_space c then
        if gap then split_gap true rest else EmptyString :: split_gap true rest
      else
        match split_gap false rest with
        | part :: parts => String c part :: parts
        | [] => [String c EmptyString]
        end
  end.

Definition split_spaces (text : string) : list string := split_gap false text.

(** [args.join(" ")]. *)
Fixpoint join_spaces (args : list string) : string :=
  match args with
  | [] => ""
  | [a] => a
  | a :: rest => a +:+ " " +:+ join_spaces rest
  end.

(** [values.includes(x)]. *)
Definition one_of (values : list string) (x : string) : bool :=
  existsb (String.eqb x) values.

(** What a command writes: a message (without its styling and its final
    line feed) or the help. *)
Inductive Output : Type :=
| Message (text : string)
| CommandHelp.

(** What [handleCommand] works on: the [defaults] object of [runChat] and
    the thread (which starts with that very object as its defaults, and has
    its own from the first update on). *)
Record Session : Type := mkSession {
  session_defaults : obj;
  session_thread : Thread.PerplexityThread
}.

(** The [updateDefaults] closure of [runChat]. *)
Definition updateDefaults (s : Session) (update : obj) : Session :=
  {| session_defaults := update ∪ session_defaults s;
     session_thread := Thread.updateDefaults (session_thread s) update |}.

(** [handleCommand(input, updateDefaults, resetThread)]: whether to exit,
    the session after the call and what was written, if anything; [uuid] is
    the id a reset draws. *)
Definition handleCommand (input : string) (s : Session) (uuid : string)
  : bool * Session * option Output :=
  let parts := split_spaces (slice_from 1 input) in
  let command := default "" (head parts) in
  let args := tail parts in
  let arg0 := head args in
  let focus_usage := "Focus must be one of: internet, academic, youtube, reddit, writing" in
  if String.eqb command "exit" || String.eqb command "quit"
  then (true, s, None)
  else if String.eqb command "help" then (false, s, Some CommandHelp)
  else if String.eqb command "new" then
    (false,
     {| session_defaults := session_defaults s;
        session_thread := Thread.reset (session_thread s) None uuid |},
     Some (Message "Started a new thread."))
  else if String.eqb command "model" then
    let model := join_spaces args in
    if String.eqb model "" then (false, s, Some (Message "Usage: /model <id>"))
    else (false, updateDefaults s {[ "model" := VStr model ]},
          Some (Message ("Model set to " +:+ model +:+ ".")))
  else if String.eqb command "focus" then
    match arg0 with
    | Some (String c f) =>
        let focus := String c f in
        if one_of FOCUS_VALUES focus
        then (false, updateDefaults s {[ "focus" := VStr focus ]},
              Some (Message ("Focus set to " +:+ focus +:+ ".")))
        else (false, s, Some (Message focus_usage))
    | _ => (false, s, Some (Message focus_usage))
    end
  else if String.eqb command "mode" then
    match arg0 with
    | Some (String c m) =>
        let mode := String c m in
        if one_of MODE_VALUES mode
        then (false, updateDefaults s {[ "mode" := VStr mode ]},
              Some (Message ("Mode set to " +:+ mode +:+ ".")))
        else (false, s, Some (Message "Mode must be one of: copilot, concise"))
    | _ => (false, s, Some (Message "Mode must be one of: copilot, concise"))
    end
  else if String.eqb command "recency" then
    match arg0 with
    | Some (String c r) =>
        let recency := String c r in
        if negb (String.eqb recency "off") && negb (one_of RECENCY_VALUES recency)
        then (false, s, Some (Message "Recency must be one of: day, week, month, year"))
        else (false,
              updateDefaults s
                {[ "recency" := if String.eqb recency "off" then VNull else VStr recency ]},
              Some (Message ("Recency set to " +:+ recency +:+ ".")))
    | _ => (false, s, Some (Message "Usage: /recency <day|week|month|year|off>"))
    end
  else if String.eqb command "incognito" then
    match arg0 with
    | Some (String c t) =>
        let toggle := String c t in
        if one_of ["on"; "off"] toggle
        then (false, updateDefaults s {[ "incognito" := VBool (String.eqb toggle "on") ]},
              Some (Message ("Incognito " +:+ toggle +:+ ".")))
        else (false, s, Some (Message "Usage: /incognito <on|off>"))
    | _ => (false, s, Some (Message "Usage: /incognito <on|off>"))
    end
  else (false, s, Some (Message "Unknown command. Try /help.")).

(** The commands of a chat, in order, up to the one that exits: the
    session left. *)
Fixpoint run_commands (s : Session) (inputs : list (string * string)) : Session :=
  match inputs with
  | [] => s
  | (input, uuid) :: rest =>
      let '(shouldExit, s', _) := handleCommand input s uuid in
      if shouldExit then s' else run_commands s' rest
  end.

(** A setting of the session is absent, or one of the values the server
    knows (null too, for the recency filter). *)
Definition valid_setting (o : obj) (key : string) (values : list string) (nullable : bool)
  : bool :=
  match o !! key with
  | None => true
  | Some (VStr v) => one_of values v
  | Some VNull => nullable
  | Some _ => false
  end.

Definition valid_settings (o : obj) : bool :=
  valid_setting o "focus" FOCUS_VALUES false
  && valid_setting o "mode" MODE_VALUES false
  && valid_setting o "recency" RECENCY_VALUES true.

(** A chat that has just started. *)
Definition fresh_session : Session :=
  {| session_defaults := ∅; session_thread := Thread.new_thread None None "t0" |}.

End Chat.

(** ** Model categories ([models.ts]) *)

Module Models.

Section Categories.

(** [interface ModelInfo]. *)
Variable ModelInfo : Type.

(** [models.sort((a, b) => a.id.localeCompare(b.id))]. *)
Variable sort_by_id : list (string * ModelInfo) -> list (string * ModelInfo).

(** [type ModelCategory]. *)
Record ModelCategory : Type := mkCategory {
  name : string;
  prefixes : list string;
  models : list (string * ModelInfo)
}.

(** The categories [categorizeModels] starts from. *)
Definition categories0 : list ModelCategory :=
  [ {| name := "Perplexity"; prefixes := ["pplx_"; "experimental"; "turbo"; "copilot"; "r1"];
       models := [] |};
    {| name := "OpenAI"; prefixes := ["gpt"; "o3"; "o4"; "chatgpt"]; models := [] |};
    {| name := "Anthropic"; prefixes := ["claude"]; models := [] |};
    {| name := "Google"; prefixes := ["gemini"]; models := [] |};
    {| name := "xAI"; prefixes := ["grok"]; models := [] |};
    {| name := "Kimi"; prefixes := ["kimi"]; models := [] |};
    {| name := "Browser Agent"; prefixes := ["comet_browser"]; models := [] |};
    {| name := "Other"; prefixes := []; models := [] |} ].

(** [category.prefixes.some(prefix => id.startsWith(prefix) || id === prefix)]. *)
Definition takes (category : ModelCategory) (id : string) : bool :=
  existsb (fun prefix => startsWith id prefix || String.eqb id prefix) (prefixes category).

(** [category.models.push({ id, info })]. *)
Definition push (category : ModelCategory) (entry : string * ModelInfo) : ModelCategory :=
  {| name := name category; prefixes := prefixes category;
     models := models category ++ [entry] |}.

(** The inner loop: the entry goes to the first category that takes its
    id; [None] when none does. *)
Fixpoint place (categories : list ModelCategory) (entry : string * ModelInfo)
  : option (list ModelCategory) :=
  match categories with
  | [] => None
  | category :: rest =>
      if takes category entry.1 then Some (push category entry :: rest)
      else option_map (cons category) (place rest entry)
  end.

(** [categories.find(category => category.name === "Other")], pushed to
    when it is found. *)
Fixpoint push_other (categories : list ModelCategory) (entry : string * ModelInfo)
  : list ModelCategory :=
  match categories with
  | [] => []
  | category :: rest =>
      if String.eqb (name category) "Other" then push category entry :: rest
      else category :: push_other rest entry
  end.

(** The body of the outer loop. *)
Definition categorize_step (categories : list ModelCategory) (entry : string * ModelInfo)
  : list ModelCategory :=
  match place categories entry with
  | Some placed => placed
  | None => push_other categories entry
  end.

(** Group models into display categories; [entries] is
    [Object.entries(models)]. *)
Definition categorizeModels (entries : list (string * ModelInfo)) : list ModelCategory :=
  let filled := foldl categorize_step categories0 entries in
  let sorted :=
    (fun category => {| name := name category; prefixes := prefixes category;
                        models := sort_by_id (models category) |}) <$> filled in
  filter (fun category => models category <> []) sorted.

(** The name of the category an id belongs to. *)
Definition category_of (id : string) : string :=
  match List.find (fun category => takes category id) categories0 with
  | Some category => name category
  | None => "Other"
  end.

End Categories.

End Models.
(** * Properties *)

(** ** Strings and slices *)

Lemma startsWith_empty (s : string) : startsWith s "" = true.
Proof. destruct s; reflexivity. Qed.

(** A prefix followed by the rest of the string gives the string back. *)
Lemma startsWith_slice_from (s p : string) :
  startsWith s p = true -> p +:+ slice_from (String.length p) s = s.
Proof.
  revert s. induction p as [|c p IH]; intros s Hp.
  - reflexivity.
  - destruct s as [|d s]; [discriminate Hp|].
    cbn [startsWith] in Hp.
    destruct (Ascii.eqb c d) eqn:Hcd; [|discriminate Hp].
    apply Ascii.eqb_eq in Hcd. subst d.
    change (String c (p +:+ slice_from (String.length p) s) = String c s).
    f_equal. apply IH. exact Hp.
Qed.

(** Conversely, a string that extends [p] starts with [p]. *)
Lemma startsWith_app (p t : string) : startsWith (p +:+ t) p = true.
Proof.
  induction p as [|c p IH]; [apply startsWith_empty|].
  change (startsWith (String c (p +:+ t)) (String c p) = true).
  cbn [startsWith]. rewrite Ascii.eqb_refl. exact IH.
Qed.

Lemma slice_from_app (p t : string) : slice_from (String.length p) (p +:+ t) = t.
Proof. induction p as [|c p IH]; [reflexivity|exact IH]. Qed.

Lemma slice_to_nonneg {A : Type} (l : list A) (k : Z) :
  (0 <= k)%Z -> slice_to l k = take (Z.to_nat k) l.
Proof.
  intros Hk. unfold slice_to.
  destruct (0 <=? k)%Z eqn:E; [reflexivity|]. apply Z.leb_gt in E. lia.
Qed.

Lemma slice_to_neg {A : Type} (l : list A) (k : Z) :
  (k < 0)%Z -> slice_to l k = take (length l - Z.to_nat (- k)) l.
Proof.
  intros Hk. unfold slice_to.
  destruct (0 <=? k)%Z eqn:E; [|reflexivity]. apply Z.leb_le in E. lia.
Qed.

(** ** The insertion-ordered map *)

Section JsMapFacts.
Context {K V : Type} `{EqDecision K}.
Implicit Types (m : list (K * V)) (k : K) (v : V).

Lemma get_set_eq m k v : JsMap.get k (JsMap.set k v m) = Some v.
Proof.
  induction m as [|[k' v'] m IH]; simpl.
  - destruct (decide (k = k)); congruence.
  - destruct (decide (k = k')) as [->|Hne]; simpl.
    + destruct (decide (k' = k')); congruence.
    + destruct (decide (k = k')); [congruence|]. exact IH.
Qed.

Lemma get_set_ne m k k' v : k <> k' -> JsMap.get k (JsMap.set k' v m) = JsMap.get k m.
Proof.
  intros Hne. induction m as [|[k0 v0] m IH]; simpl.
  - destruct (decide (k = k')); congruence.
  - destruct (decide (k' = k0)) as [->|Hne0]; simpl.
    + destruct (decide (k = k0)); congruence.
    + destruct (decide (k = k0)); [reflexivity|]. exact IH.
Qed.

Lemma keys_set_in m k v : k ∈ JsMap.keys m -> JsMap.keys (JsMap.set k v m) = JsMap.keys m.
Proof.
  unfold JsMap.keys. induction m as [|[k' v'] m IH]; intros Hin.
  - apply elem_of_nil in Hin. contradiction.
  - cbn [JsMap.set]. destruct (decide (k = k')) as [->|Hne]; [reflexivity|].
    rewrite !fmap_cons. f_equal. apply IH.
    rewrite fmap_cons in Hin. apply elem_of_cons in Hin as [?|?]; [contradiction|assumption].
Qed.

Lemma keys_set_notin m k v :
  k ∉ JsMap.keys m -> JsMap.keys (JsMap.set k v m) = (JsMap.keys m ++ [k])%list.
Proof.
  unfold JsMap.keys. induction m as [|[k' v'] m IH]; intros Hin.
  - reflexivity.
  - cbn [JsMap.set]. rewrite fmap_cons in Hin. apply not_elem_of_cons in Hin as [Hne Hin].
    destruct (decide (k = k')) as [->|_]; [contradiction|].
    rewrite !fmap_cons. cbn [app]. f_equal. apply IH. exact Hin.
Qed.

Lemma keys_set_NoDup m k v :
  NoDup (JsMap.keys m) -> NoDup (JsMap.keys (JsMap.set k v m)).
Proof.
  intros Hnd. destruct (decide (k ∈ JsMap.keys m)) as [Hin|Hout].
  - rewrite keys_set_in by exact Hin. exact Hnd.
  - rewrite keys_set_notin by exact Hout. apply NoDup_app. split; [exact Hnd|]. split.
    + intros x Hx ->%list_elem_of_singleton. contradiction.
    + apply NoDup_singleton.
Qed.

Lemma get_None_keys m k : JsMap.get k m = None <-> k ∉ JsMap.keys m.
Proof.
  unfold JsMap.keys. induction m as [|[k' v'] m IH].
  - split; [intros _; apply not_elem_of_nil|reflexivity].
  - cbn [JsMap.get]. rewrite fmap_cons, not_elem_of_cons.
    destruct (decide (k = k')) as [->|Hne].
    + split; [discriminate|]. intros [Hn _]. contradiction.
    + rewrite IH. cbn. tauto.
Qed.

Lemma get_Some_elem m k v : JsMap.get k m = Some v -> (k, v) ∈ m.
Proof.
  induction m as [|[k' v'] m IH]; cbn [JsMap.get]; [discriminate|].
  destruct (decide (k = k')) as [->|Hne].
  - intros [= ->]. apply list_elem_of_here.
  - intros Hg. apply list_elem_of_further. apply IH. exact Hg.
Qed.

Lemma elem_get_NoDup m k v :
  NoDup (JsMap.keys m) -> (k, v) ∈ m -> JsMap.get k m = Some v.
Proof.
  unfold JsMap.keys. induction m as [|[k' v'] m IH].
  - intros _ Hin. apply elem_of_nil in Hin. contradiction.
  - rewrite fmap_cons. intros [Hnotin Hnd]%NoDup_cons Hin. cbn [JsMap.get].
    apply elem_of_cons in Hin as [Heq|Hin].
    + injection Heq as -> ->. destruct (decide (k' = k')); congruence.
    + destruct (decide (k = k')) as [->|Hne].
      * exfalso. apply Hnotin. apply list_elem_of_fmap. exists (k', v). split; [reflexivity|exact Hin].
      * apply IH; assumption.
Qed.

Lemma keys_of_entries_NoDup (l : list (K * V)) : NoDup (JsMap.keys (JsMap.of_entries l)).
Proof.
  unfold JsMap.of_entries.
  assert (Hgen : forall m0, NoDup (JsMap.keys m0) ->
            NoDup (JsMap.keys (foldl (fun m kv => JsMap.set kv.1 kv.2 m) m0 l))).
  { induction l as [|kv l IH]; intros m0 Hm0; [exact Hm0|].
    cbn [foldl]. apply IH. apply keys_set_NoDup. exact Hm0. }
  apply Hgen. apply NoDup_nil_2.
Qed.

Lemma keys_delete m k : JsMap.keys (JsMap.delete k m) ⊆ JsMap.keys m.
Proof.
  unfold JsMap.keys. induction m as [|[k' v'] m IH]; [reflexivity|].
  cbn [JsMap.delete]. destruct (decide (k = k')); rewrite ?fmap_cons.
  - intros x Hx. apply list_elem_of_further. exact Hx.
  - intros x [->|Hx]%elem_of_cons; [apply list_elem_of_here|].
    apply list_elem_of_further. apply IH. exact Hx.
Qed.

Lemma get_delete_eq m k : NoDup (JsMap.keys m) -> JsMap.get k (JsMap.delete k m) = None.
Proof.
  unfold JsMap.keys. induction m as [|[k' v'] m IH]; [reflexivity|].
  rewrite fmap_cons. intros [Hnotin Hnd]%NoDup_cons. cbn [JsMap.delete].
  destruct (decide (k = k')) as [->|Hne].
  - apply get_None_keys. exact Hnotin.
  - cbn [JsMap.get]. destruct (decide (k = k')); [congruence|]. apply IH. exact Hnd.
Qed.

Lemma get_delete_ne m k k' : k <> k' -> JsMap.get k (JsMap.delete k' m) = JsMap.get k m.
Proof.
  intros Hne. induction m as [|[k0 v0] m IH]; [reflexivity|].
  cbn [JsMap.delete JsMap.get]. destruct (decide (k' = k0)) as [->|Hne0].
  - destruct (decide (k = k0)); [congruence|reflexivity].
  - cbn [JsMap.get]. destruct (decide (k = k0)); [reflexivity|]. exact IH.
Qed.

Lemma keys_delete_NoDup m k : NoDup (JsMap.keys m) -> NoDup (JsMap.keys (JsMap.delete k m)).
Proof.
  unfold JsMap.keys. induction m as [|[k' v'] m IH]; [intros; apply NoDup_nil_2|].
  rewrite fmap_cons. intros [Hnotin Hnd]%NoDup_cons. cbn [JsMap.delete].
  destruct (decide (k = k')); [exact Hnd|].
  rewrite fmap_cons. apply NoDup_cons. split; [|apply IH; exact Hnd].
  intros Hin. apply Hnotin. apply (keys_delete m k). exact Hin.
Qed.

End JsMapFacts.

(** ** Markdown chunk splicing *)

Section Markdown.
Implicit Types (existing incoming : obj).

Lemma chunks_insert (m : obj) (l : list value) :
  chunks (<["chunks" := VArr l]> m) = Some l.
Proof. unfold chunks. rewrite lookup_insert_eq. reflexivity. Qed.

Lemma chunks_lookup (m : obj) (l : list value) :
  chunks m = Some l -> m !! "chunks" = Some (VArr l).
Proof.
  unfold chunks. destruct (m !! "chunks") as [[| | | |l'|]|]; try discriminate.
  intros [= ->]. reflexivity.
Qed.

Lemma chunks_union_l (incoming existing : obj) :
  is_Some (incoming !! "chunks") -> chunks (incoming ∪ existing) = chunks incoming.
Proof.
  intros [v Hv]. unfold chunks.
  rewrite (lookup_union_Some_l incoming existing _ _ Hv), Hv. reflexivity.
Qed.

Lemma chunks_union_r (incoming existing : obj) :
  incoming !! "chunks" = None -> chunks (incoming ∪ existing) = chunks existing.
Proof.
  intros Hv. unfold chunks. rewrite lookup_union_r by exact Hv. reflexivity.
Qed.

(** With a non-empty incoming chunk sequence the merge splices. *)
Lemma mergeMarkdownBlock_splice existing incoming c cs :
  chunks incoming = Some (c :: cs) ->
  chunks (mergeMarkdownBlock (Some existing) incoming)
  = Some (if (chunk_starting_offset incoming =? 0)%Z then c :: cs
          else (slice_to (default [] (chunks existing)) (chunk_starting_offset incoming)
                ++ c :: cs)%list).
Proof.
  intros Hc. unfold mergeMarkdownBlock. rewrite Hc.
  destruct (chunk_starting_offset incoming =? 0)%Z; apply chunks_insert.
Qed.

(** Without one the shallow merge decides. *)
Lemma mergeMarkdownBlock_no_splice existing incoming :
  chunks incoming = None \/ chunks incoming = Some [] ->
  mergeMarkdownBlock (Some existing) incoming = incoming ∪ existing.
Proof.
  intros [Hc|Hc]; unfold mergeMarkdownBlock; rewrite Hc; reflexivity.
Qed.

End Markdown.

(** C4, as stated, fails: an incoming block whose chunk sequence is empty
    and whose offset is 1 leaves no chunks at all, where the rule keeps the
    first accumulated chunk. *)
Lemma splice_rule_fails_on_empty_incoming_chunks :
  chunks no_chunks_at_1 = Some []
  /\ chunk_starting_offset no_chunks_at_1 = 1%Z
  /\ spliced_as_specified [VStr "a"; VStr "b"; VStr "c"] [] 1 = [VStr "a"]
  /\ chunks (mergeMarkdownBlock (Some chunks_abc) no_chunks_at_1) = Some []
  /\ chunks (mergeMarkdownBlock (Some chunks_abc) no_chunks_at_1)
     <> Some (spliced_as_specified [VStr "a"; VStr "b"; VStr "c"] [] 1).
Proof.
  assert (E : chunks (mergeMarkdownBlock (Some chunks_abc) no_chunks_at_1) = Some [])
    by (vm_compute; reflexivity).
  repeat split; try (vm_compute; reflexivity); try exact E.
  rewrite E. vm_compute. intros H. discriminate H.
Qed.

(** C4 (amended): when the incoming markdown block carries a non-empty chunk
    sequence, offset 0 (or no offset) makes it replace the accumulated
    chunks, a positive offset keeps that many accumulated chunks before it,
    and a negative one drops that many from the end ([Array.slice]); an
    empty or missing incoming sequence is not spliced, the shallow merge
    decides.  Accumulated a, b, c with X at offset 1 gives a, X. *)
Theorem mergeMarkdownBlock_chunk_splice (existing incoming : obj) :
  (forall c cs, chunks incoming = Some (c :: cs) ->
     let offset := chunk_starting_offset incoming in
     let accumulated := default [] (chunks existing) in
     let result := chunks (mergeMarkdownBlock (Some existing) incoming) in
     (incoming !! "chunk_starting_offset" = None -> result = Some (c :: cs))
     /\ (offset = 0%Z -> result = Some (c :: cs))
     /\ ((0 < offset)%Z -> result = Some (take (Z.to_nat offset) accumulated ++ c :: cs)%list)
     /\ ((offset < 0)%Z ->
         result = Some (take (length accumulated - Z.to_nat (- offset)) accumulated
                        ++ c :: cs)%list))
  /\ (chunks incoming = Some [] ->
      chunks (mergeMarkdownBlock (Some existing) incoming) = Some [])
  /\ (incoming !! "chunks" = None ->
      chunks (mergeMarkdownBlock (Some existing) incoming) = chunks existing)
  /\ chunks (mergeMarkdownBlock (Some chunks_abc) chunk_X_at_1) = Some [VStr "a"; VStr "X"].
Proof.
  split; [|split; [|split]].
  - intros c cs Hc offset accumulated result.
    assert (Hr : result = Some (if (offset =? 0)%Z then c :: cs
                                else (slice_to accumulated offset ++ c :: cs)%list))
      by (apply mergeMarkdownBlock_splice; exact Hc).
    split; [|split; [|split]].
    + intros Hnone. rewrite Hr. subst offset. unfold chunk_starting_offset.
      rewrite Hnone. reflexivity.
    + intros H0. rewrite Hr, H0. reflexivity.
    + intros Hpos. rewrite Hr. destruct (offset =? 0)%Z eqn:E.
      * apply Z.eqb_eq in E. lia.
      * rewrite slice_to_nonneg by lia. reflexivity.
    + intros Hneg. rewrite Hr. destruct (offset =? 0)%Z eqn:E.
      * apply Z.eqb_eq in E. lia.
      * rewrite slice_to_neg by lia. reflexivity.
  - intros Hc. rewrite mergeMarkdownBlock_no_splice by (right; exact Hc).
    rewrite chunks_union_l; [exact Hc|].
    rewrite (chunks_lookup _ _ Hc). eexists; reflexivity.
  - intros Hc. rewrite mergeMarkdownBlock_no_splice.
    + apply chunks_union_r. exact Hc.
    + left. unfold chunks. rewrite Hc. reflexivity.
  - vm_compute. reflexivity.
Qed.

(** ** The stream accumulator *)

Section AccumulatorFacts.
Variable applyPatch : value -> list value -> option value.

(** C3: the delta of an update is the suffix appended to the previous answer
    when the new answer starts with it (so an answer that grew by [t] has
    delta [t]), and the whole new answer otherwise.  From Hello, Hello world
    gives the delta " world" and Goodbye gives Goodbye. *)
Theorem update_delta_suffix_or_whole (this : StreamAccumulator) (incoming : obj) :
  let u := (update applyPatch this incoming).2 in
  (startsWith (answer u) (this_answer this) = true ->
     this_answer this +:+ delta u = answer u)
  /\ (forall t, answer u = this_answer this +:+ t -> delta u = t)
  /\ (startsWith (answer u) (this_answer this) = false -> delta u = answer u)
  /\ this_answer (update applyPatch this incoming).1 = answer u
  /\ (let hello := (update applyPatch new_StreamAccumulator (answer_payload "Hello")).1 in
      this_answer hello = "Hello"
      /\ delta (update applyPatch hello (answer_payload "Hello world")).2 = " world"
      /\ delta (update applyPatch hello (answer_payload "Goodbye")).2 = "Goodbye").
Proof.
  cbv zeta. split; [|split; [|split; [|split]]].
  - intros Hp. cbn [update snd delta answer]. cbn [update snd answer] in Hp.
    rewrite Hp. apply startsWith_slice_from. exact Hp.
  - intros t Ht. cbn [update snd delta answer]. cbn [update snd answer] in Ht.
    rewrite Ht, startsWith_app. apply slice_from_app.
  - intros Hp. cbn [update snd delta answer]. cbn [update snd answer] in Hp.
    rewrite Hp. reflexivity.
  - reflexivity.
  - vm_compute. repeat split.
Qed.

(** C10: finality is read off the incoming payload alone: it is true exactly
    when the payload's [final] is truthy or its [status] is the string
    COMPLETED, whatever the accumulator holds; so an update after a final one
    is final only if it carries the signal itself, and a lower-case
    completed status is not final. *)
Theorem update_isFinal_from_incoming_only (this : StreamAccumulator) (incoming : obj) :
  isFinal (update applyPatch this incoming).2
  = truthy_prop (incoming !! "final") || is_string (incoming !! "status") "COMPLETED"
  /\ (forall other : StreamAccumulator,
        isFinal (update applyPatch other incoming).2
        = isFinal (update applyPatch this incoming).2)
  /\ (forall earlier : obj,
        isFinal (update applyPatch this earlier).2 = true ->
        truthy_prop (incoming !! "final") = false ->
        incoming !! "status" <> Some (VStr "COMPLETED") ->
        isFinal (update applyPatch (update applyPatch this earlier).1 incoming).2 = false)
  /\ (truthy_prop (incoming !! "final") = false ->
      incoming !! "status" = Some (VStr "completed") ->
      isFinal (update applyPatch this incoming).2 = false)
  /\ isFinal <$> (update_all applyPatch new_StreamAccumulator
                    [final_payload; pending_payload; completed_payload;
                     lowercase_completed_payload]).2
     = [true; false; true; false].
Proof.
  split; [reflexivity|]. split; [reflexivity|]. split; [|split].
  - intros earlier _ Hfinal Hstatus. cbn [update snd isFinal]. rewrite Hfinal.
    cbn [orb]. unfold is_string.
    destruct (incoming !! "status") as [[| | |s| |]|] eqn:E; try reflexivity.
    destruct (String.eqb s "COMPLETED") eqn:Es; [|reflexivity].
    apply String.eqb_eq in Es. subst s. contradiction.
  - intros Hfinal Hstatus. cbn [update snd isFinal]. rewrite Hfinal, Hstatus. reflexivity.
  - vm_compute. reflexivity.
Qed.

End AccumulatorFacts.

(** ** The frame decoder *)

Section DecoderFacts.
Variable JSON_parse : string -> option value.





Lemma on_payload_parsed (raw : string) (parsed : value) :
  trim raw <> "" -> trim raw <> "[DONE]" -> JSON_parse (trim raw) = Some parsed ->
  on_payload JSON_parse raw =
    match get_prop parsed "status" with
    | None => Throw TypeError
    | Some status =>
        let text := default None (get_prop parsed "text") in
        let error_code := default None (get_prop parsed "error_code") in
        if is_string status "failed" || is_string status "FAILED"
        then Throw (PerplexityStreamError
                      (coalesce text (VStr "Perplexity stream failed")) error_code)
        else if truthy_prop error_code
        then Throw (PerplexityStreamError
                      (coalesce (coalesce_prop text error_code)
                                (VStr "Perplexity stream failed")) error_code)
        else Yield parsed
    end.
Proof.
  intros Hne Hnd Hp. unfold on_payload.
  apply String.eqb_neq in Hne. apply String.eqb_neq in Hnd.
  rewrite Hne, Hnd, Hp. reflexivity.
Qed.

Lemma on_payload_object (raw : string) (m : obj) :
  trim raw <> "" -> trim raw <> "[DONE]" -> JSON_parse (trim raw) = Some (VObj m) ->
  on_payload JSON_parse raw =
    if is_string (m !! "status") "failed" || is_string (m !! "status") "FAILED"
    then Throw (PerplexityStreamError
                  (coalesce (m !! "text") (VStr "Perplexity stream failed"))
                  (m !! "error_code"))
    else if truthy_prop (m !! "error_code")
    then Throw (PerplexityStreamError
                  (coalesce (coalesce_prop (m !! "text") (m !! "error_code"))
                            (VStr "Perplexity stream failed"))
                  (m !! "error_code"))
    else Yield (VObj m).
Proof.
  intros Hne Hnd Hp. rewrite (on_payload_parsed raw _ Hne Hnd Hp). reflexivity.
Qed.

(** A parsed value that is not an object declares nothing: [null] makes the
    property read throw, anything else is yielded. *)
Lemma on_payload_not_object (raw : string) (parsed : value) :
  trim raw <> "" -> trim raw <> "[DONE]" -> JSON_parse (trim raw) = Some parsed ->
  (forall m, parsed <> VObj m) ->
  on_payload JSON_parse raw = if parsed is VNull then Throw TypeError else Yield parsed.
Proof.
  intros Hne Hnd Hp Hno. rewrite (on_payload_parsed raw _ Hne Hnd Hp).
  destruct parsed; try reflexivity. exfalso. eapply Hno. reflexivity.
Qed.



End DecoderFacts.




(** ** The merge engine *)

Section MergeFacts.
Variable applyPatch : value -> list value -> option value.

(** C5: a block with a patch instruction patches the current value of its
    target field: the previous block's value, or, when the field was never
    seen (or is null), an empty object if the first patch path starts with a
    slash and an empty string otherwise; the patched value is stored under
    the field; when the patch application throws, the stored block is the
    shallow merge of the incoming block over the previous one. *)
Theorem mergeBlock_patch_or_fallback (prev : option obj) (block : obj) (d : DiffBlock) :
  markdown_block block = None ->
  diff_block block = Some d ->
  (forall p v, prev = Some p -> p !! field d = Some v -> v <> VNull ->
     current_value prev d = v)
  /\ ((prev ≫= fun p => p !! field d) = None \/ (prev ≫= fun p => p !! field d) = Some VNull ->
      current_value prev d
      = if first_path_is_pointer (patches d) then VObj ∅ else VStr "")
  /\ (forall op path rest,
        patches d = Some (VObj op :: rest) -> op !! "path" = Some (VStr path) ->
        first_path_is_pointer (patches d) = startsWith path "/")
  /\ (patches d = None \/ patches d = Some [] -> first_path_is_pointer (patches d) = false)
  /\ (forall patched,
        applyPatch (current_value prev d) (default [] (patches d)) = Some patched ->
        mergeBlock applyPatch prev block
        = <[field d := patched]>
            (<["intended_usage" := VStr (intended_usage block)]> (default ∅ prev)))
  /\ (applyPatch (current_value prev d) (default [] (patches d)) = None ->
      mergeBlock applyPatch prev block = block ∪ default ∅ prev
      /\ forall existing,
           JsMap.get (intended_usage block)
             (JsMap.of_entries ((fun b => (intended_usage b, b)) <$> existing)) = prev ->
           block ∪ default ∅ prev ∈ mergeBlocks applyPatch existing [block]).
Proof.
  intros Hmd Hdiff. split; [|split; [|split; [|split; [|split]]]].
  - intros p v -> Hv Hnn. unfold current_value. cbn [mbind option_bind]. rewrite Hv.
    destruct v; try reflexivity. contradiction.
  - intros [H|H]; unfold current_value; rewrite H; reflexivity.
  - intros op path rest Hps Hpath. rewrite Hps. cbn [first_path_is_pointer].
    rewrite Hpath. reflexivity.
  - intros [H|H]; rewrite H; reflexivity.
  - intros patched Hok. unfold mergeBlock. rewrite Hmd, Hdiff, Hok. reflexivity.
  - intros Hfail.
    assert (Hmb : mergeBlock applyPatch prev block = block ∪ default ∅ prev)
      by (unfold mergeBlock; rewrite Hmd, Hdiff, Hfail; reflexivity).
    split; [exact Hmb|]. intros existing Hprev.
    unfold mergeBlocks. cbn [foldl]. unfold mergeBlocks_step. rewrite Hprev, Hmb.
    unfold JsMap.values. apply list_elem_of_fmap.
    exists (intended_usage block, block ∪ default ∅ prev). split; [reflexivity|].
    apply get_Some_elem. apply get_set_eq.
Qed.

(** Outside [blocks], merging an entry is a shallow merge. *)
Lemma mergeEntries_lookup_ne (existing incoming : obj) (k : string) :
  k <> "blocks" ->
  mergeEntries applyPatch existing incoming !! k = (incoming ∪ existing) !! k.
Proof.
  intros Hk. unfold mergeEntries.
  assert (Hrest : (delete "blocks" incoming ∪ existing) !! k = (incoming ∪ existing) !! k).
  { rewrite !lookup_union. rewrite lookup_delete_ne by congruence. reflexivity. }
  destruct (incoming !! "blocks") as [[| | | |[|b bs]|]|];
    rewrite lookup_insert_ne by congruence; exact Hrest.
Qed.

Lemma mergeEntries_lookup_blocks (existing incoming : obj) :
  mergeEntries applyPatch existing incoming !! "blocks"
  = Some (match incoming !! "blocks" with
          | Some (VArr ((_ :: _) as incomingBlocks)) =>
              VArr (VObj <$> mergeBlocks applyPatch
                               (blocks_of_value (blocks_or_empty existing))
                               (block_of_value <$> incomingBlocks))
          | _ => blocks_or_empty existing
          end).
Proof.
  unfold mergeEntries.
  destruct (incoming !! "blocks") as [[| | | |[|b bs]|]|]; apply lookup_insert_eq.
Qed.

Lemma blocks_or_empty_not_null (e : obj) : blocks_or_empty e <> VNull.
Proof.
  unfold blocks_or_empty, coalesce. destruct (e !! "blocks") as [[]|]; discriminate.
Qed.

Lemma blocks_or_empty_mergeEntries (existing incoming : obj) :
  blocks_or_empty (mergeEntries applyPatch existing incoming)
  = match incoming !! "blocks" with
    | Some (VArr ((_ :: _) as incomingBlocks)) =>
        VArr (VObj <$> mergeBlocks applyPatch
                         (blocks_of_value (blocks_or_empty existing))
                         (block_of_value <$> incomingBlocks))
    | _ => blocks_or_empty existing
    end.
Proof.
  unfold blocks_or_empty at 1. rewrite mergeEntries_lookup_blocks.
  destruct (incoming !! "blocks") as [[| | | |[|b bs]|]|]; try reflexivity;
    cbn [coalesce]; pose proof (blocks_or_empty_not_null existing) as Hnn;
    destruct (blocks_or_empty existing); try reflexivity; contradiction.
Qed.




(** *** One block per key *)

Lemma keyed_set (m : list (string * obj)) (k : string) (b : obj) :
  keyed m -> intended_usage b = k -> keyed (JsMap.set k b m).
Proof.
  unfold keyed. intros Hm Hb. induction m as [|[k' b'] m IH]; cbn [JsMap.set].
  - apply Forall_cons. split; [exact Hb|apply Forall_nil_2].
  - apply Forall_cons in Hm as [Hhd Htl]. destruct (decide (k = k')).
    + apply Forall_cons. split; [exact Hb|exact Htl].
    + apply Forall_cons. split; [exact Hhd|apply IH; exact Htl].
Qed.

Lemma keyed_get (m : list (string * obj)) (k : string) (p : obj) :
  keyed m -> JsMap.get k m = Some p -> intended_usage p = k.
Proof.
  unfold keyed. intros Hm Hg. apply get_Some_elem in Hg.
  rewrite Forall_forall in Hm. exact (Hm _ Hg).
Qed.

Lemma keyed_values (m : list (string * obj)) :
  keyed m -> intended_usage <$> JsMap.values m = JsMap.keys m.
Proof.
  unfold keyed, JsMap.values, JsMap.keys. induction 1 as [|[k b] m Hhd _ IH].
  - reflexivity.
  - rewrite !fmap_cons. cbn [fst snd] in *. rewrite Hhd, IH. reflexivity.
Qed.

Lemma keyed_of_entries (existing : list obj) :
  keyed (JsMap.of_entries ((fun b => (intended_usage b, b)) <$> existing)).
Proof.
  unfold JsMap.of_entries.
  assert (Hgen : forall m0, keyed m0 ->
            keyed (foldl (fun m kv => JsMap.set kv.1 kv.2 m) m0
                         ((fun b => (intended_usage b, b)) <$> existing))).
  { induction existing as [|b bs IH]; intros m0 Hm0; [exact Hm0|].
    rewrite fmap_cons. cbn [foldl]. apply IH. apply keyed_set; [exact Hm0|reflexivity]. }
  apply Hgen. apply Forall_nil_2.
Qed.

Lemma intended_usage_insert_ne (b : obj) (f : string) (v : value) :
  f <> "intended_usage" -> intended_usage (<[f := v]> b) = intended_usage b.
Proof.
  intros Hf. unfold intended_usage. rewrite lookup_insert_ne by exact Hf. reflexivity.
Qed.

Lemma intended_usage_insert (b : obj) (k : string) :
  intended_usage (<["intended_usage" := VStr k]> b) = k.
Proof. unfold intended_usage. rewrite lookup_insert_eq. reflexivity. Qed.

Lemma intended_usage_union (block prev : obj) :
  intended_usage prev = intended_usage block ->
  intended_usage (block ∪ prev) = intended_usage block.
Proof.
  unfold intended_usage. rewrite lookup_union.
  destruct (block !! "intended_usage") as [v|]; destruct (prev !! "intended_usage");
    intros Hp; try reflexivity; exact Hp.
Qed.

(** The block stored for an incoming block keeps the incoming key, unless a
    patch rewrites the key field itself. *)
Lemma intended_usage_mergeBlock (prev : option obj) (block : obj) :
  patches_key block = false ->
  (forall p, prev = Some p -> intended_usage p = intended_usage block) ->
  intended_usage (mergeBlock applyPatch prev block) = intended_usage block.
Proof.
  intros Hpk Hprev.
  assert (Hunion : intended_usage (block ∪ default ∅ prev) = intended_usage block).
  { destruct prev as [p|].
    - apply intended_usage_union. apply Hprev. reflexivity.
    - change (default ∅ None) with (∅ : obj). rewrite map_union_empty. reflexivity. }
  unfold mergeBlock, patches_key in *.
  destruct (markdown_block block) as [md|].
  - rewrite intended_usage_insert_ne by discriminate. apply intended_usage_insert.
  - destruct (diff_block block) as [d|]; [|exact Hunion].
    destruct (applyPatch _ _); [|exact Hunion].
    apply String.eqb_neq in Hpk.
    rewrite intended_usage_insert_ne by exact Hpk. apply intended_usage_insert.
Qed.

Lemma mergeBlocks_step_keyed (m : list (string * obj)) (block : obj) :
  patches_key block = false -> keyed m -> keyed (mergeBlocks_step applyPatch m block).
Proof.
  intros Hpk Hm. unfold mergeBlocks_step. apply keyed_set; [exact Hm|].
  apply intended_usage_mergeBlock; [exact Hpk|].
  intros p Hp. exact (keyed_get m _ p Hm Hp).
Qed.

Lemma mergeBlocks_step_NoDup (m : list (string * obj)) (block : obj) :
  NoDup (JsMap.keys m) -> NoDup (JsMap.keys (mergeBlocks_step applyPatch m block)).
Proof. intros Hm. unfold mergeBlocks_step. apply keys_set_NoDup. exact Hm. Qed.

Lemma mergeBlocks_foldl_inv (incoming : list obj) (m : list (string * obj)) :
  Forall (fun b => patches_key b = false) incoming ->
  keyed m -> NoDup (JsMap.keys m) ->
  keyed (foldl (mergeBlocks_step applyPatch) m incoming)
  /\ NoDup (JsMap.keys (foldl (mergeBlocks_step applyPatch) m incoming)).
Proof.
  intros Hinc. revert m. induction Hinc as [|b bs Hb _ IH]; intros m Hk Hnd.
  - split; assumption.
  - cbn [foldl]. apply IH.
    + apply mergeBlocks_step_keyed; assumption.
    + apply mergeBlocks_step_NoDup; assumption.
Qed.

(** Blocks of other keys leave the entry of a key alone. *)
Lemma mergeBlocks_foldl_get_other (post : list obj) (m : list (string * obj)) (k : string) :
  Forall (fun b => intended_usage b <> k) post ->
  JsMap.get k (foldl (mergeBlocks_step applyPatch) m post) = JsMap.get k m.
Proof.
  intros Hpost. revert m. induction Hpost as [|b bs Hb _ IH]; intros m; [reflexivity|].
  cbn [foldl]. rewrite IH. unfold mergeBlocks_step. apply get_set_ne. congruence.
Qed.

Lemma keyed_values_get (m : list (string * obj)) (k : string) (p : obj) :
  keyed m -> NoDup (JsMap.keys m) ->
  JsMap.get k m = Some p <-> p ∈ JsMap.values m /\ intended_usage p = k.
Proof.
  intros Hk Hnd. split.
  - intros Hg. split; [|exact (keyed_get m k p Hk Hg)].
    unfold JsMap.values. apply list_elem_of_fmap. exists (k, p).
    split; [reflexivity|]. apply get_Some_elem. exact Hg.
  - intros [Hin Hkey]. unfold JsMap.values in Hin.
    apply list_elem_of_fmap in Hin as ([k' b'] & -> & Hin). cbn [snd] in *.
    unfold keyed in Hk. rewrite Forall_forall in Hk.
    pose proof (Hk _ Hin) as Hkb. cbn [fst snd] in Hkb.
    apply elem_get_NoDup; [exact Hnd|]. congruence.
Qed.

(** C6 (amended): merging keeps one block per key, provided no incoming
    patch block rewrites the key field itself.  For the last incoming block
    of a key, the merged block of that key is decided by the kind of that
    block and by what was stored under the key when the block came (the
    block of that key after merging the incoming blocks before it, if any):
    a plain block, with neither a markdown payload nor a patch instruction,
    is laid over the stored block and wins on every field it sets; a block
    with a markdown payload writes [markdown_block] (the splice of its
    payload into the stored one) and [intended_usage], and every other
    field is the stored block's; a patch block whose patch applies writes
    its target field and [intended_usage], and every other field is the
    stored block's; a patch block whose patch throws is laid over the
    stored block like a plain one. *)
Theorem mergeBlocks_one_block_per_key (existing incoming : list obj) :
  Forall (fun b => patches_key b = false) incoming ->
  NoDup (intended_usage <$> mergeBlocks applyPatch existing incoming)
  /\ (forall (before : list obj) (later : obj) (after : list obj),
        incoming = before ++ later :: after ->
        Forall (fun b => intended_usage b <> intended_usage later) after ->
        exists (prev : option obj) (r : obj),
          (forall p, prev = Some p
                     <-> p ∈ mergeBlocks applyPatch existing before
                         /\ intended_usage p = intended_usage later)
          /\ (forall r', r' ∈ mergeBlocks applyPatch existing incoming
                         /\ intended_usage r' = intended_usage later <-> r' = r)
          /\ (markdown_block later = None -> diff_block later = None ->
              r = later ∪ default ∅ prev
              /\ later ⊆ r
              /\ forall earlier,
                   last_write_wins (mergeBlocks applyPatch existing incoming) earlier later)
          /\ (forall md, markdown_block later = Some md ->
              r !! "markdown_block"
              = Some (VObj (mergeMarkdownBlock (prev ≫= markdown_block) md))
              /\ r !! "intended_usage" = Some (VStr (intended_usage later))
              /\ forall f, f <> "markdown_block" -> f <> "intended_usage" ->
                   r !! f = default ∅ prev !! f)
          /\ (forall d, markdown_block later = None -> diff_block later = Some d ->
              (forall patched,
                 applyPatch (current_value prev d) (default [] (patches d)) = Some patched ->
                 r !! field d = Some patched
                 /\ r !! "intended_usage" = Some (VStr (intended_usage later))
                 /\ forall f, f <> field d -> f <> "intended_usage" ->
                      r !! f = default ∅ prev !! f)
              /\ (applyPatch (current_value prev d) (default [] (patches d)) = None ->
                  r = later ∪ default ∅ prev /\ later ⊆ r))).
Proof.
  intros Hinc. unfold mergeBlocks.
  pose proof (keyed_of_entries existing) as Hk0.
  pose proof (keys_of_entries_NoDup ((fun b => (intended_usage b, b)) <$> existing)) as Hnd0.
  destruct (mergeBlocks_foldl_inv incoming _ Hinc Hk0 Hnd0) as [Hk Hnd].
  split.
  - rewrite keyed_values by exact Hk. exact Hnd.
  - intros before later after -> Hafter.
    pose proof Hinc as Hparts. apply Forall_app in Hparts as [Hbefore Hrest].
    apply Forall_cons in Hrest as [Hlater _].
    destruct (mergeBlocks_foldl_inv before _ Hbefore Hk0 Hnd0) as [Hk1 Hnd1].
    rewrite foldl_app in *. cbn [foldl] in *.
    set (m1 := foldl (mergeBlocks_step applyPatch)
                 (JsMap.of_entries ((fun b => (intended_usage b, b)) <$> existing)) before)
      in *.
    set (prev := JsMap.get (intended_usage later) m1).
    set (r := mergeBlock applyPatch prev later).
    assert (Hget : JsMap.get (intended_usage later)
                     (foldl (mergeBlocks_step applyPatch)
                            (mergeBlocks_step applyPatch m1 later) after) = Some r).
    { rewrite mergeBlocks_foldl_get_other by exact Hafter.
      unfold mergeBlocks_step. apply get_set_eq. }
    exists prev, r. split; [|split; [|split; [|split]]].
    + intros p. apply keyed_values_get; assumption.
    + intros r'. rewrite <- (keyed_values_get _ _ _ Hk Hnd). rewrite Hget.
      split; [intros [= ->]; reflexivity|intros ->; reflexivity].
    + intros Hmd Hdiff.
      assert (Hr : r = later ∪ default ∅ prev)
        by (subst r; unfold mergeBlock; rewrite Hmd, Hdiff; reflexivity).
      split; [exact Hr|]. split; [rewrite Hr; apply map_union_subseteq_l|].
      intros earlier r' Hr' Hkey f v _ Hv.
      assert (Hg' : JsMap.get (intended_usage later)
                     (foldl (mergeBlocks_step applyPatch)
                            (mergeBlocks_step applyPatch m1 later) after) = Some r')
        by (apply keyed_values_get; [exact Hk|exact Hnd|split; assumption]).
      rewrite Hget in Hg'. injection Hg' as <-. rewrite Hr.
      apply lookup_union_Some_l. exact Hv.
    + intros md Hmd. subst r. unfold mergeBlock. rewrite Hmd.
      split; [apply lookup_insert_eq|]. split.
      * rewrite lookup_insert_ne by discriminate. apply lookup_insert_eq.
      * intros f Hf1 Hf2. rewrite !lookup_insert_ne by congruence. reflexivity.
    + intros d Hmd Hdiff. split.
      * intros patched Hok. subst r. unfold mergeBlock. rewrite Hmd, Hdiff, Hok.
        assert (Hfield : field d <> "intended_usage").
        { unfold patches_key in Hlater. rewrite Hmd, Hdiff in Hlater.
          apply String.eqb_neq. exact Hlater. }
        split; [apply lookup_insert_eq|]. split.
        -- rewrite lookup_insert_ne by exact Hfield. apply lookup_insert_eq.
        -- intros f Hf1 Hf2. rewrite !lookup_insert_ne by congruence. reflexivity.
      * intros Hfail.
        assert (Hr : r = later ∪ default ∅ prev)
          by (subst r; unfold mergeBlock; rewrite Hmd, Hdiff, Hfail; reflexivity).
        split; [exact Hr|]. rewrite Hr. apply map_union_subseteq_l.
Qed.
End MergeFacts.

(** The patch of [replace_missing_path_block] fails: the block is stored as
    it came. *)
Lemma mergeBlock_patch_or_fallback_witness :
  markdown_block replace_missing_path_block = None
  /\ (exists d, diff_block replace_missing_path_block = Some d /\ field d = "goals")
  /\ mergeBlock applyPatch_throws None replace_missing_path_block
     = replace_missing_path_block ∪ ∅.
Proof.
  pose (d := {| field := "goals";
                patches := Some [VObj {[ "op" := VStr "replace";
                                         "path" := VStr "/0/title";
                                         "value" := VStr "x" ]}] |}).
  assert (Hmd : markdown_block replace_missing_path_block = None) by reflexivity.
  assert (Hd : diff_block replace_missing_path_block = Some d) by reflexivity.
  split; [exact Hmd|]. split; [exists d; split; [exact Hd|reflexivity]|].
  destruct (mergeBlock_patch_or_fallback applyPatch_throws None
              replace_missing_path_block d Hmd Hd) as (_ & _ & _ & _ & _ & Hfallback).
  apply Hfallback. reflexivity.
Defined.

(** C6, as stated, fails: of two incoming blocks of one key that both set
    [content], the later one carries a markdown payload, and the merged block
    keeps the earlier content. *)
Lemma later_markdown_block_keeps_earlier_content :
  intended_usage content_old_block = intended_usage content_new_markdown_block
  /\ (forall applyPatch,
        mergeBlocks applyPatch [] [content_old_block; content_new_markdown_block]
        = [ {[ "intended_usage" := VStr "ask_text"; "content" := VStr "old";
               "markdown_block" := VObj {[ "answer" := VStr "A" ]} ]} ])
  /\ ~ last_write_wins
        (mergeBlocks applyPatch_throws [] [content_old_block; content_new_markdown_block])
        content_old_block content_new_markdown_block.
Proof.
  assert (Hres : forall applyPatch,
            mergeBlocks applyPatch [] [content_old_block; content_new_markdown_block]
            = [ {[ "intended_usage" := VStr "ask_text"; "content" := VStr "old";
                   "markdown_block" := VObj {[ "answer" := VStr "A" ]} ]} ])
    by (intros applyPatch; vm_compute; reflexivity).
  split; [reflexivity|]. split; [exact Hres|].
  intros Hlww. rewrite Hres in Hlww.
  specialize (Hlww _ (list_elem_of_here _ _) eq_refl "content" (VStr "new")).
  assert (Hnew : ({[ "intended_usage" := VStr "ask_text"; "content" := VStr "old";
                     "markdown_block" := VObj {[ "answer" := VStr "A" ]} ]} : obj)
                 !! "content" = Some (VStr "new")).
  { apply Hlww; [eexists; reflexivity|reflexivity]. }
  vm_compute in Hnew. discriminate Hnew.
Qed.

(** Two plain blocks of one key: one merged block, and the later content
    wins. *)
Lemma mergeBlocks_one_block_per_key_witness :
  Forall (fun b => patches_key b = false) [content_old_block; content_new_block]
  /\ NoDup (intended_usage <$>
              mergeBlocks applyPatch_throws [] [content_old_block; content_new_block])
  /\ (forall earlier,
        last_write_wins
          (mergeBlocks applyPatch_throws [] [content_old_block; content_new_block])
          earlier content_new_block).
Proof.
  assert (H : Forall (fun b => patches_key b = false) [content_old_block; content_new_block])
    by (repeat constructor).
  split; [exact H|].
  destruct (mergeBlocks_one_block_per_key applyPatch_throws []
              [content_old_block; content_new_block] H) as [Hnd Hlast].
  split; [exact Hnd|].
  destruct (Hlast [content_old_block] content_new_block [] eq_refl (Forall_nil_2 _))
    as (prev & r & _ & _ & Hplain & _).
  destruct (Hplain eq_refl eq_refl) as (_ & _ & Hlww). exact Hlww.
Defined.


(** ** The socket RPC client *)

Module SocketFacts.
Import Socket SocketInv.

Section Settle.
Context {K : Type} `{EqDecision K}.
Implicit Types (ps : list (K * Settled)) (k : K) (o : Settled).

Lemma get_settle_eq ps k o :
  JsMap.get k ps = None -> JsMap.get k (settle k o ps) = Some o.
Proof. intros Hn. unfold settle. rewrite Hn. apply get_set_eq. Qed.

Lemma get_settle_ne ps k k' o : k' <> k -> JsMap.get k' (settle k o ps) = JsMap.get k' ps.
Proof.
  intros Hne. unfold settle. destruct (JsMap.get k ps); [reflexivity|].
  apply get_set_ne. exact Hne.
Qed.

Lemma get_settle_settled ps k k' o r :
  JsMap.get k' ps = Some r -> JsMap.get k' (settle k o ps) = Some r.
Proof.
  intros Hs. destruct (decide (k' = k)) as [->|Hne].
  - unfold settle. rewrite Hs. exact Hs.
  - rewrite get_settle_ne by exact Hne. exact Hs.
Qed.

End Settle.

Section Delete.
Context {K V : Type} `{EqDecision K}.
Implicit Types (m : list (K * V)) (k : K).

Lemma get_delete_None m k h : JsMap.get k m = None -> JsMap.get k (JsMap.delete h m) = None.
Proof.
  rewrite !get_None_keys. intros Hn Hin. apply Hn. apply (keys_delete m h). exact Hin.
Qed.

Lemma get_delete_Some m k h v :
  NoDup (JsMap.keys m) -> JsMap.get k (JsMap.delete h m) = Some v ->
  k <> h /\ JsMap.get k m = Some v.
Proof.
  intros Hnd Hg. destruct (decide (k = h)) as [->|Hne].
  - rewrite get_delete_eq in Hg by exact Hnd. discriminate Hg.
  - rewrite get_delete_ne in Hg by exact Hne. split; assumption.
Qed.

End Delete.

(** *** The loop of [onclose] and [close()] *)

Lemma reject_all_fields (s : PerplexitySocket) :
  let s' := reject_all s in
  nextAckId s' = nextAckId s /\ pendingAcks s' = pendingAcks s /\ phase s' = phase s
  /\ connect_timer s' = connect_timer s /\ ready s' = ready s
  /\ timers s' = clear_timers (JsMap.values (pendingAcks s)) (timers s)
  /\ promises s' = reject_promises (JsMap.values (pendingAcks s)) (promises s)
  /\ sent s' = sent s /\ ws_closed s' = ws_closed s.
Proof.
  unfold reject_all, clear_timers, reject_promises.
  generalize (JsMap.values (pendingAcks s)) as ps. intros ps.
  assert (Hgen : forall s0 : PerplexitySocket,
    let s' := foldl (fun s p =>
           {| nextAckId := nextAckId s; pendingAcks := pendingAcks s; phase := phase s;
              connect_timer := connect_timer s; ready := ready s;
              timers := JsMap.delete (timer p) (timers s);
              promises := settle (promise p) (Rejected SocketClosed) (promises s);
              sent := sent s; ws_closed := ws_closed s |}) s0 ps in
    nextAckId s' = nextAckId s0 /\ pendingAcks s' = pendingAcks s0 /\ phase s' = phase s0
    /\ connect_timer s' = connect_timer s0 /\ ready s' = ready s0
    /\ timers s' = foldl (fun ts p => JsMap.delete (timer p) ts) (timers s0) ps
    /\ promises s' = foldl (fun pr p => settle (promise p) (Rejected SocketClosed) pr)
                           (promises s0) ps
    /\ sent s' = sent s0 /\ ws_closed s' = ws_closed s0).
  { induction ps as [|p ps IH]; intros s0; cbn [foldl].
    - repeat split.
    - specialize (IH {| nextAckId := nextAckId s0; pendingAcks := pendingAcks s0;
                        phase := phase s0; connect_timer := connect_timer s0;
                        ready := ready s0;
                        timers := JsMap.delete (timer p) (timers s0);
                        promises := settle (promise p) (Rejected SocketClosed) (promises s0);
                        sent := sent s0; ws_closed := ws_closed s0 |}).
      exact IH. }
  apply Hgen.
Qed.

Lemma get_reject_promises_in (ps : list Pending) (pr : list (N * Settled)) (k : N) :
  k ∈ promise <$> ps -> JsMap.get k pr = None ->
  JsMap.get k (reject_promises ps pr) = Some (Rejected SocketClosed).
Proof.
  unfold reject_promises. revert pr. induction ps as [|p ps IH]; intros pr Hin Hn.
  - rewrite fmap_nil in Hin. apply elem_of_nil in Hin. contradiction.
  - cbn [foldl]. rewrite fmap_cons in Hin.
    destruct (decide (k = promise p)) as [->|Hne].
    + clear Hin IH. pose proof (get_settle_eq pr (promise p) (Rejected SocketClosed) Hn) as Hs.
      revert Hs. generalize (settle (promise p) (Rejected SocketClosed) pr). clear.
      induction ps as [|q ps IH]; intros pr' Hs; [exact Hs|].
      cbn [foldl]. apply IH. apply get_settle_settled. exact Hs.
    + apply elem_of_cons in Hin as [?|Hin]; [contradiction|].
      apply IH; [exact Hin|]. rewrite get_settle_ne by exact Hne. exact Hn.
Qed.

Lemma get_reject_promises_settled (ps : list Pending) (pr : list (N * Settled)) (k : N) r :
  JsMap.get k pr = Some r -> JsMap.get k (reject_promises ps pr) = Some r.
Proof.
  unfold reject_promises. revert pr. induction ps as [|p ps IH]; intros pr Hs; [exact Hs|].
  cbn [foldl]. apply IH. apply get_settle_settled. exact Hs.
Qed.

Lemma get_reject_promises_notin (ps : list Pending) (pr : list (N * Settled)) (k : N) :
  k ∉ promise <$> ps -> JsMap.get k (reject_promises ps pr) = JsMap.get k pr.
Proof.
  unfold reject_promises. revert pr. induction ps as [|p ps IH]; intros pr Hn; [reflexivity|].
  cbn [foldl]. rewrite fmap_cons in Hn. apply not_elem_of_cons in Hn as [Hne Hn].
  rewrite IH by exact Hn. apply get_settle_ne. exact Hne.
Qed.

Lemma clear_timers_keys (ps : list Pending) (ts : list (N * RpcTimer)) :
  JsMap.keys (clear_timers ps ts) ⊆ JsMap.keys ts.
Proof.
  unfold clear_timers. revert ts. induction ps as [|p ps IH]; intros ts; [reflexivity|].
  cbn [foldl]. etransitivity; [apply IH|]. apply keys_delete.
Qed.

Lemma clear_timers_NoDup (ps : list Pending) (ts : list (N * RpcTimer)) :
  NoDup (JsMap.keys ts) -> NoDup (JsMap.keys (clear_timers ps ts)).
Proof.
  unfold clear_timers. revert ts. induction ps as [|p ps IH]; intros ts Hnd; [exact Hnd|].
  cbn [foldl]. apply IH. apply keys_delete_NoDup. exact Hnd.
Qed.

Lemma get_clear_timers_in (ps : list Pending) (ts : list (N * RpcTimer)) (h : N) :
  NoDup (JsMap.keys ts) -> h ∈ timer <$> ps -> JsMap.get h (clear_timers ps ts) = None.
Proof.
  unfold clear_timers. revert ts. induction ps as [|p ps IH]; intros ts Hnd Hin.
  - rewrite fmap_nil in Hin. apply elem_of_nil in Hin. contradiction.
  - cbn [foldl]. rewrite fmap_cons in Hin.
    destruct (decide (h = timer p)) as [->|Hne].
    + apply get_None_keys. intros Hk.
      apply (clear_timers_keys ps (JsMap.delete (timer p) ts)) in Hk.
      apply get_None_keys in Hk; [exact Hk|]. apply get_delete_eq. exact Hnd.
    + apply elem_of_cons in Hin as [?|Hin]; [contradiction|].
      apply IH; [apply keys_delete_NoDup; exact Hnd|exact Hin].
Qed.

Lemma get_clear_timers_Some (ps : list Pending) (ts : list (N * RpcTimer)) (h : N) t :
  NoDup (JsMap.keys ts) -> JsMap.get h (clear_timers ps ts) = Some t -> JsMap.get h ts = Some t.
Proof.
  unfold clear_timers. revert ts. induction ps as [|p ps IH]; intros ts Hnd Hg; [exact Hg|].
  cbn [foldl] in Hg. apply IH in Hg; [|apply keys_delete_NoDup; exact Hnd].
  apply get_delete_Some in Hg; [|exact Hnd]. apply Hg.
Qed.

(** *** The invariant holds of every reachable socket *)

Lemma wf_ext (s s' : PerplexitySocket) :
  nextAckId s' = nextAckId s -> pendingAcks s' = pendingAcks s ->
  timers s' = timers s -> promises s' = promises s -> wf s -> wf s'.
Proof.
  intros Hn Hp Ht Hr [H1 H2 H3 H4 H5 H6 H7].
  constructor; rewrite ?Hn, ?Hp, ?Ht, ?Hr; assumption.
Qed.

Lemma wf_new_socket : wf new_socket.
Proof.
  constructor; cbn.
  - apply NoDup_nil_2.
  - apply NoDup_nil_2.
  - intros k p H. discriminate H.
  - intros h t H. discriminate H.
  - intros k. split; intros [x H]; discriminate H.
  - intros k [x H]. discriminate H.
  - intros k _. split; reflexivity.
Qed.

Lemma wf_emitWithAck (s : PerplexitySocket) event data timeoutMs :
  wf s -> wf (emitWithAck s event data timeoutMs).1.
Proof.
  intros [H1 H2 H3 H4 H5 H6 H7]. unfold emitWithAck. cbn [fst].
  constructor; cbn [nextAckId pendingAcks timers promises].
  - apply keys_set_NoDup. exact H1.
  - apply keys_set_NoDup. exact H2.
  - intros k p. destruct (decide (k = nextAckId s)) as [->|Hne].
    + rewrite get_set_eq. intros [= <-]. split; reflexivity.
    + rewrite get_set_ne by exact Hne. apply H3.
  - intros h t. destruct (decide (h = nextAckId s)) as [->|Hne].
    + rewrite get_set_eq. intros [= <-]. reflexivity.
    + rewrite get_set_ne by exact Hne. apply H4.
  - intros k. destruct (decide (k = nextAckId s)) as [->|Hne].
    + rewrite !get_set_eq. split; intros _; eexists; reflexivity.
    + rewrite !get_set_ne by exact Hne. apply H5.
  - intros k. destruct (decide (k = nextAckId s)) as [->|Hne].
    + intros _. apply (H7 (nextAckId s)). lia.
    + rewrite get_set_ne by exact Hne. apply H6.
  - intros k Hk. assert (Hne : k <> nextAckId s) by lia.
    rewrite get_set_ne by exact Hne. apply H7. lia.
Qed.

(** One pending call leaves the table: its timer is disarmed (or has fired)
    and its promise is settled. *)
Lemma wf_remove (s s' : PerplexitySocket) (k : N) (o : Settled) :
  wf s -> is_Some (JsMap.get k (pendingAcks s)) ->
  nextAckId s' = nextAckId s ->
  pendingAcks s' = JsMap.delete k (pendingAcks s) ->
  timers s' = JsMap.delete k (timers s) ->
  promises s' = settle k o (promises s) ->
  wf s'.
Proof.
  intros [H1 H2 H3 H4 H5 H6 H7] Hk Hn Hp Ht Hr.
  constructor; rewrite ?Hn, ?Hp, ?Ht, ?Hr.
  - apply keys_delete_NoDup. exact H1.
  - apply keys_delete_NoDup. exact H2.
  - intros j p Hj. apply get_delete_Some in Hj as [_ Hj]; [|exact H1]. exact (H3 _ _ Hj).
  - intros h t Hh. apply get_delete_Some in Hh as [_ Hh]; [|exact H2]. exact (H4 _ _ Hh).
  - intros j. destruct (decide (j = k)) as [->|Hne].
    + rewrite !get_delete_eq by assumption. split; intros [x Hx]; discriminate Hx.
    + rewrite !get_delete_ne by exact Hne. apply H5.
  - intros j [p Hj]. apply get_delete_Some in Hj as [Hne Hj]; [|exact H1].
    rewrite get_settle_ne by exact Hne. apply H6. eexists. exact Hj.
  - intros j Hj. destruct (H7 j Hj) as [Hjp Hjr]. split.
    + apply get_delete_None. exact Hjp.
    + assert (Hne : j <> k).
      { intros ->. destruct Hk as [x Hx]. rewrite Hx in Hjp. discriminate Hjp. }
      rewrite get_settle_ne by exact Hne. exact Hjr.
Qed.

Lemma wf_timer_fires (s : PerplexitySocket) (h : N) : wf s -> wf (timer_fires s h).
Proof.
  intros Hwf. unfold timer_fires. destruct (JsMap.get h (timers s)) as [t|] eqn:Ht; [|exact Hwf].
  pose proof (wf_timer s Hwf h t Ht) as Hid.
  eapply (wf_remove s _ h); [exact Hwf| |reflexivity| | |].
  - apply (wf_armed s Hwf). eexists. exact Ht.
  - cbn [pendingAcks]. rewrite Hid. reflexivity.
  - reflexivity.
  - cbn [promises]. rewrite Hid. reflexivity.
Qed.

Lemma pending_values (s : PerplexitySocket) (k : N) :
  wf s -> is_Some (JsMap.get k (pendingAcks s)) ->
  k ∈ promise <$> JsMap.values (pendingAcks s)
  /\ k ∈ timer <$> JsMap.values (pendingAcks s).
Proof.
  intros Hwf [p Hp]. destruct (wf_pending s Hwf k p Hp) as [Hpr Hti].
  apply get_Some_elem in Hp.
  assert (Hin : p ∈ JsMap.values (pendingAcks s)).
  { unfold JsMap.values. apply list_elem_of_fmap. exists (k, p). split; [reflexivity|exact Hp]. }
  split; apply list_elem_of_fmap; exists p; (split; [congruence|exact Hin]).
Qed.

Lemma values_pending (s : PerplexitySocket) (k : N) :
  wf s -> k ∈ promise <$> JsMap.values (pendingAcks s) ->
  is_Some (JsMap.get k (pendingAcks s)).
Proof.
  intros Hwf Hin. apply list_elem_of_fmap in Hin as (p & -> & Hin).
  unfold JsMap.values in Hin. apply list_elem_of_fmap in Hin as ([j q] & -> & Hin).
  cbn [snd]. pose proof (elem_get_NoDup _ _ _ (wf_pending_keys s Hwf) Hin) as Hg.
  destruct (wf_pending s Hwf j q Hg) as [-> _]. eexists. exact Hg.
Qed.

Lemma wf_reject_clear (s : PerplexitySocket) : wf s -> wf (clear_pending (reject_all s)).
Proof.
  intros Hwf. destruct (reject_all_fields s) as (Hn & _ & _ & _ & _ & Ht & Hr & _ & _).
  cbv zeta in *.
  constructor; unfold clear_pending; cbn [nextAckId pendingAcks timers promises];
    rewrite ?Hn, ?Ht, ?Hr.
  - apply NoDup_nil_2.
  - apply clear_timers_NoDup. exact (wf_timer_keys s Hwf).
  - intros k p H. discriminate H.
  - intros h t Hh. apply get_clear_timers_Some in Hh; [|exact (wf_timer_keys s Hwf)].
    exact (wf_timer s Hwf h t Hh).
  - intros k. split; [|intros [x Hx]; discriminate Hx].
    intros [t Hk]. exfalso.
    pose proof (get_clear_timers_Some _ _ _ _ (wf_timer_keys s Hwf) Hk) as Hts.
    assert (Hpend : is_Some (JsMap.get k (pendingAcks s)))
      by (apply (wf_armed s Hwf); eexists; exact Hts).
    destruct (pending_values s k Hwf Hpend) as [_ Hin].
    rewrite (get_clear_timers_in _ _ _ (wf_timer_keys s Hwf) Hin) in Hk. discriminate Hk.
  - intros k [x Hx]. discriminate Hx.
  - intros k Hk. split; [reflexivity|].
    destruct (wf_fresh s Hwf k Hk) as [Hkp Hkr].
    rewrite get_reject_promises_notin; [exact Hkr|].
    intros Hin. apply (values_pending s k Hwf) in Hin as [x Hx].
    rewrite Hx in Hkp. discriminate Hkp.
Qed.

Section Reachable.
Variable JSON_parse : string -> option value.
Variable auth : option value.

Lemma wf_rpc_onmessage (s : PerplexitySocket) (data : string) :
  wf s -> wf (rpc_onmessage JSON_parse s data).
Proof.
  intros Hwf. unfold rpc_onmessage.
  destruct (String.eqb data "2"); [revert Hwf; apply wf_ext; reflexivity|].
  destruct (negb (startsWith data "43")); [exact Hwf|].
  destruct (match_ack data) as [[ackId body]|]; [|exact Hwf].
  destruct (JsMap.get ackId (pendingAcks s)) as [p|] eqn:Hp; [|exact Hwf].
  destruct (wf_pending s Hwf ackId p Hp) as [Hpr Hti].
  eapply (wf_remove s _ ackId); [exact Hwf| |reflexivity|reflexivity| |].
  - eexists. exact Hp.
  - cbn [timers]. rewrite Hti. reflexivity.
  - cbn [promises]. rewrite Hpr. reflexivity.
Qed.

Lemma wf_handshake_onmessage (s : PerplexitySocket) (data : string) :
  wf s -> wf (handshake_onmessage auth s data).
Proof.
  unfold handshake_onmessage.
  repeat match goal with |- context [if ?b then _ else _] => destruct b end;
    try (intros H; exact H); apply wf_ext; reflexivity.
Qed.

Lemma wf_step (s : PerplexitySocket) (i : Input) :
  wf s -> wf (step JSON_parse auth s i).
Proof.
  intros Hwf. destruct i; cbn [step].
  - apply wf_emitWithAck. exact Hwf.
  - unfold close. apply (wf_ext (clear_pending (reject_all s))); try reflexivity.
    apply wf_reject_clear. exact Hwf.
  - unfold onmessage. destruct (phase s =? 2)%N.
    + apply wf_rpc_onmessage. exact Hwf.
    + apply wf_handshake_onmessage. exact Hwf.
  - unfold onclose. destruct (phase s =? 2)%N.
    + apply wf_reject_clear. exact Hwf.
    + revert Hwf. apply wf_ext; reflexivity.
  - revert Hwf. apply wf_ext; reflexivity.
  - apply wf_timer_fires. exact Hwf.
  - unfold connect_timer_fires. destruct (connect_timer s); [|exact Hwf].
    revert Hwf. apply wf_ext; reflexivity.
Qed.

Lemma wf_run (s : PerplexitySocket) (inputs : list Input) :
  wf s -> wf (run JSON_parse auth s inputs).
Proof.
  unfold run. revert s. induction inputs as [|i inputs IH]; intros s Hwf; [exact Hwf|].
  cbn [foldl]. apply IH. apply wf_step. exact Hwf.
Qed.

End Reachable.

(** *** Ids are never reused *)

Section Monotone.
Variable JSON_parse : string -> option value.
Variable auth : option value.

Lemma nextAckId_step (s : PerplexitySocket) (i : Input) :
  (nextAckId s <= nextAckId (step JSON_parse auth s i))%N.
Proof.
  destruct i; cbn [step].
  - cbn. lia.
  - unfold close, clear_pending. cbn [nextAckId].
    destruct (reject_all_fields s) as (-> & _). reflexivity.
  - unfold onmessage, rpc_onmessage, handshake_onmessage, send.
    repeat match goal with
           | |- context [if ?b then _ else _] => destruct b
           | |- context [match ?o with Some _ => _ | None => _ end] => destruct o
           | |- context [let '(_, _) := ?p in _] => destruct p
           end; cbn [nextAckId]; reflexivity.
  - unfold onclose, clear_pending. destruct (phase s =? 2)%N; cbn [nextAckId].
    + destruct (reject_all_fields s) as (-> & _). reflexivity.
    + reflexivity.
  - reflexivity.
  - unfold timer_fires. destruct (JsMap.get handle (timers s)); reflexivity.
  - unfold connect_timer_fires. destruct (connect_timer s); reflexivity.
Qed.

(** A pending entry or an armed timer of an id already handed out was there
    before the step. *)
Lemma pending_step_back (s : PerplexitySocket) (i : Input) (k : N) p :
  wf s -> (k < nextAckId s)%N ->
  JsMap.get k (pendingAcks (step JSON_parse auth s i)) = Some p ->
  JsMap.get k (pendingAcks s) = Some p.
Proof.
  intros Hwf Hk. destruct i; cbn [step].
  - cbn. rewrite get_set_ne by lia. intros H; exact H.
  - unfold close, clear_pending. cbn. discriminate.
  - unfold onmessage, rpc_onmessage, handshake_onmessage, send.
    repeat match goal with
           | |- context [if ?b then _ else _] => destruct b
           | |- context [match ?o with Some _ => _ | None => _ end] => destruct o
           | |- context [let '(_, _) := ?p in _] => destruct p
           end; cbn [pendingAcks]; try (intros H; exact H).
    all: intros H; apply get_delete_Some in H; [apply H|exact (wf_pending_keys s Hwf)].
  - unfold onclose, clear_pending. destruct (phase s =? 2)%N; cbn [pendingAcks].
    + cbn. discriminate.
    + intros H; exact H.
  - intros H; exact H.
  - unfold timer_fires. destruct (JsMap.get handle (timers s)); cbn [pendingAcks].
    + intros H. apply get_delete_Some in H; [apply H|exact (wf_pending_keys s Hwf)].
    + intros H; exact H.
  - unfold connect_timer_fires. destruct (connect_timer s); intros H; exact H.
Qed.

Lemma timers_step_back (s : PerplexitySocket) (i : Input) (h : N) t :
  wf s -> (h < nextAckId s)%N ->
  JsMap.get h (timers (step JSON_parse auth s i)) = Some t ->
  JsMap.get h (timers s) = Some t.
Proof.
  intros Hwf Hk. destruct i; cbn [step].
  - cbn. rewrite get_set_ne by lia. intros H; exact H.
  - unfold close, clear_pending. cbn [timers].
    destruct (reject_all_fields s) as (_ & _ & _ & _ & _ & -> & _).
    apply get_clear_timers_Some. exact (wf_timer_keys s Hwf).
  - unfold onmessage, rpc_onmessage, handshake_onmessage, send.
    repeat match goal with
           | |- context [if ?b then _ else _] => destruct b
           | |- context [match ?o with Some _ => _ | None => _ end] => destruct o
           | |- context [let '(_, _) := ?p in _] => destruct p
           end; cbn [timers]; try (intros H; exact H).
    all: intros H; apply get_delete_Some in H; [apply H|exact (wf_timer_keys s Hwf)].
  - unfold onclose, clear_pending. destruct (phase s =? 2)%N; cbn [timers].
    + destruct (reject_all_fields s) as (_ & _ & _ & _ & _ & -> & _).
      apply get_clear_timers_Some. exact (wf_timer_keys s Hwf).
    + intros H; exact H.
  - intros H; exact H.
  - unfold timer_fires. destruct (JsMap.get handle (timers s)); cbn [timers].
    + intros H. apply get_delete_Some in H; [apply H|exact (wf_timer_keys s Hwf)].
    + intros H; exact H.
  - unfold connect_timer_fires. destruct (connect_timer s); intros H; exact H.
Qed.

Lemma run_back (s : PerplexitySocket) (inputs : list Input) (k : N) :
  wf s -> (k < nextAckId s)%N ->
  (k < nextAckId (run JSON_parse auth s inputs))%N
  /\ (forall p, JsMap.get k (pendingAcks (run JSON_parse auth s inputs)) = Some p ->
                JsMap.get k (pendingAcks s) = Some p)
  /\ (forall t, JsMap.get k (timers (run JSON_parse auth s inputs)) = Some t ->
                JsMap.get k (timers s) = Some t).
Proof.
  unfold run. revert s. induction inputs as [|i inputs IH]; intros s Hwf Hk.
  - split; [exact Hk|]. split; intros ? H; exact H.
  - cbn [foldl].
    assert (Hk' : (k < nextAckId (step JSON_parse auth s i))%N)
      by (pose proof (nextAckId_step s i); lia).
    destruct (IH _ (wf_step JSON_parse auth s i Hwf) Hk') as (H1 & H2 & H3).
    split; [exact H1|]. split.
    + intros p Hp. eapply pending_step_back; [exact Hwf|exact Hk|]. apply H2. exact Hp.
    + intros t Ht. eapply timers_step_back; [exact Hwf|exact Hk|]. apply H3. exact Ht.
Qed.

Lemma match_ack_inv (frame body : string) (k : N) :
  match_ack frame = Some (k, body) ->
  exists c rest, frame = String "4" (String "3" (String c rest)).
Proof.
  unfold match_ack. destruct frame as [|c1 fr]; [discriminate|].
  destruct c1 as [[] [] [] [] [] [] [] []]; try discriminate.
  destruct fr as [|c2 fr]; [discriminate|].
  destruct c2 as [[] [] [] [] [] [] [] []]; try discriminate.
  destruct fr as [|c3 rest]; [discriminate|].
  intros _. eexists _, _. reflexivity.
Qed.

(** An ack frame for an id that is not pending changes nothing, in either
    phase. *)
Lemma onmessage_ack_not_pending (s : PerplexitySocket) (frame body : string) (k : N) :
  match_ack frame = Some (k, body) -> JsMap.get k (pendingAcks s) = None ->
  onmessage JSON_parse auth s frame = s.
Proof.
  intros Hm Hn. unfold onmessage. destruct (phase s =? 2)%N.
  - unfold rpc_onmessage. rewrite Hm, Hn.
    destruct (String.eqb frame "2") eqn:E2.
    + apply String.eqb_eq in E2. subst frame. discriminate Hm.
    + destruct (negb (startsWith frame "43")); reflexivity.
  - destruct (match_ack_inv frame body k Hm) as (c & rest & ->). reflexivity.
Qed.

End Monotone.

Section Claims.
Variable JSON_parse : string -> option value.
Variable auth : option value.

(** C8: [emitWithAck] registers a pending call and arms its timer (30 s by
    default); if the timer is still armed when it fires, that is, no ack,
    timeout or close took the call before, the pending entry is removed and
    the promise is rejected with the timeout error; from then on an ack frame
    carrying that id changes nothing. *)
Theorem emitWithAck_timeout_removes_pending
  (inputs : list Input) (event : string) (data : value) (timeoutMs : option Z)
  (later : list Input) :
  let s0 := run JSON_parse auth new_socket inputs in
  let s1 := (emitWithAck s0 event data timeoutMs).1 in
  let ackId := (emitWithAck s0 event data timeoutMs).2 in
  let s2 := run JSON_parse auth s1 later in
  let s3 := timer_fires s2 ackId in
  JsMap.get ackId (timers s1)
  = Some {| timer_ackId := ackId; timer_event := event;
            timer_ms := default RPC_TIMEOUT_MS timeoutMs |}
  /\ RPC_TIMEOUT_MS = 30000%Z
  /\ JsMap.get ackId (pendingAcks s1) = Some {| promise := ackId; timer := ackId |}
  /\ JsMap.get ackId (promises s1) = None
  /\ (is_Some (JsMap.get ackId (timers s2)) ->
      JsMap.get ackId (pendingAcks s3) = None
      /\ JsMap.get ackId (timers s3) = None
      /\ JsMap.get ackId (promises s3) = Some (Rejected (RpcTimeout event))
      /\ forall (more : list Input) (frame body : string),
           match_ack frame = Some (ackId, body) ->
           onmessage JSON_parse auth (run JSON_parse auth s3 more) frame
           = run JSON_parse auth s3 more).
Proof.
  intros s0 s1 ackId s2 s3.
  assert (Hwf0 : wf s0) by (apply wf_run, wf_new_socket).
  assert (Hwf1 : wf s1) by (apply wf_emitWithAck; exact Hwf0).
  assert (Hwf2 : wf s2) by (apply wf_run; exact Hwf1).
  assert (Hlt : (ackId < nextAckId s1)%N) by (subst s1 ackId; cbn; lia).
  assert (Ht1 : JsMap.get ackId (timers s1)
                = Some {| timer_ackId := ackId; timer_event := event;
                          timer_ms := default RPC_TIMEOUT_MS timeoutMs |})
    by (subst s1 ackId; cbn [emitWithAck fst snd timers]; apply get_set_eq).
  split; [exact Ht1|]. split; [reflexivity|]. split; [|split].
  - subst s1 ackId. cbn [emitWithAck fst snd pendingAcks]. apply get_set_eq.
  - subst s1 ackId. cbn [emitWithAck fst snd promises]. apply (wf_fresh s0 Hwf0). lia.
  - intros [t Ht2].
    destruct (run_back JSON_parse auth s1 later ackId Hwf1 Hlt) as (Hlt2 & _ & Hback).
    pose proof (Hback t Ht2) as Ht. rewrite Ht1 in Ht. injection Ht as <-.
    assert (Hpend : is_Some (JsMap.get ackId (pendingAcks s2)))
      by (apply (wf_armed s2 Hwf2); eexists; exact Ht2).
    assert (Hwf3 : wf s3) by (apply wf_timer_fires; exact Hwf2).
    assert (Hp3 : JsMap.get ackId (pendingAcks s3) = None).
    { subst s3. unfold timer_fires. rewrite Ht2. cbn [pendingAcks timer_ackId].
      apply get_delete_eq. exact (wf_pending_keys s2 Hwf2). }
    split; [exact Hp3|]. split; [|split].
    + subst s3. unfold timer_fires. rewrite Ht2. cbn [timers].
      apply get_delete_eq. exact (wf_timer_keys s2 Hwf2).
    + subst s3. unfold timer_fires. rewrite Ht2. cbn [promises timer_ackId timer_event].
      apply get_settle_eq. apply (wf_unsettled s2 Hwf2). exact Hpend.
    + intros more frame body Hm.
      apply (onmessage_ack_not_pending JSON_parse auth _ frame body ackId Hm).
      assert (Hlt3 : (ackId < nextAckId s3)%N).
      { subst s3. unfold timer_fires. rewrite Ht2. exact Hlt2. }
      destruct (run_back JSON_parse auth s3 more ackId Hwf3 Hlt3) as (_ & Hpback & _).
      destruct (JsMap.get ackId (pendingAcks (run JSON_parse auth s3 more))) as [p|] eqn:E;
        [|reflexivity].
      rewrite (Hpback p eq_refl) in Hp3. discriminate Hp3.
Qed.

Lemma reject_clear_all_pending_rejected (s : PerplexitySocket) :
  wf s -> all_pending_rejected s (clear_pending (reject_all s)).
Proof.
  intros Hwf. pose proof (wf_reject_clear s Hwf) as Hwf'.
  destruct (reject_all_fields s) as (_ & _ & _ & _ & _ & _ & Hr & _ & _). cbv zeta in Hr.
  split; [reflexivity|]. split; [|split].
  - intros k Hk. unfold clear_pending. cbn [promises]. rewrite Hr.
    apply get_reject_promises_in.
    + apply (pending_values s k Hwf Hk).
    + apply (wf_unsettled s Hwf). exact Hk.
  - intros h. destruct (JsMap.get h (timers (clear_pending (reject_all s)))) as [t|] eqn:E;
      [|reflexivity].
    assert (Hs : is_Some (JsMap.get h (pendingAcks (clear_pending (reject_all s)))))
      by (apply (wf_armed _ Hwf'); eexists; exact E).
    destruct Hs as [x Hx]. discriminate Hx.
  - intros k r Hk. unfold clear_pending. cbn [promises]. rewrite Hr.
    apply get_reject_promises_settled. exact Hk.
Qed.

(** C9: once the RPC handler is installed, a socket close rejects every
    pending call with the closed-connection error, leaves no timer armed and
    empties the table, and so does [close()] in any state, which also closes
    the socket; promises settled before keep their outcome; [close()] a
    second time changes nothing, and on a socket that never connected it
    only closes the socket.  With two calls pending, both are rejected. *)
Theorem close_rejects_every_pending_call (inputs : list Input) :
  let s := run JSON_parse auth new_socket inputs in
  (phase s = 2%N -> all_pending_rejected s (onclose s))
  /\ all_pending_rejected s (close s)
  /\ ws_closed (close s) = true
  /\ close (close s) = close s
  /\ close new_socket
     = {| nextAckId := 0; pendingAcks := []; phase := 0; connect_timer := true;
          ready := None; timers := []; promises := []; sent := []; ws_closed := true |}
  /\ (let s2 := run JSON_parse auth new_socket two_pending_inputs in
      JsMap.keys (pendingAcks s2) = [0%N; 1%N]
      /\ promises s2 = []
      /\ promises (onclose s2) = [(0%N, Rejected SocketClosed); (1%N, Rejected SocketClosed)]
      /\ promises (close s2) = [(0%N, Rejected SocketClosed); (1%N, Rejected SocketClosed)]
      /\ timers (onclose s2) = [] /\ timers (close s2) = []).
Proof.
  intros s. assert (Hwf : wf s) by (apply wf_run, wf_new_socket).
  split; [|split; [|split; [|split; [|split]]]].
  - intros Hphase. unfold onclose. rewrite Hphase. cbn [N.eqb Pos.eqb].
    apply reject_clear_all_pending_rejected. exact Hwf.
  - exact (reject_clear_all_pending_rejected s Hwf).
  - reflexivity.
  - reflexivity.
  - reflexivity.
  - vm_compute. repeat split.
Qed.

End Claims.

(** A call after the handshake: left unanswered it times out, and the late
    ack changes nothing; answered in time it resolves with the first element
    of the ack's array. *)
Example refreshJWT_timeline :
  let s := run Json.JSON_parse None new_socket
             [WsMessage "0{}"; WsMessage "40"; WsMessage "2";
              CallEmitWithAck "refreshJWT" VNull None] in
  let timed_out := timer_fires s 0 in
  ready s = Some (Resolved None)
  /\ sent s = [Join None; Pong; Event 0 "refreshJWT" VNull]
  /\ JsMap.keys (pendingAcks s) = [0%N]
  /\ pendingAcks timed_out = []
  /\ promises timed_out = [(0%N, Rejected (RpcTimeout "refreshJWT"))]
  /\ onmessage Json.JSON_parse None timed_out "430[1]" = timed_out
  /\ promises (onmessage Json.JSON_parse None s "430[1]") = [(0%N, Resolved (Some (VNum 1)))]
  /\ pendingAcks (onmessage Json.JSON_parse None s "430[1]") = [].
Proof. vm_compute. repeat split. Qed.

(** After the handshake a call is left unanswered: its timer is armed, and
    its firing rejects the call and makes a late ack a no-op. *)
Lemma emitWithAck_timeout_removes_pending_witness :
  is_Some (JsMap.get 0%N
             (timers (emitWithAck (run Json.JSON_parse None new_socket
                                       [WsMessage "0{}"; WsMessage "40"])
                                  "refreshJWT" VNull None).1))
  /\ JsMap.get 0%N
       (promises (timer_fires
                    (emitWithAck (run Json.JSON_parse None new_socket
                                      [WsMessage "0{}"; WsMessage "40"])
                                 "refreshJWT" VNull None).1 0%N))
     = Some (Rejected (RpcTimeout "refreshJWT"))
  /\ JsMap.get 0%N
       (pendingAcks (timer_fires
                       (emitWithAck (run Json.JSON_parse None new_socket
                                         [WsMessage "0{}"; WsMessage "40"])
                                    "refreshJWT" VNull None).1 0%N))
     = None.
Proof.
  pose proof (emitWithAck_timeout_removes_pending Json.JSON_parse None
                [WsMessage "0{}"; WsMessage "40"] "refreshJWT" VNull None [])
    as (Harmed & _ & _ & _ & Hfire).
  assert (Hsome : is_Some (JsMap.get 0%N
             (timers (emitWithAck (run Json.JSON_parse None new_socket
                                       [WsMessage "0{}"; WsMessage "40"])
                                  "refreshJWT" VNull None).1)))
    by (eexists; exact Harmed).
  split; [exact Hsome|].
  destruct (Hfire Hsome) as (Hpending & _ & Hpromise & _).
  split; [exact Hpromise|exact Hpending].
Defined.

(** With two calls pending after the handshake, a socket close rejects
    both. *)
Lemma close_rejects_every_pending_call_witness :
  phase (run Json.JSON_parse None new_socket two_pending_inputs) = 2%N
  /\ all_pending_rejected (run Json.JSON_parse None new_socket two_pending_inputs)
       (onclose (run Json.JSON_parse None new_socket two_pending_inputs)).
Proof.
  assert (Hphase : phase (run Json.JSON_parse None new_socket two_pending_inputs) = 2%N)
    by reflexivity.
  split; [exact Hphase|].
  destruct (close_rejects_every_pending_call Json.JSON_parse None two_pending_inputs)
    as (Hclose & _).
  exact (Hclose Hphase).
Defined.

End SocketFacts.
(** * Further properties *)

(** ** Strings *)

Lemma append_assoc (a b c : string) : (a +:+ b) +:+ c = a +:+ (b +:+ c).
Proof.
  induction a as [|x a IH]; [reflexivity|].
  change (String x ((a +:+ b) +:+ c) = String x (a +:+ (b +:+ c))). f_equal. exact IH.
Qed.

Lemma append_nil_r (a : string) : a +:+ "" = a.
Proof.
  induction a as [|x a IH]; [reflexivity|].
  change (String x (a +:+ "") = String x a). f_equal. exact IH.
Qed.

Lemma startsWith_refl (s : string) : startsWith s s = true.
Proof. rewrite <- (append_nil_r s) at 1. apply startsWith_app. Qed.

Lemma slice_from_all (s : string) : slice_from (String.length s) s = "".
Proof. rewrite <- (append_nil_r s) at 2. apply slice_from_app. Qed.

Lemma trim_end_cons (c : ascii) (s : string) :
  trim_end (String c s)
  = match trim_end s with
    | EmptyString => if is_space c then EmptyString else String c EmptyString
    | t => String c t
    end.
Proof. reflexivity. Qed.

Lemma trim_end_idem (s : string) : trim_end (trim_end s) = trim_end s.
Proof.
  induction s as [|c s IH]; [reflexivity|].
  rewrite trim_end_cons. destruct (trim_end s) as [|d t] eqn:E.
  - destruct (is_space c) eqn:Hc; [reflexivity|].
    rewrite trim_end_cons. cbn [trim_end]. rewrite Hc. reflexivity.
  - rewrite trim_end_cons, IH. reflexivity.
Qed.

Lemma trim_start_head (s : string) :
  trim_start s = "" \/ exists c t, trim_start s = String c t /\ is_space c = false.
Proof.
  induction s as [|c s IH]; [left; reflexivity|].
  cbn [trim_start]. destruct (is_space c) eqn:Hc; [exact IH|].
  right. exists c, s. split; [reflexivity|exact Hc].
Qed.

Lemma trim_end_head (c : ascii) (s : string) :
  is_space c = false -> exists t, trim_end (String c s) = String c t.
Proof.
  intros Hc. rewrite trim_end_cons. destruct (trim_end s) as [|d t].
  - rewrite Hc. eexists. reflexivity.
  - eexists. reflexivity.
Qed.

Lemma trim_start_fixed (c : ascii) (s : string) :
  is_space c = false -> trim_start (String c s) = String c s.
Proof. intros Hc. cbn [trim_start]. rewrite Hc. reflexivity. Qed.

Lemma trim_idem (s : string) : trim (trim s) = trim s.
Proof.
  unfold trim. destruct (trim_start_head s) as [->|(c & t & -> & Hc)]; [reflexivity|].
  destruct (trim_end_head c t Hc) as [t' Ht]. rewrite Ht.
  rewrite (trim_start_fixed c t' Hc). rewrite <- Ht. apply trim_end_idem.
Qed.

(** White space after a text that ends in none is trimmed off the whole. *)
Lemma trim_end_app (p s : string) :
  trim_end p = p -> trim_end (p +:+ s) = p +:+ trim_end s.
Proof.
  induction p as [|c p IH]; intros Hp; [reflexivity|].
  change (String c p +:+ s) with (String c (p +:+ s)).
  change (String c p +:+ trim_end s) with (String c (p +:+ trim_end s)).
  rewrite trim_end_cons in Hp |- *.
  destruct (trim_end p) as [|d t] eqn:E.
  - destruct (is_space c) eqn:Hc; [discriminate Hp|].
    injection Hp as <-.
    change ("" +:+ s) with s. change ("" +:+ trim_end s) with (trim_end s).
    destruct (trim_end s); reflexivity.
  - injection Hp as Hp. rewrite IH by exact Hp. rewrite <- Hp.
    reflexivity.
Qed.

Lemma trim_fixed_end (t : string) : trim t = t -> trim_end t = t.
Proof. intros H. rewrite <- H. unfold trim. apply trim_end_idem. Qed.

Lemma includes_cons (c : ascii) (s sub : string) :
  includes s sub = true -> includes (String c s) sub = true.
Proof. intros H. cbn [includes]. rewrite H. apply orb_true_r. Qed.

Lemma includes_app_l (p s sub : string) :
  includes s sub = true -> includes (p +:+ s) sub = true.
Proof.
  intros H. induction p as [|c p IH]; [exact H|].
  change (String c p +:+ s) with (String c (p +:+ s)). apply includes_cons. exact IH.
Qed.

Lemma includes_prefix (sub t : string) : includes (sub +:+ t) sub = true.
Proof.
  destruct (sub +:+ t) eqn:E; cbn [includes]; rewrite <- E, startsWith_app; reflexivity.
Qed.

(** A text that holds [p +:+ sub] holds [sub]. *)
Lemma includes_longer (t p sub : string) :
  includes t (p +:+ sub) = true -> includes t sub = true.
Proof.
  assert (Hstart : forall t, startsWith t (p +:+ sub) = true -> includes t sub = true).
  { intros t0 H. apply startsWith_slice_from in H. rewrite <- H, append_assoc.
    apply includes_app_l, includes_prefix. }
  induction t as [|c t IH]; cbn [includes]; intros H.
  - rewrite orb_false_r in H. apply (Hstart "") in H. exact H.
  - apply orb_true_iff in H as [H|H].
    + apply (Hstart (String c t)) in H. exact H.
    + apply includes_cons. apply IH. exact H.
Qed.


(** ** Order and untouched entries of the insertion-ordered map *)

Section JsMapOrder.
Context {K V : Type} `{EqDecision K}.
Implicit Types (m : list (K * V)) (k : K) (v : V).

(** [set] leaves the entries of the other keys where they are. *)
Lemma set_lookup_other m k v (i : nat) k' v' :
  m !! i = Some (k', v') -> k <> k' -> JsMap.set k v m !! i = Some (k', v').
Proof.
  revert i. induction m as [|[k0 v0] m IH]; intros i Hi Hne; [discriminate Hi|].
  cbn [JsMap.set]. destruct (decide (k = k0)) as [->|Hk0].
  - destruct i as [|i]; cbn in Hi |- *; [congruence|exact Hi].
  - destruct i as [|i]; cbn in Hi |- *; [exact Hi|]. apply IH; assumption.
Qed.

Lemma set_length m k v :
  length m <= length (JsMap.set k v m) <= S (length m).
Proof.
  induction m as [|[k0 v0] m IH]; cbn [JsMap.set length]; [lia|].
  destruct (decide (k = k0)); cbn [length]; lia.
Qed.

Lemma set_fresh m k v : k ∉ JsMap.keys m -> JsMap.set k v m = m ++ [(k, v)].
Proof.
  unfold JsMap.keys. induction m as [|[k0 v0] m IH]; intros Hk; [reflexivity|].
  rewrite fmap_cons in Hk. cbn [fst] in Hk. apply not_elem_of_cons in Hk as [Hne Hk].
  cbn [JsMap.set]. destruct (decide (k = k0)); [congruence|].
  rewrite IH by exact Hk. reflexivity.
Qed.

(** A list of entries with distinct keys is its own map. *)
Lemma of_entries_NoDup (l : list (K * V)) : NoDup l.*1 -> JsMap.of_entries l = l.
Proof.
  unfold JsMap.of_entries.
  assert (Hgen : forall m0, NoDup (m0 ++ l).*1 ->
            foldl (fun m kv => JsMap.set kv.1 kv.2 m) m0 l = m0 ++ l).
  { induction l as [|[k v] l IH]; intros m0 Hnd.
    - rewrite app_nil_r. reflexivity.
    - cbn [foldl fst snd]. rewrite set_fresh.
      + rewrite IH; rewrite <- app_assoc; [reflexivity|exact Hnd].
      + rewrite fmap_app in Hnd. apply NoDup_app in Hnd as (_ & Hdisj & _).
        intros Hin. apply (Hdisj k Hin). rewrite fmap_cons. apply list_elem_of_here. }
  intros Hnd. apply (Hgen []). exact Hnd.
Qed.

End JsMapOrder.

(** ** More on the frame decoder, the merge engine and the accumulator *)

Section DecoderMore.
Variable JSON_parse : string -> option value.

(** Draining a queue in two parts. *)
Lemma drain_app (q1 q2 : list string) :
  drain JSON_parse (q1 ++ q2)
  = match failure (drain JSON_parse q1) with
    | Some _ => drain JSON_parse q1
    | None => {| emitted := emitted (drain JSON_parse q1) ++ emitted (drain JSON_parse q2);
                 failure := failure (drain JSON_parse q2) |}
    end.
Proof.
  induction q1 as [|raw q1 IH]; cbn [app drain].
  - destruct (drain JSON_parse q2). reflexivity.
  - destruct (on_payload JSON_parse raw); [exact IH| |reflexivity].
    rewrite IH. cbn [failure emitted].
    destruct (failure (drain JSON_parse q1)) eqn:E; [|reflexivity].
    rewrite <- E. reflexivity.
Qed.

Lemma parseEventStream_flat (reads : list (list string)) :
  parseEventStream JSON_parse reads = drain JSON_parse (concat reads).
Proof.
  induction reads as [|q rs IH]; [reflexivity|].
  cbn [parseEventStream concat]. rewrite drain_app, IH.
  destruct (failure (drain JSON_parse q)); reflexivity.
Qed.

(** X1: the decoded sequence depends on the order of the payloads only, not
    on how the reader's chunks group them: decoding chunk by chunk is
    decoding the one queue of all payloads. *)
Theorem parseEventStream_chunking (reads : list (list string)) :
  parseEventStream JSON_parse reads = drain JSON_parse (concat reads)
  /\ (forall reads', concat reads' = concat reads ->
        parseEventStream JSON_parse reads' = parseEventStream JSON_parse reads).
Proof.
  split; [apply parseEventStream_flat|].
  intros reads' Heq. rewrite !parseEventStream_flat, Heq. reflexivity.
Qed.

(** What a payload must be to be yielded. *)
Lemma classic_obj (v : value) : (exists m, v = VObj m) \/ (forall m, v <> VObj m).
Proof. destruct v; try (right; intros m; discriminate). left. eexists. reflexivity. Qed.

Lemma on_payload_Yield_inv (raw : string) (v : value) :
  on_payload JSON_parse raw = Yield v ->
  JSON_parse (trim raw) = Some v /\ v <> VNull /\ declares_failure v = false.
Proof.
  intros H.
  assert (Hshape : trim raw <> "" /\ trim raw <> "[DONE]"
                   /\ exists parsed, JSON_parse (trim raw) = Some parsed).
  { unfold on_payload in H.
    destruct (String.eqb (trim raw) "") eqn:E1; [discriminate H|].
    destruct (String.eqb (trim raw) "[DONE]") eqn:E2; [discriminate H|].
    apply String.eqb_neq in E1. apply String.eqb_neq in E2.
    destruct (JSON_parse (trim raw)) as [parsed|]; [|discriminate H].
    split; [exact E1|]. split; [exact E2|]. exists parsed. reflexivity. }
  destruct Hshape as (Hne & Hnd & parsed & Hp).
  destruct (classic_obj parsed) as [[m ->]|Hno].
  - rewrite (on_payload_object JSON_parse raw m Hne Hnd Hp) in H. unfold declares_failure.
    destruct (is_string (m !! "status") "failed" || is_string (m !! "status") "FAILED") eqn:Es;
      [discriminate H|].
    destruct (truthy_prop (m !! "error_code")) eqn:Et; [discriminate H|].
    injection H as <-. split; [exact Hp|]. split; [discriminate|].
    rewrite Es, Et. reflexivity.
  - rewrite (on_payload_not_object JSON_parse raw parsed Hne Hnd Hp Hno) in H.
    destruct parsed as [| | | | |m]; try discriminate H;
      try (exfalso; apply (Hno m); reflexivity);
      injection H as <-; (split; [exact Hp|]; split; [discriminate|reflexivity]).
Qed.

Lemma drain_emitted (queue : list string) :
  Forall (fun v => exists raw, raw ∈ queue /\ on_payload JSON_parse raw = Yield v)
         (emitted (drain JSON_parse queue))
  /\ length (emitted (drain JSON_parse queue)) <= length queue.
Proof.
  induction queue as [|raw queue [IH1 IH2]]; cbn [drain].
  - split; [apply Forall_nil_2|reflexivity].
  - destruct (on_payload JSON_parse raw) eqn:E; cbn [emitted length].
    + split; [|lia]. eapply Forall_impl; [exact IH1|].
      intros v (r & Hr & Hy). exists r. split; [apply list_elem_of_further; exact Hr|exact Hy].
    + split; [|lia]. apply Forall_cons. split.
      * exists raw. split; [apply list_elem_of_here|exact E].
      * eapply Forall_impl; [exact IH1|].
        intros v (r & Hr & Hy). exists r. split; [apply list_elem_of_further; exact Hr|exact Hy].
    + split; [apply Forall_nil_2|lia].
Qed.

(** X2: every item the generator yields is the JSON value of one of the
    payloads, is not null and declares no failure (no failed status, no
    truthy error_code); there is at most one item per payload. *)
Theorem parseEventStream_emits_only_sound_payloads (reads : list (list string)) :
  Forall (fun v => v <> VNull /\ declares_failure v = false
                   /\ exists raw, raw ∈ concat reads /\ JSON_parse (trim raw) = Some v)
         (emitted (parseEventStream JSON_parse reads))
  /\ length (emitted (parseEventStream JSON_parse reads)) <= length (concat reads).
Proof.
  rewrite parseEventStream_flat. destruct (drain_emitted (concat reads)) as [H1 H2]. split; [|exact H2].
  eapply Forall_impl; [exact H1|]. intros v (raw & Hin & Hy).
  destruct (on_payload_Yield_inv raw v Hy) as (Hp & Hnn & Hdf).
  split; [exact Hnn|]. split; [exact Hdf|]. exists raw. split; assumption.
Qed.

End DecoderMore.

(** ** More on markdown merging *)

Lemma mergeMarkdownBlock_lookup_ne (existing incoming : obj) (f : string) :
  f <> "chunks" ->
  mergeMarkdownBlock (Some existing) incoming !! f = (incoming ∪ existing) !! f.
Proof.
  intros Hf. unfold mergeMarkdownBlock.
  destruct (chunks incoming) as [[|c cs]|]; try reflexivity.
  destruct (chunk_starting_offset incoming =? 0)%Z;
    rewrite lookup_insert_ne by congruence; reflexivity.
Qed.

Lemma union_absorb_l (incoming existing : obj) :
  incoming ∪ (incoming ∪ existing) = incoming ∪ existing.
Proof.
  apply map_eq. intros k. rewrite !lookup_union.
  destruct (incoming !! k), (existing !! k); reflexivity.
Qed.

Lemma union_insert_absorb_l (incoming existing : obj) (v : value) :
  <["chunks" := v]> (incoming ∪ <["chunks" := v]> (incoming ∪ existing))
  = <["chunks" := v]> (incoming ∪ existing).
Proof.
  apply map_eq. intros k. destruct (decide (k = "chunks")) as [->|Hk].
  - rewrite !lookup_insert_eq. reflexivity.
  - rewrite !lookup_insert_ne by congruence. rewrite !lookup_union.
    rewrite lookup_insert_ne by congruence. rewrite lookup_union.
    destruct (incoming !! k), (existing !! k); reflexivity.
Qed.

(** X3: merging the same markdown update a second time changes nothing,
    when the update carries no chunks or its offset lies within the chunks
    accumulated before it (0 included). *)
Theorem mergeMarkdownBlock_replay_is_harmless (existing incoming : obj) :
  chunks incoming = None \/ chunks incoming = Some []
  \/ (0 <= chunk_starting_offset incoming
           <= Z.of_nat (length (default [] (chunks existing))))%Z ->
  mergeMarkdownBlock (Some (mergeMarkdownBlock (Some existing) incoming)) incoming
  = mergeMarkdownBlock (Some existing) incoming.
Proof.
  intros H.
  destruct (chunks incoming) as [[|c cs]|] eqn:Hc.
  - rewrite !mergeMarkdownBlock_no_splice by (right; exact Hc). apply union_absorb_l.
  - destruct H as [H|[H|H]]; [discriminate H|discriminate H|].
    unfold mergeMarkdownBlock at 2. rewrite Hc.
    destruct (chunk_starting_offset incoming =? 0)%Z eqn:Ho.
    + unfold mergeMarkdownBlock. rewrite Hc, Ho. apply union_insert_absorb_l.
    + unfold mergeMarkdownBlock. rewrite Hc, Ho. rewrite chunks_insert.
      cbn [default].
      set (old := default [] (chunks existing)) in *.
      set (off := chunk_starting_offset incoming) in *.
      assert (Hkeep : slice_to (slice_to old off ++ c :: cs) off = slice_to old off).
      { rewrite !slice_to_nonneg by lia.
        rewrite take_app_le by (rewrite length_take; lia).
        rewrite take_take. f_equal. lia. }
      unfold id. rewrite Hkeep. apply union_insert_absorb_l.
  - rewrite !mergeMarkdownBlock_no_splice by (left; exact Hc). apply union_absorb_l.
Qed.

Lemma mergeMarkdownBlock_replay_is_harmless_witness :
  mergeMarkdownBlock (Some (mergeMarkdownBlock (Some chunks_abc) chunk_X_at_1)) chunk_X_at_1
  = mergeMarkdownBlock (Some chunks_abc) chunk_X_at_1.
Proof.
  apply mergeMarkdownBlock_replay_is_harmless. right. right. vm_compute.
  split; discriminate.
Defined.

(** X4: every field of a markdown payload other than [chunks] is merged
    shallowly, the incoming value winning; so once a block has a populated
    [answer], an update that sets none keeps it, and the block's text stays
    that answer whatever chunks the update splices in. *)
Theorem mergeMarkdownBlock_keeps_populated_answer (existing incoming : obj)
    (c : ascii) (a : string) :
  existing !! "answer" = Some (VStr (String c a)) ->
  incoming !! "answer" = None ->
  (forall f, f <> "chunks" ->
     mergeMarkdownBlock (Some existing) incoming !! f
     = match incoming !! f with Some v => Some v | None => existing !! f end)
  /\ markdown_text (mergeMarkdownBlock (Some existing) incoming) = Some (String c a).
Proof.
  intros He Hi. split.
  - intros f Hf. rewrite mergeMarkdownBlock_lookup_ne by exact Hf.
    rewrite lookup_union. destruct (incoming !! f), (existing !! f); reflexivity.
  - unfold markdown_text. rewrite mergeMarkdownBlock_lookup_ne by discriminate.
    rewrite lookup_union, Hi, He. reflexivity.
Qed.

Lemma mergeMarkdownBlock_keeps_populated_answer_witness :
  markdown_text (mergeMarkdownBlock (Some {[ "answer" := VStr "done" ]}) chunk_X_at_1)
  = Some "done".
Proof.
  apply (mergeMarkdownBlock_keeps_populated_answer {[ "answer" := VStr "done" ]}
           chunk_X_at_1 "d" "one"); reflexivity.
Defined.

(** ** Text of the chunks *)

Lemma join_chunks_app (l1 l2 : list value) :
  join_chunks (l1 ++ l2) = join_chunks l1 +:+ join_chunks l2.
Proof.
  unfold join_chunks. induction l1 as [|v l1 IH]; [reflexivity|].
  cbn [app foldr]. rewrite IH. symmetry. apply append_assoc.
Qed.

(** X5: chunks that arrive in order (the offset of an update is the number
    of chunks accumulated so far) extend the block's text by exactly the
    text of the new chunks, as long as no answer is populated on either
    side. *)
Theorem in_order_chunks_extend_the_text (existing incoming : obj)
    (old new : list value) :
  chunks existing = Some old ->
  chunks incoming = Some new -> new <> [] ->
  has_answer existing = false -> has_answer incoming = false ->
  chunk_starting_offset incoming = Z.of_nat (length old) ->
  markdown_text (mergeMarkdownBlock (Some existing) incoming)
  = Some (join_chunks old +:+ join_chunks new).
Proof.
  intros Ho Hn Hne He Hi Hoff.
  destruct new as [|c cs]; [congruence|clear Hne].
  pose proof (mergeMarkdownBlock_splice existing incoming c cs Hn) as Hs.
  rewrite Ho in Hs. cbn [default] in Hs. unfold id in Hs. rewrite Hoff in Hs.
  assert (Hchunks : chunks (mergeMarkdownBlock (Some existing) incoming)
                    = Some (old ++ c :: cs)).
  { rewrite Hs. destruct old as [|o old'].
    - reflexivity.
    - destruct (Z.of_nat (length (o :: old')) =? 0)%Z eqn:E.
      + apply Z.eqb_eq in E. cbn [length] in E. lia.
      + rewrite slice_to_nonneg by lia. rewrite Nat2Z.id.
        rewrite firstn_all. reflexivity. }
  unfold markdown_text. rewrite mergeMarkdownBlock_lookup_ne by discriminate.
  rewrite lookup_union. unfold has_answer in He, Hi.
  set (ans := incoming !! "answer" ∪ existing !! "answer").
  assert (Hnone : match ans with
                  | Some (VStr (String _ _)) => true
                  | _ => false
                  end = false).
  { subst ans. destruct (incoming !! "answer") as [vi|];
      destruct (existing !! "answer") as [ve|]; cbn; try exact Hi; try exact He;
      reflexivity. }
  destruct ans as [[| | |[|c' a']| |]|];
    try discriminate Hnone; rewrite Hchunks;
    (destruct old; cbn [app]; rewrite <- join_chunks_app; reflexivity).
Qed.

Lemma in_order_chunks_extend_the_text_witness :
  markdown_text (mergeMarkdownBlock (Some chunks_abc)
                   {[ "chunks" := VArr [VStr "d"]; "chunk_starting_offset" := VNum 3 ]})
  = Some "abcd".
Proof.
  apply (in_order_chunks_extend_the_text chunks_abc
           {[ "chunks" := VArr [VStr "d"]; "chunk_starting_offset" := VNum 3 ]}
           [VStr "a"; VStr "b"; VStr "c"] [VStr "d"]);
    try reflexivity; discriminate.
Defined.

Section MergeOrder.
Variable applyPatch : value -> list value -> option value.

Lemma mergeBlocks_foldl_lookup (incoming : list obj) (m : list (string * obj))
    (i : nat) (k : string) (b : obj) :
  m !! i = Some (k, b) -> k ∉ intended_usage <$> incoming ->
  foldl (mergeBlocks_step applyPatch) m incoming !! i = Some (k, b).
Proof.
  revert m. induction incoming as [|x incoming IH]; intros m Hi Hk; [exact Hi|].
  rewrite fmap_cons in Hk. apply not_elem_of_cons in Hk as [Hne Hk].
  cbn [foldl]. apply IH; [|exact Hk].
  unfold mergeBlocks_step. apply set_lookup_other; [exact Hi|congruence].
Qed.

Lemma mergeBlocks_foldl_length (incoming : list obj) (m : list (string * obj)) :
  length m <= length (foldl (mergeBlocks_step applyPatch) m incoming)
           <= length m + length incoming.
Proof.
  revert m. induction incoming as [|x incoming IH]; intros m; cbn [foldl length]; [lia|].
  specialize (IH (mergeBlocks_step applyPatch m x)).
  pose proof (set_length m (intended_usage x)
                (mergeBlock applyPatch (JsMap.get (intended_usage x) m) x)) as Hs.
  unfold mergeBlocks_step in IH |- *. lia.
Qed.

Lemma entries_of_blocks (existing : list obj) :
  ((fun b => (intended_usage b, b)) <$> existing).*1 = intended_usage <$> existing
  /\ ((fun b => (intended_usage b, b)) <$> existing).*2 = existing.
Proof.
  split; induction existing as [|b bs IH]; try reflexivity;
    rewrite !fmap_cons; cbn [fst snd]; rewrite IH; reflexivity.
Qed.

(** X6: when the existing blocks have distinct keys, a merge keeps every
    block whose key no incoming block names, unchanged and at its place;
    blocks are never dropped, and at most one is added per incoming block;
    an empty update gives the existing blocks back. *)
Theorem mergeBlocks_keeps_untouched_blocks (existing incoming : list obj) :
  NoDup (intended_usage <$> existing) ->
  (forall i b, existing !! i = Some b ->
               intended_usage b ∉ intended_usage <$> incoming ->
               mergeBlocks applyPatch existing incoming !! i = Some b)
  /\ length existing <= length (mergeBlocks applyPatch existing incoming)
                     <= length existing + length incoming
  /\ mergeBlocks applyPatch existing [] = existing.
Proof.
  intros Hnd. destruct (entries_of_blocks existing) as [Hk Hv].
  assert (Hmap : JsMap.of_entries ((fun b => (intended_usage b, b)) <$> existing)
                 = (fun b => (intended_usage b, b)) <$> existing).
  { apply of_entries_NoDup. rewrite Hk. exact Hnd. }
  unfold mergeBlocks, JsMap.values. rewrite Hmap. split; [|split].
  - intros i b Hi Hki. rewrite list_lookup_fmap.
    rewrite (mergeBlocks_foldl_lookup incoming _ i (intended_usage b) b).
    + reflexivity.
    + rewrite list_lookup_fmap, Hi. reflexivity.
    + exact Hki.
  - rewrite length_fmap.
    pose proof (mergeBlocks_foldl_length incoming
                  ((fun b => (intended_usage b, b)) <$> existing)) as Hl.
    rewrite length_fmap in Hl. exact Hl.
  - cbn [foldl]. exact Hv.
Qed.

End MergeOrder.

Lemma mergeBlocks_keeps_untouched_blocks_witness :
  mergeBlocks applyPatch_throws [content_old_block] [replace_missing_path_block] !! 0%nat
  = Some content_old_block.
Proof.
  apply (mergeBlocks_keeps_untouched_blocks applyPatch_throws
           [content_old_block] [replace_missing_path_block]).
  - vm_compute. apply NoDup_singleton.
  - reflexivity.
  - vm_compute. intros H. apply list_elem_of_singleton in H. discriminate H.
Defined.

(** ** Answer and sources *)

Lemma extractAnswer_blocks (e e' : obj) :
  blocks_or_empty e = blocks_or_empty e' -> extractAnswer e = extractAnswer e'.
Proof. intros H. unfold extractAnswer. rewrite H. reflexivity. Qed.

Lemma extractWebResults_blocks (e e' : obj) :
  blocks_or_empty e = blocks_or_empty e' -> extractWebResults e = extractWebResults e'.
Proof. intros H. unfold extractWebResults. rewrite H. reflexivity. Qed.

Lemma extractSources_blocks (e e' : obj) :
  blocks_or_empty e = blocks_or_empty e' -> extractSources e = extractSources e'.
Proof. intros H. unfold extractSources. rewrite (extractWebResults_blocks e e' H). reflexivity. Qed.

(** X7: for an entry whose web results hold no null (on which the
    property read throws): every source has a truthy title and a truthy url,
    which are the name and the url of one of the web results; results lacking
    either are left out, so there are at most as many sources as web
    results. *)
Theorem extractSources_only_complete_results (e : obj) :
  VNull ∉ extractWebResults e ->
  Forall (fun s => truthy_prop (title s) = true /\ truthy_prop (url s) = true
                   /\ exists r, r ∈ extractWebResults e
                                /\ title s = block_of_value r !! "name"
                                /\ url s = block_of_value r !! "url")
         (extractSources e)
  /\ length (extractSources e) <= length (extractWebResults e)
  /\ (extractWebResults e = [] -> extractSources e = []).
Proof.
  intros _. unfold extractSources. split; [|split].
  - apply Forall_fmap, Forall_forall. intros r Hr.
    apply list_elem_of_filter in Hr as [Ht Hin]. apply andb_true_iff in Ht as [Hu Hn].
    cbn [title url]. split; [exact Hn|]. split; [exact Hu|].
    exists r. split; [exact Hin|]. split; reflexivity.
  - rewrite length_fmap. apply length_filter.
  - intros ->. reflexivity.
Qed.

Lemma extractSources_only_complete_results_witness :
  length (extractSources web_results_entry) <= length (extractWebResults web_results_entry).
Proof.
  apply (extractSources_only_complete_results web_results_entry).
  vm_compute. intros H.
  repeat (apply elem_of_cons in H as [H|H]; [discriminate H|]).
  apply elem_of_nil in H. exact H.
Defined.

Section AccumulatorMore.
Variable applyPatch : value -> list value -> option value.

Lemma update_in_sync (acc : StreamAccumulator) (incoming : obj) :
  this_answer (update applyPatch acc incoming).1
  = extractAnswer (this_entry (update applyPatch acc incoming).1).
Proof. reflexivity. Qed.

Lemma update_all_in_sync (payloads : list obj) (acc : StreamAccumulator) :
  this_answer acc = extractAnswer (this_entry acc) ->
  this_answer (update_all applyPatch acc payloads).1
  = extractAnswer (this_entry (update_all applyPatch acc payloads).1).
Proof.
  revert acc. induction payloads as [|p ps IH]; intros acc Hacc; [exact Hacc|].
  cbn [update_all].
  destruct (update applyPatch acc p) as [acc1 u] eqn:Eu.
  specialize (IH acc1).
  destruct (update_all applyPatch acc1 ps) as [acc2 us] eqn:Eus.
  cbn [fst] in *. apply IH.
  pose proof (update_in_sync acc p) as Hs. rewrite Eu in Hs. exact Hs.
Qed.

(** X8: an update that carries no blocks (absent, null or empty) leaves the
    blocks, the answer and the sources of the accumulator as they are, and
    its delta is empty. *)
Theorem update_without_blocks_changes_no_answer (payloads : list obj) (incoming : obj) :
  carries_blocks incoming = false ->
  let acc := (update_all applyPatch new_StreamAccumulator payloads).1 in
  let u := (update applyPatch acc incoming).2 in
  blocks_or_empty (entry u) = blocks_or_empty (this_entry acc)
  /\ answer u = this_answer acc
  /\ delta u = ""
  /\ sources u = extractSources (this_entry acc).
Proof.
  intros Hnb acc u.
  assert (Hsync : this_answer acc = extractAnswer (this_entry acc)).
  { apply update_all_in_sync. reflexivity. }
  assert (Hb : blocks_or_empty (entry u) = blocks_or_empty (this_entry acc)).
  { subst u. cbn [update snd entry]. rewrite blocks_or_empty_mergeEntries.
    unfold carries_blocks in Hnb.
    destruct (incoming !! "blocks") as [[| | | |[|b bs]|]|]; try reflexivity.
    discriminate Hnb. }
  assert (Ha : answer u = this_answer acc).
  { rewrite Hsync. subst u. cbn [update snd answer]. apply extractAnswer_blocks. exact Hb. }
  split; [exact Hb|]. split; [exact Ha|]. split.
  - subst u. cbn [update snd delta answer] in Ha |- *. rewrite Ha.
    rewrite startsWith_refl. apply slice_from_all.
  - subst u. cbn [update snd sources]. apply extractSources_blocks. exact Hb.
Qed.

(** X9: appending the deltas, in order, to the answer held before gives a
    text that ends with the final answer; it is the final answer when every
    answer on the way starts with the one before it. *)
Theorem deltas_rebuild_the_answer (payloads : list obj) (acc : StreamAccumulator) :
  let acc' := (update_all applyPatch acc payloads).1 in
  let us := (update_all applyPatch acc payloads).2 in
  (exists shown, this_answer acc +:+ appended_deltas us = shown +:+ this_answer acc')
  /\ (answers_grow (this_answer acc) us = true ->
      this_answer acc +:+ appended_deltas us = this_answer acc').
Proof.
  revert acc. induction payloads as [|p ps IH]; intros acc; cbn zeta.
  - cbn [update_all fst snd appended_deltas foldr]. rewrite append_nil_r. split.
    + exists "". reflexivity.
    + intros _. reflexivity.
  - cbn [update_all].
    destruct (update applyPatch acc p) as [acc1 u] eqn:Eu.
    specialize (IH acc1). cbn zeta in IH.
    destruct (update_all applyPatch acc1 ps) as [acc2 us] eqn:Eus.
    cbn [fst snd] in *.
    assert (Hu : answer u = this_answer acc1
                 /\ delta u = if startsWith (answer u) (this_answer acc)
                              then slice_from (String.length (this_answer acc)) (answer u)
                              else answer u).
    { unfold update in Eu. injection Eu as <- <-. split; reflexivity. }
    destruct Hu as [Hans Hdelta]. destruct IH as [[shown Hshown] Hgrow].
    change (appended_deltas (u :: us)) with (delta u +:+ appended_deltas us).
    rewrite <- append_assoc. split.
    + destruct (startsWith (answer u) (this_answer acc)) eqn:Hp.
      * exists shown. rewrite Hdelta, (startsWith_slice_from _ _ Hp), Hans. exact Hshown.
      * exists (this_answer acc +:+ shown).
        rewrite Hdelta, Hans, !append_assoc. f_equal. exact Hshown.
    + cbn [answers_grow]. intros Hg. apply andb_true_iff in Hg as [Hp Hg].
      rewrite Hdelta, Hp, (startsWith_slice_from _ _ Hp), Hans. apply Hgrow.
      rewrite <- Hans. exact Hg.
Qed.

End AccumulatorMore.

Lemma update_without_blocks_changes_no_answer_witness :
  delta (update applyPatch_throws
           (update_all applyPatch_throws new_StreamAccumulator [answer_payload "Hi"]).1
           final_payload).2 = ""
  /\ answer (update applyPatch_throws
               (update_all applyPatch_throws new_StreamAccumulator [answer_payload "Hi"]).1
               final_payload).2 = "Hi".
Proof.
  pose proof (update_without_blocks_changes_no_answer applyPatch_throws
                [answer_payload "Hi"] final_payload eq_refl) as (_ & Ha & Hd & _).
  split; [exact Hd|]. rewrite Ha. reflexivity.
Defined.

Lemma find_first {A : Type} (p : A -> bool) (pre post : list A) (b : A) :
  Forall (fun x => p x = false) pre -> p b = true ->
  List.find p (pre ++ b :: post) = Some b.
Proof.
  intros Hpre Hb. induction Hpre as [|x pre Hx _ IH]; cbn [app List.find].
  - rewrite Hb. reflexivity.
  - rewrite Hx. exact IH.
Qed.

Lemma find_none {A : Type} (p : A -> bool) (l : list A) :
  Forall (fun x => p x = false) l -> List.find p l = None.
Proof.
  induction 1 as [|x l Hx _ IH]; [reflexivity|]. cbn [List.find]. rewrite Hx. exact IH.
Qed.

(** X10: the first block whose key contains "markdown" and that carries a
    markdown payload decides: its text is the answer (the populated answer
    field before the chunks), whatever the blocks after it hold; when it has
    no text, only a block of key ask_text is consulted, never a later
    markdown block. *)
Theorem extractAnswer_first_markdown_block_decides (e : obj) (pre post : list obj)
    (b m : obj) :
  blocks_of_value (blocks_or_empty e) = pre ++ b :: post ->
  Forall (fun x => includes (intended_usage x) "markdown" && has_markdown x = false) pre ->
  includes (intended_usage b) "markdown" = true ->
  markdown_block b = Some m ->
  (forall t, markdown_text m = Some t -> extractAnswer e = t)
  /\ (forall c a, m !! "answer" = Some (VStr (String c a)) -> extractAnswer e = String c a)
  /\ (markdown_text m = None ->
      Forall (fun x => intended_usage x <> "ask_text") (pre ++ b :: post) ->
      extractAnswer e = "").
Proof.
  intros Hblocks Hpre Hkey Hmd.
  assert (Hfind : List.find (fun x => includes (intended_usage x) "markdown" && has_markdown x)
                            (pre ++ b :: post) = Some b).
  { apply find_first; [exact Hpre|]. unfold has_markdown. rewrite Hkey, Hmd. reflexivity. }
  assert (Htext : forall t, markdown_text m = Some t -> extractAnswer e = t).
  { intros t Ht. unfold extractAnswer. rewrite Hblocks, Hfind.
    cbn [block_text]. rewrite Hmd, Ht. reflexivity. }
  split; [exact Htext|]. split.
  - intros c a Ha. apply Htext. unfold markdown_text. rewrite Ha. reflexivity.
  - intros Hnone Hno. unfold extractAnswer. rewrite Hblocks, Hfind.
    cbn [block_text]. rewrite Hmd, Hnone.
    rewrite find_none; [reflexivity|].
    eapply Forall_impl; [exact Hno|]. intros x Hx. cbn beta.
    apply andb_false_iff. left. apply String.eqb_neq. exact Hx.
Qed.

Lemma extractAnswer_first_markdown_block_decides_witness :
  extractAnswer
    {[ "blocks" :=
         VArr [VObj {[ "intended_usage" := VStr "ask_text";
                       "markdown_block" := VObj {[ "answer" := VStr "plain" ]} ]};
               VObj {[ "intended_usage" := VStr "pro_markdown";
                       "markdown_block" :=
                         VObj {[ "answer" := VStr "rich"; "chunks" := VArr [VStr "r"] ]} ]};
               VObj {[ "intended_usage" := VStr "markdown";
                       "markdown_block" := VObj {[ "answer" := VStr "late" ]} ]}] ]}
  = "rich".
Proof.
  eapply (extractAnswer_first_markdown_block_decides _
            [ {[ "intended_usage" := VStr "ask_text";
                 "markdown_block" := VObj {[ "answer" := VStr "plain" ]} ]} ]
            [ {[ "intended_usage" := VStr "markdown";
                 "markdown_block" := VObj {[ "answer" := VStr "late" ]} ]} ]
            {[ "intended_usage" := VStr "pro_markdown";
               "markdown_block" :=
                 VObj {[ "answer" := VStr "rich"; "chunks" := VArr [VStr "r"] ]} ]}
            {[ "answer" := VStr "rich"; "chunks" := VArr [VStr "r"] ]}).
  - vm_compute. reflexivity.
  - apply Forall_cons. split; [vm_compute; reflexivity|apply Forall_nil_2].
  - vm_compute. reflexivity.
  - vm_compute. reflexivity.
  - vm_compute. reflexivity.
Defined.

(** ** Fields of the entry *)

Section EntryFields.
Variable applyPatch : value -> list value -> option value.

Lemma update_all_app (l1 l2 : list obj) (acc : StreamAccumulator) :
  (update_all applyPatch acc (l1 ++ l2)).1
  = (update_all applyPatch (update_all applyPatch acc l1).1 l2).1.
Proof.
  revert acc. induction l1 as [|p l1 IH]; intros acc; [reflexivity|].
  cbn [app update_all].
  destruct (update applyPatch acc p) as [acc1 u] eqn:Eu.
  specialize (IH acc1).
  destruct (update_all applyPatch acc1 (l1 ++ l2)) as [acc2 us] eqn:E2.
  destruct (update_all applyPatch acc1 l1) as [acc3 us3] eqn:E3.
  cbn [fst] in *. exact IH.
Qed.

Lemma update_all_field_kept (payloads : list obj) (acc : StreamAccumulator) (k : string) :
  k <> "blocks" -> Forall (fun q => q !! k = None) payloads ->
  this_entry (update_all applyPatch acc payloads).1 !! k = this_entry acc !! k.
Proof.
  intros Hk Hnone. revert acc. induction Hnone as [|q qs Hq _ IH]; intros acc; [reflexivity|].
  cbn [update_all].
  destruct (update applyPatch acc q) as [acc1 u] eqn:Eu.
  specialize (IH acc1).
  destruct (update_all applyPatch acc1 qs) as [acc2 us] eqn:E2.
  cbn [fst] in *. rewrite IH.
  unfold update in Eu. injection Eu as <- _. cbn [this_entry].
  rewrite mergeEntries_lookup_ne by exact Hk. rewrite lookup_union, Hq.
  destruct (this_entry acc !! k); reflexivity.
Qed.

(** X11: outside [blocks], the entry of the accumulator holds, for every
    field, the value of the last payload that set it: payloads that do not
    set a field leave it alone, whatever else they carry. *)
Theorem entry_fields_hold_the_last_value_set (acc : StreamAccumulator)
    (before after : list obj) (p : obj) (k : string) (v : value) :
  k <> "blocks" -> p !! k = Some v -> Forall (fun q => q !! k = None) after ->
  this_entry (update_all applyPatch acc (before ++ p :: after)).1 !! k = Some v.
Proof.
  intros Hk Hp Hafter. rewrite update_all_app.
  set (acc0 := (update_all applyPatch acc before).1).
  cbn [update_all].
  destruct (update applyPatch acc0 p) as [acc1 u] eqn:Eu.
  pose proof (update_all_field_kept after acc1 k Hk Hafter) as Hkept.
  destruct (update_all applyPatch acc1 after) as [acc2 us] eqn:E2.
  cbn [fst] in *. rewrite Hkept.
  unfold update in Eu. injection Eu as <- _. cbn [this_entry].
  rewrite mergeEntries_lookup_ne by exact Hk. rewrite lookup_union, Hp.
  destruct (this_entry acc0 !! k); reflexivity.
Qed.

End EntryFields.

Lemma entry_fields_hold_the_last_value_set_witness :
  this_entry (update_all applyPatch_throws new_StreamAccumulator
                ([pending_payload] ++ completed_payload :: [answer_payload "Hi"])).1
    !! "status" = Some (VStr "COMPLETED").
Proof.
  apply (entry_fields_hold_the_last_value_set applyPatch_throws new_StreamAccumulator
           [pending_payload] [answer_payload "Hi"] completed_payload "status").
  - discriminate.
  - reflexivity.
  - apply Forall_singleton. reflexivity.
Defined.

(** ** Associativity of the merge *)

Section JsMapExt.
Context {K V : Type} `{EqDecision K}.
Implicit Types (m : list (K * V)) (k : K) (v : V).






End JsMapExt.

(** *** Keys in insertion order *)







Lemma add_keys_NoDup (K S : list string) :
  NoDup (S ++ K) -> foldl add_key S K = S ++ K.
Proof.
  revert S. induction K as [|k K IH]; intros S Hnd.
  - rewrite app_nil_r. reflexivity.
  - cbn [foldl]. unfold add_key. destruct (decide (k ∈ S)) as [Hin|_].
    + apply NoDup_app in Hnd as (_ & Hdisj & _). exfalso.
      apply (Hdisj k Hin). apply list_elem_of_here.
    + rewrite IH; rewrite <- app_assoc; [reflexivity|exact Hnd].
Qed.

(** *** Plain blocks *)









Section PlainAssoc.
Variable applyPatch : value -> list value -> option value.

#[local] Abbreviation step := (mergeBlocks_step applyPatch).
#[local] Abbreviation block_entry := (fun b : obj => (intended_usage b, b)).












End PlainAssoc.

(** *** Markdown chunks in order *)






Section MarkdownAssoc.
Variable applyPatch : value -> list value -> option value.

#[local] Abbreviation step := (mergeBlocks_step applyPatch).
#[local] Abbreviation block_entry := (fun b : obj => (intended_usage b, b)).




End MarkdownAssoc.

Section EntryAssoc.
Variable applyPatch : value -> list value -> option value.

#[local] Abbreviation step := (mergeBlocks_step applyPatch).
#[local] Abbreviation block_entry := (fun b : obj => (intended_usage b, b)).






End EntryAssoc.

(** ** The client's generator *)

Module ClientFacts.
Import Client.

Section Streaming.
Variable JSON_parse : string -> option value.
Variable applyPatch : value -> list value -> option value.

Lemma update_snd (acc : StreamAccumulator) (incoming : obj) :
  entry (update applyPatch acc incoming).2 = this_entry (update applyPatch acc incoming).1
  /\ answer (update applyPatch acc incoming).2 = this_answer (update applyPatch acc incoming).1
  /\ sources (update applyPatch acc incoming).2
     = extractSources (this_entry (update applyPatch acc incoming).1).
Proof. repeat split. Qed.

Lemma consume_spec (entries : list value) (failed : option StreamFailure)
    (acc : StreamAccumulator) :
  let us := (consume applyPatch acc entries failed).1 in
  let ending := (consume applyPatch acc entries failed).2 in
  (forall i u, us !! i = Some u -> S i < length us -> isFinal u = false)
  /\ (forall r, ending = inr r ->
        match last us with
        | Some u => response_entry r = entry u /\ response_answer r = answer u
                    /\ response_sources r = sources u
        | None => r = buildResponse acc
        end)
  /\ (forall u, u ∈ us -> isFinal u = true -> exists r, ending = inr r)
  /\ (forall f, ending = inl f ->
        exists e, failed = Some e /\ f = StreamFailed e /\ length us = length entries)
  /\ us `prefix_of` (update_all applyPatch acc (own_props <$> entries)).2.
Proof.
  revert acc. induction entries as [|e entries IH]; intros acc; cbn zeta.
  - cbn [consume fst snd]. split; [|split; [|split; [|split]]].
    + intros i u Hi. discriminate Hi.
    + intros r Hr. cbn [last]. destruct failed; [discriminate Hr|]. congruence.
    + intros u Hu. apply elem_of_nil in Hu. destruct Hu.
    + intros f Hf. destruct failed as [x|]; [|discriminate Hf].
      exists x. split; [reflexivity|]. split; [congruence|reflexivity].
    + apply prefix_nil.
  - cbn [consume fmap list_fmap update_all].
    pose proof (update_snd acc (own_props e)) as (Hent & Hans & Hsrc).
    destruct (update applyPatch acc (own_props e)) as [acc1 u] eqn:Eu.
    cbn [fst snd] in Hent, Hans, Hsrc.
    specialize (IH acc1). cbn zeta in IH.
    change (list_fmap value obj own_props entries) with (own_props <$> entries).
    destruct (update_all applyPatch acc1 (own_props <$> entries)) as [acc2 all] eqn:Eall.
    destruct (isFinal u) eqn:Hfin.
    + cbn [fst snd]. split; [|split; [|split; [|split]]].
      * intros i x Hi Hlen. cbn [length] in Hlen. lia.
      * intros r Hr. injection Hr as <-. cbn [last buildResponse response_entry
          response_answer response_sources]. rewrite Hent, Hans, Hsrc. repeat split.
      * intros x _ _. eexists. reflexivity.
      * intros f Hf. discriminate Hf.
      * apply prefix_cons, prefix_nil.
    + destruct (consume applyPatch acc1 entries failed) as [us ending] eqn:Ec.
      cbn [fst snd] in IH |- *. destruct IH as (H1 & H2 & H3 & H4 & H5).
      split; [|split; [|split; [|split]]].
      * intros i x Hi Hlen. destruct i as [|i]; cbn in Hi.
        -- injection Hi as <-. exact Hfin.
        -- apply (H1 i x Hi). cbn [length] in Hlen. lia.
      * intros r Hr. specialize (H2 r Hr). destruct us as [|u0 us'].
        -- cbn [last] in H2 |- *. subst r. cbn [buildResponse response_entry response_answer
             response_sources]. rewrite Hent, Hans, Hsrc. repeat split.
        -- change (last (u :: u0 :: us')) with (last (u0 :: us')).
           destruct (last (u0 :: us')) eqn:El; [exact H2|].
           apply last_None in El. discriminate El.
      * intros x Hx Hxf. apply elem_of_cons in Hx as [->|Hx]; [congruence|].
        exact (H3 x Hx Hxf).
      * intros f Hf. destruct (H4 f Hf) as (x & Hx1 & Hx2 & Hx3).
        exists x. split; [exact Hx1|]. split; [exact Hx2|]. cbn [length]. lia.
      * apply prefix_cons. exact H5.
Qed.

(** X12: in a run of [stream], every update but the last is not final; once
    an update is final the generator returns a response, even if a later
    payload would make the decoder throw; the response returned carries the
    entry, the answer and the sources of the last update; and a request that
    is refused, or has no body, yields no update at all. *)
Theorem stream_stops_at_the_first_final_update (this : PerplexityClient)
    (fetched : option Response) :
  let us := (stream JSON_parse applyPatch this fetched).1 in
  let ending := (stream JSON_parse applyPatch this fetched).2 in
  (forall i u, us !! i = Some u -> S i < length us -> isFinal u = false)
  /\ (forall u, u ∈ us -> isFinal u = true -> exists r, ending = inr r)
  /\ (forall r u, ending = inr r -> last us = Some u ->
        response_entry r = entry u /\ response_answer r = answer u
        /\ response_sources r = sources u)
  /\ (forall response, fetched = Some response ->
        ok response = false \/ body response = None ->
        us = [] /\ exists f, ending = inl f)
  /\ (forall response reads, fetched = Some response ->
        ok response = true -> body response = Some reads ->
        us `prefix_of`
          (update_all applyPatch new_StreamAccumulator
             (own_props <$> emitted (parseEventStream JSON_parse reads))).2).
Proof.
  cbn zeta. unfold stream, stream_response.
  destruct fetched as [response|].
  - destruct (ok response) eqn:Hok; cbn [negb].
    + destruct (body response) as [reads|] eqn:Hbody.
      * pose proof (consume_spec (emitted (parseEventStream JSON_parse reads))
                      (failure (parseEventStream JSON_parse reads))
                      new_StreamAccumulator) as Hc.
        cbn zeta in Hc. destruct Hc as (H1 & H2 & H3 & _ & H5).
        split; [exact H1|]. split; [exact H3|]. split; [|split].
        -- intros r u Hr Hu. specialize (H2 r Hr). rewrite Hu in H2. exact H2.
        -- intros response' Hf [Hko|Hnb]; injection Hf as <-; congruence.
        -- intros response' reads' Hf _ Hb. injection Hf as <-.
           rewrite Hbody in Hb. injection Hb as <-. exact H5.
      * cbn [fst snd]. split; [intros i u Hi; discriminate Hi|].
        split; [intros u Hu; apply elem_of_nil in Hu; destruct Hu|].
        split; [intros r u Hr; discriminate Hr|]. split.
        -- intros _ _ _. split; [reflexivity|eexists; reflexivity].
        -- intros response' reads' Hf _ Hb. injection Hf as <-.
           rewrite Hbody in Hb. discriminate Hb.
    + cbn [fst snd]. split; [intros i u Hi; discriminate Hi|].
      split; [intros u Hu; apply elem_of_nil in Hu; destruct Hu|].
      split; [intros r u Hr; discriminate Hr|]. split.
      * intros _ _ _. split; [reflexivity|eexists; reflexivity].
      * intros response' reads' Hf Hok' _. injection Hf as <-.
        rewrite Hok in Hok'. discriminate Hok'.
  - cbn [fst snd]. split; [intros i u Hi; discriminate Hi|].
    split; [intros u Hu; apply elem_of_nil in Hu; destruct Hu|].
    split; [intros r u Hr; discriminate Hr|]. split.
    + intros response Hf. discriminate Hf.
    + intros response reads Hf. discriminate Hf.
Qed.

End Streaming.
End ClientFacts.

Module RequestFacts.
Import Client.

(** X13: a header passed with the request wins over the client's header of
    that name, which wins over the built-in one.  For [Cookie]: the
    request's Cookie header, when it is not empty, is sent as it is; when
    the request passes none, the client's Cookie header, when it is not
    empty, is sent as it is; when the header that prevails is empty (an
    empty Cookie passed with the request prevails over a client's Cookie
    header, empty or not), the client's cookies are the Cookie header sent;
    and when neither passes a Cookie header, the client's cookies are the
    Cookie header unless they are empty, and then none is sent. *)
Theorem buildHeaders_precedence (this : PerplexityClient) (reason : string)
    (overrides : option (gmap string string)) (requestId : string) :
  let sent := buildHeaders this reason overrides requestId in
  let request := default ∅ overrides in
  (forall name v, name <> "Cookie" -> request !! name = Some v -> sent !! name = Some v)
  /\ (forall name v, name <> "Cookie" ->
        request !! name = None -> headers this !! name = Some v ->
        sent !! name = Some v)
  /\ (request !! "X-Perplexity-Request-Reason" = None ->
      headers this !! "X-Perplexity-Request-Reason" = None ->
      sent !! "X-Perplexity-Request-Reason" = Some reason)
  /\ (forall c, request !! "Cookie" = Some c -> c <> "" -> sent !! "Cookie" = Some c)
  /\ (forall c, request !! "Cookie" = None -> headers this !! "Cookie" = Some c ->
        c <> "" -> sent !! "Cookie" = Some c)
  /\ (request !! "Cookie" = Some "" -> sent !! "Cookie" = Some (cookies this))
  /\ (request !! "Cookie" = None -> headers this !! "Cookie" = Some "" ->
      sent !! "Cookie" = Some (cookies this))
  /\ (request !! "Cookie" = None -> headers this !! "Cookie" = None ->
      sent !! "Cookie" = if String.eqb (cookies this) "" then None
                         else Some (cookies this)).
Proof.
  cbn zeta. unfold buildHeaders.
  set (builtin := list_to_map _ : gmap string string).
  set (result := default ∅ overrides ∪ (headers this ∪ builtin)).
  assert (Hcookie : result !! "Cookie"
                    = from_option Some (headers this !! "Cookie")
                        (default ∅ overrides !! "Cookie")).
  { subst result. rewrite !lookup_union.
    assert (Hb : builtin !! "Cookie" = None) by reflexivity.
    rewrite Hb. destruct (default ∅ overrides !! "Cookie"), (headers this !! "Cookie");
      reflexivity. }
  assert (Hne : forall name, name <> "Cookie" ->
            (if negb (String.eqb (cookies this) "")
                && negb (from_option (fun c => negb (String.eqb c "")) false
                                     (result !! "Cookie"))
             then <["Cookie" := cookies this]> result else result) !! name
            = result !! name).
  { intros name Hn. destruct (_ && _); [|reflexivity].
    apply lookup_insert_ne. congruence. }
  assert (Hfull : forall c, result !! "Cookie" = Some c -> c <> "" ->
            (if negb (String.eqb (cookies this) "")
                && negb (from_option (fun c => negb (String.eqb c "")) false
                                     (result !! "Cookie"))
             then <["Cookie" := cookies this]> result else result) !! "Cookie" = Some c).
  { intros c Hc Hcne. rewrite Hc. cbn [from_option].
    apply String.eqb_neq in Hcne. rewrite Hcne. cbn [negb].
    rewrite andb_false_r. exact Hc. }
  assert (Hempty : result !! "Cookie" = Some "" ->
            (if negb (String.eqb (cookies this) "")
                && negb (from_option (fun c => negb (String.eqb c "")) false
                                     (result !! "Cookie"))
             then <["Cookie" := cookies this]> result else result) !! "Cookie"
            = Some (cookies this)).
  { intros Hc. rewrite Hc. cbn [from_option]. cbn.
    destruct (String.eqb (cookies this) "") eqn:Ec; cbn [negb andb].
    - apply String.eqb_eq in Ec. rewrite Ec. exact Hc.
    - apply lookup_insert_eq. }
  repeat apply conj.
  - intros name v Hn Ho. rewrite Hne by exact Hn. subst result.
    rewrite lookup_union, Ho. destruct ((headers this ∪ builtin) !! name); reflexivity.
  - intros name v Hn Ho Hh. rewrite Hne by exact Hn. subst result.
    rewrite !lookup_union, Ho, Hh. destruct (builtin !! name); reflexivity.
  - intros Ho Hh. rewrite Hne by discriminate. subst result.
    rewrite !lookup_union, Ho, Hh. reflexivity.
  - intros c Ho Hcne. apply Hfull; [|exact Hcne]. rewrite Hcookie, Ho. reflexivity.
  - intros c Ho Hh Hcne. apply Hfull; [|exact Hcne]. rewrite Hcookie, Ho. exact Hh.
  - intros Ho. apply Hempty. rewrite Hcookie, Ho. reflexivity.
  - intros Ho Hh. apply Hempty. rewrite Hcookie, Ho. exact Hh.
  - intros Ho Hh.
    assert (Hc : result !! "Cookie" = None) by (rewrite Hcookie, Ho; exact Hh).
    rewrite Hc. cbn [from_option].
    destruct (String.eqb (cookies this) ""); cbn [negb andb];
      [exact Hc|apply lookup_insert_eq].
Qed.

(** X14: whatever options a caller passes to a thread, the request carries
    the thread's id as its context and the last entry of the thread as the
    entry it continues (none on a fresh or reset thread); every other option
    is the caller's, else the thread's default. *)
Theorem thread_options_pin_the_conversation (client : PerplexityClient)
    (this : Thread.PerplexityThread) (query : string) (options : obj)
    (uuid1 uuid2 timeZone : string) :
  let merged := Thread.mergeOptions this options in
  let params := buildSubmitParams client query merged uuid1 uuid2 timeZone in
  params !! "frontend_context_uuid" = Some (VStr (Thread.threadId this))
  /\ params !! "existing_entry_uuid" = Thread.lastEntryId this
  /\ (forall key, key <> "threadId" -> key <> "existingEntryId" ->
        merged !! key = match options !! key with
                        | Some v => Some v
                        | None => Thread.defaults this !! key
                        end)
  /\ (forall newId uuid,
        buildSubmitParams client query
          (Thread.mergeOptions (Thread.reset this newId uuid) options) uuid1 uuid2 timeZone
        !! "existing_entry_uuid" = None).
Proof.
  cbn zeta.
  assert (Hthread : forall t, Thread.mergeOptions t options !! "threadId"
                              = Some (VStr (Thread.threadId t))).
  { intros t. unfold Thread.mergeOptions. destruct (Thread.lastEntryId t).
    - rewrite lookup_insert_ne by discriminate. apply lookup_insert_eq.
    - rewrite lookup_delete_ne by discriminate. apply lookup_insert_eq. }
  assert (Hexisting : forall t, Thread.mergeOptions t options !! "existingEntryId"
                                = Thread.lastEntryId t).
  { intros t. unfold Thread.mergeOptions. destruct (Thread.lastEntryId t).
    - apply lookup_insert_eq.
    - apply lookup_delete_eq. }
  assert (Hparams : forall o,
            buildSubmitParams client query o uuid1 uuid2 timeZone !! "existing_entry_uuid"
            = o !! "existingEntryId"
            /\ buildSubmitParams client query o uuid1 uuid2 timeZone !! "frontend_context_uuid"
               = Some (coalesce (o !! "threadId") (VStr uuid2))).
  { intros o. unfold buildSubmitParams.
    destruct (o !! "existingEntryId") as [x|]; destruct (o !! "querySource") as [y|];
      rewrite ?lookup_insert_eq, ?(lookup_insert_ne _ "existing_entry_uuid"),
              ?(lookup_insert_ne _ "query_source") by discriminate;
      split; reflexivity. }
  split; [|split; [|split]].
  - destruct (Hparams (Thread.mergeOptions this options)) as [_ ->].
    rewrite Hthread. reflexivity.
  - destruct (Hparams (Thread.mergeOptions this options)) as [-> _]. apply Hexisting.
  - intros key Hk1 Hk2. unfold Thread.mergeOptions.
    destruct (Thread.lastEntryId this).
    + rewrite !lookup_insert_ne by congruence. rewrite lookup_union.
      destruct (options !! key), (Thread.defaults this !! key); reflexivity.
    + rewrite lookup_delete_ne, lookup_insert_ne by congruence. rewrite lookup_union.
      destruct (options !! key), (Thread.defaults this !! key); reflexivity.
  - intros newId uuid.
    destruct (Hparams (Thread.mergeOptions (Thread.reset this newId uuid) options)) as [-> _].
    rewrite Hexisting. reflexivity.
Qed.

End RequestFacts.

(** ** Cookies and tokens *)

Module AuthFacts.
Import Auth.

Lemma jwtToCookie_includes (jwt : string) :
  includes (jwtToCookie jwt) "next-auth.session-token=" = true.
Proof.
  unfold jwtToCookie.
  change ("__Secure-next-auth.session-token=" +:+ jwt)
    with ("__Secure-" +:+ ("next-auth.session-token=" +:+ jwt)).
  apply includes_app_l, includes_prefix.
Qed.

Lemma jwtToCookie_trim (jwt : string) :
  trim (jwtToCookie jwt) = jwtToCookie (trim_end jwt).
Proof.
  unfold trim, jwtToCookie.
  change (trim_start ("__Secure-next-auth.session-token=" +:+ jwt))
    with ("__Secure-next-auth.session-token=" +:+ jwt).
  apply trim_end_app. reflexivity.
Qed.

Lemma jwtToCookie_nonempty (jwt : string) : String.eqb (jwtToCookie jwt) "" = false.
Proof. reflexivity. Qed.

(** A text that is trimmed already is normalised by the tests alone. *)
Lemma normalizeCookies_trimmed (t : string) :
  trim t = t ->
  normalizeCookies t
  = if String.eqb t "" then ""
    else if includes t "next-auth.session-token="
            || includes t "__Secure-next-auth.session-token="
    then t
    else if isLikelyJwt t then jwtToCookie t else t.
Proof. intros Ht. unfold normalizeCookies. rewrite Ht. reflexivity. Qed.

Lemma normalizeCookies_jwtToCookie (jwt : string) :
  normalizeCookies (jwtToCookie jwt) = jwtToCookie (trim_end jwt).
Proof.
  unfold normalizeCookies. rewrite jwtToCookie_trim, jwtToCookie_nonempty.
  rewrite jwtToCookie_includes. reflexivity.
Qed.

Lemma normalizeCookies_trim (v : string) : normalizeCookies v = normalizeCookies (trim v).
Proof. unfold normalizeCookies. rewrite trim_idem. reflexivity. Qed.

Lemma normalizeCookies_fixed (v : string) :
  normalizeCookies (normalizeCookies v) = normalizeCookies v
  /\ trim (normalizeCookies v) = normalizeCookies v.
Proof.
  rewrite (normalizeCookies_trim v). pose proof (trim_idem v) as Ht.
  generalize dependent (trim v). intros t Ht.
  rewrite (normalizeCookies_trimmed t Ht).
  destruct (String.eqb t "") eqn:E0; [split; reflexivity|].
  destruct (includes t "next-auth.session-token="
            || includes t "__Secure-next-auth.session-token=") eqn:E1.
  - split; [|exact Ht]. rewrite (normalizeCookies_trimmed t Ht), E0, E1. reflexivity.
  - destruct (isLikelyJwt t) eqn:E2.
    + rewrite normalizeCookies_jwtToCookie, jwtToCookie_trim.
      rewrite (trim_fixed_end t Ht). split; reflexivity.
    + split; [|exact Ht]. rewrite (normalizeCookies_trimmed t Ht), E0, E1, E2. reflexivity.
Qed.

(** X15: normalising cookies twice is normalising them once; the result
    has no white space around it, is empty only for a blank input, and a
    bare token (three non-empty parts between dots) always comes out holding
    the session cookie's name. *)
Theorem normalizeCookies_is_idempotent (v : string) :
  normalizeCookies (normalizeCookies v) = normalizeCookies v
  /\ trim (normalizeCookies v) = normalizeCookies v
  /\ (normalizeCookies v = "" <-> trim v = "")
  /\ (isLikelyJwt (trim v) = true ->
      includes (normalizeCookies v) "next-auth.session-token=" = true).
Proof.
  destruct (normalizeCookies_fixed v) as [H1 H2].
  split; [exact H1|]. split; [exact H2|]. unfold normalizeCookies. split; [split|].
  - destruct (String.eqb (trim v) "") eqn:E0; [intros _; apply String.eqb_eq; exact E0|].
    destruct (_ || _); [intros H; rewrite H in E0; discriminate E0|].
    destruct (isLikelyJwt (trim v)); [discriminate|].
    intros H; rewrite H in E0; discriminate E0.
  - intros ->. reflexivity.
  - intros Hj. destruct (String.eqb (trim v) "") eqn:E0.
    + apply String.eqb_eq in E0. rewrite E0 in Hj. discriminate Hj.
    + destruct (includes (trim v) "next-auth.session-token="
                || includes (trim v) "__Secure-next-auth.session-token=") eqn:E1.
      * apply orb_true_iff in E1 as [E1|E1]; [exact E1|].
        apply (includes_longer _ "__Secure-"). exact E1.
      * rewrite Hj. apply jwtToCookie_includes.
Qed.

Lemma or_null_Some (cookies c : string) :
  or_null cookies = Some c -> c = cookies /\ cookies <> "".
Proof.
  unfold or_null. destruct (String.eqb cookies "") eqn:E; [discriminate|].
  intros H. injection H as <-. split; [reflexivity|]. apply String.eqb_neq. exact E.
Qed.

Lemma or_null_fixed (c : string) : c <> "" -> or_null c = Some c.
Proof. intros H. unfold or_null. apply String.eqb_neq in H. rewrite H. reflexivity. Qed.

Lemma extractTokenFromUserDefaults_Some (env : Environment) (token : string) :
  extractTokenFromUserDefaults env = Some token ->
  trim token = token /\ token <> "" /\ token <> "(null)" /\ platform env = "darwin".
Proof.
  unfold extractTokenFromUserDefaults.
  destruct (String.eqb (platform env) "darwin") eqn:Ep; [|discriminate].
  apply String.eqb_eq in Ep. cbn [negb].
  destruct (defaults_read env) as [output|]; [|discriminate].
  destruct (String.eqb (trim output) "") eqn:E1; [discriminate|].
  destruct (String.eqb (trim output) "(null)") eqn:E2; [discriminate|].
  cbn [orb]. intros H. injection H as <-.
  apply String.eqb_neq in E1. apply String.eqb_neq in E2.
  split; [apply trim_idem|]. repeat split; assumption.
Qed.

(** What [resolveCookies] returns is normalised already. *)
Lemma resolveCookies_normal (env : Environment) (c : string) :
  resolveCookies env = Some c -> c <> "" /\ normalizeCookies c = c.
Proof.
  unfold resolveCookies.
  assert (Hnorm : forall v, or_null (normalizeCookies v) = Some c ->
                            c <> "" /\ normalizeCookies c = c).
  { intros v H. apply or_null_Some in H as [-> Hne]. split; [exact Hne|].
    apply normalizeCookies_fixed. }
  destruct (PPLX_COOKIES env) as [[|x xs]|].
  2: { apply Hnorm. }
  all: destruct (cookies_file env) as [|content [|]]; try discriminate; try apply Hnorm.
  all: destruct (negb (shouldSkipDesktopToken env)); try discriminate.
  all: destruct (extractTokenFromUserDefaults env) as [token|] eqn:Et; try discriminate.
  all: intros H; injection H as <-.
  all: apply extractTokenFromUserDefaults_Some in Et as (Ht & _).
  all: split; [intros H; discriminate H|].
  all: rewrite normalizeCookies_jwtToCookie, (trim_fixed_end token Ht); reflexivity.
Qed.

(** X16: the cookies [resolveCookies] returns are never empty, have no
    white space around them and are normalised; storing them and resolving
    again (no override in PPLX_COOKIES, the file readable) gives them back. *)
Theorem resolveCookies_is_clean_and_stable (env : Environment) (c : string) :
  resolveCookies env = Some c ->
  c <> "" /\ trim c = c /\ normalizeCookies c = c
  /\ (PPLX_COOKIES env = None \/ PPLX_COOKIES env = Some "" ->
      cookies_file env = Missing \/ (exists content, cookies_file env = Present content true) ->
      resolveCookies (storeCookies c env) = Some c).
Proof.
  intros H. destruct (resolveCookies_normal env c H) as [Hne Hn].
  split; [exact Hne|]. split; [rewrite <- Hn; apply normalizeCookies_fixed|].
  split; [exact Hn|].
  intros Hv Hf. unfold resolveCookies, storeCookies. cbn [PPLX_COOKIES cookies_file with_file].
  assert (Hr : match cookies_file env with Present _ readable => readable | Missing => true end
               = true).
  { destruct Hf as [->|[content ->]]; reflexivity. }
  rewrite Hr, Hn, (or_null_fixed c Hne). destruct Hv as [->| ->]; reflexivity.
Qed.

Lemma resolveCookies_is_clean_and_stable_witness :
  resolveCookies (storeCookies "__Secure-next-auth.session-token=eyJ.abc.def" macos_with_token)
  = Some "__Secure-next-auth.session-token=eyJ.abc.def".
Proof.
  apply (resolveCookies_is_clean_and_stable macos_with_token).
  - reflexivity.
  - left. reflexivity.
  - left. reflexivity.
Defined.

(** X17: a non-empty PPLX_COOKIES decides alone: the file and the desktop
    token are not looked at.  Without it, clearing the cookies of a file that
    is there leaves nothing to resolve, desktop token or not; when no file is
    there, clearing changes nothing, so a desktop token is still borrowed. *)
Theorem clearCookies_blocks_only_an_existing_file (env : Environment) :
  (forall env' c cs, PPLX_COOKIES env = Some (String c cs) ->
     PPLX_COOKIES env' = PPLX_COOKIES env ->
     resolveCookies env' = resolveCookies env)
  /\ (forall content readable,
        PPLX_COOKIES env = None \/ PPLX_COOKIES env = Some "" ->
        cookies_file env = Present content readable ->
        resolveCookies (clearCookies true env) = None)
  /\ (forall written, cookies_file env = Missing ->
        resolveCookies (clearCookies written env) = resolveCookies env)
  /\ (forall content readable, cookies_file env = Present content readable ->
        resolveCookies (clearCookies false env) = resolveCookies env).
Proof.
  split; [|split; [|split]].
  - intros env' c cs He He'. unfold resolveCookies. rewrite He', He. reflexivity.
  - intros content readable Hv Hf. unfold clearCookies, resolveCookies. rewrite Hf.
    cbn [with_file PPLX_COOKIES cookies_file].
    destruct Hv as [->| ->]; destruct readable; reflexivity.
  - intros written Hf. unfold clearCookies. rewrite Hf. reflexivity.
  - intros content readable Hf. unfold clearCookies. rewrite Hf. reflexivity.
Qed.

(** X18: after a login that succeeds, with no override in PPLX_COOKIES and
    a cookie file that can be read, [resolveCookies] finds the session cookie
    of the token without its trailing white space; a login that needed no
    e-mail flow took the desktop token, and then these are the very cookies
    [login] returned. *)
Theorem login_then_resolveCookies (env env' : Environment) (otp : option string)
    (cookies : string) :
  login env otp = Some (cookies, env') ->
  PPLX_COOKIES env = None \/ PPLX_COOKIES env = Some "" ->
  cookies_file env = Missing \/ (exists content, cookies_file env = Present content true) ->
  (exists jwt, cookies = jwtToCookie jwt
               /\ resolveCookies env' = Some (jwtToCookie (trim_end jwt)))
  /\ (otp = None -> resolveCookies env' = Some cookies).
Proof.
  intros Hl Hv Hf.
  assert (Hstore : forall jwt,
            resolveCookies (storeCookies (jwtToCookie jwt) env)
            = Some (jwtToCookie (trim_end jwt))).
  { intros jwt. unfold resolveCookies, storeCookies.
    cbn [PPLX_COOKIES cookies_file with_file].
    assert (Hr : match cookies_file env with Present _ readable => readable | Missing => true
                 end = true).
    { destruct Hf as [->|[content ->]]; reflexivity. }
    rewrite Hr, normalizeCookies_jwtToCookie.
    rewrite (or_null_fixed (jwtToCookie (trim_end jwt))) by discriminate.
    destruct Hv as [->| ->]; reflexivity. }
  unfold login in Hl.
  destruct (if negb (shouldSkipDesktopToken env) then extractTokenFromUserDefaults env
            else None) as [token|] eqn:Et.
  - injection Hl as <- <-. split.
    + exists token. split; [reflexivity|apply Hstore].
    + intros _. rewrite Hstore.
      destruct (negb (shouldSkipDesktopToken env)); [|discriminate Et].
      apply extractTokenFromUserDefaults_Some in Et as (Ht & _).
      rewrite (trim_fixed_end token Ht). reflexivity.
  - destruct otp as [jwt|]; [|discriminate Hl]. injection Hl as <- <-. split.
    + exists jwt. split; [reflexivity|apply Hstore].
    + intros Ho. discriminate Ho.
Qed.

Lemma login_then_resolveCookies_witness :
  resolveCookies (storeCookies "__Secure-next-auth.session-token=eyJ.abc.def"
                               macos_with_token)
  = Some "__Secure-next-auth.session-token=eyJ.abc.def".
Proof.
  apply (login_then_resolveCookies macos_with_token _ None).
  - reflexivity.
  - left. reflexivity.
  - left. reflexivity.
  - reflexivity.
Defined.

Lemma includes_dot_cons (c : ascii) (s : string) :
  includes (String c s) "." = Ascii.eqb "." c || includes s ".".
Proof.
  cbn [includes startsWith]. rewrite startsWith_empty.
  destruct (Ascii.eqb "." c); reflexivity.
Qed.

Lemma split_dot_cons (c : ascii) (s : string) :
  split_dot (String c s)
  = if Ascii.eqb c "." then EmptyString :: split_dot s
    else match split_dot s with
         | part :: parts => String c part :: parts
         | [] => [String c EmptyString]
         end.
Proof. reflexivity. Qed.

Lemma split_dot_not_nil (s : string) : split_dot s <> [].
Proof.
  destruct s as [|c s]; [discriminate|]. rewrite split_dot_cons.
  destruct (Ascii.eqb c "."); [discriminate|]. destruct (split_dot s); discriminate.
Qed.

(** The first part has no dot; it is the whole text when it is the only
    part, and else a dot and the text of the other parts follow it. *)
Lemma split_dot_inv (s p : string) (ps : list string) :
  split_dot s = p :: ps ->
  includes p "." = false
  /\ match ps with
     | [] => s = p
     | _ :: _ => exists r, s = p +:+ "." +:+ r /\ split_dot r = ps
     end.
Proof.
  revert p ps. induction s as [|c s IH]; intros p ps H.
  - injection H as <- <-. split; reflexivity.
  - rewrite split_dot_cons in H. destruct (Ascii.eqb c ".") eqn:Ec.
    + apply Ascii.eqb_eq in Ec. subst c. injection H as <- <-. split; [reflexivity|].
      destruct (split_dot s) as [|q qs] eqn:Es; [destruct (split_dot_not_nil s Es)|].
      exists s. split; [reflexivity|exact Es].
    + destruct (split_dot s) as [|part parts] eqn:Es; [destruct (split_dot_not_nil s Es)|].
      injection H as <- <-. destruct (IH part parts eq_refl) as [Hnd Hrest]. split.
      * rewrite includes_dot_cons, Hnd. rewrite Ascii.eqb_sym, Ec. reflexivity.
      * destruct parts as [|q qs].
        -- rewrite Hrest. reflexivity.
        -- destruct Hrest as (r & -> & Hr). exists r. split; [reflexivity|exact Hr].
Qed.

Lemma split_dot_no_dot (s : string) : includes s "." = false -> split_dot s = [s].
Proof.
  induction s as [|c s IH]; [reflexivity|].
  rewrite includes_dot_cons, split_dot_cons. intros H.
  apply orb_false_iff in H as [Hc Hs]. rewrite Ascii.eqb_sym, Hc, (IH Hs). reflexivity.
Qed.

Lemma split_dot_app (a r : string) :
  includes a "." = false -> split_dot (a +:+ "." +:+ r) = a :: split_dot r.
Proof.
  induction a as [|c a IH]; intros H.
  - reflexivity.
  - rewrite includes_dot_cons in H. apply orb_false_iff in H as [Hc Ha].
    change (String c a +:+ "." +:+ r) with (String c (a +:+ "." +:+ r)).
    rewrite split_dot_cons, Ascii.eqb_sym, Hc, (IH Ha). reflexivity.
Qed.

Lemma length_pos (s : string) : (0 <? String.length s)%nat = true <-> s <> "".
Proof. destruct s; cbn; split; intros H; try reflexivity; try discriminate; congruence. Qed.

(** X19: [isLikelyJwt] accepts exactly the texts made of three non-empty
    parts separated by two dots, none of the parts holding a dot. *)
Theorem isLikelyJwt_three_dotted_parts (v : string) :
  isLikelyJwt v = true
  <-> exists a b c, v = a +:+ "." +:+ b +:+ "." +:+ c
        /\ a <> "" /\ b <> "" /\ c <> ""
        /\ includes a "." = false /\ includes b "." = false /\ includes c "." = false.
Proof.
  unfold isLikelyJwt. split.
  - intros H. destruct (split_dot v) as [|a [|b [|c [|d ps]]]] eqn:Es; try discriminate H.
    cbn [length Nat.eqb negb forallb] in H.
    apply andb_true_iff in H as [Ha H]. apply andb_true_iff in H as [Hb H].
    apply andb_true_iff in H as [Hc _].
    apply length_pos in Ha. apply length_pos in Hb. apply length_pos in Hc.
    destruct (split_dot_inv v a [b; c] Es) as [Hna (r1 & Hv & Es1)].
    destruct (split_dot_inv r1 b [c] Es1) as [Hnb (r2 & Hr1 & Es2)].
    destruct (split_dot_inv r2 c [] Es2) as [Hnc Hr2].
    exists a, b, c. subst r2 r1. repeat split; assumption.
  - intros (a & b & c & -> & Ha & Hb & Hc & Hna & Hnb & Hnc).
    rewrite (split_dot_app a _ Hna), (split_dot_app b _ Hnb), (split_dot_no_dot c Hnc).
    cbn [length Nat.eqb negb forallb].
    apply length_pos in Ha. apply length_pos in Hb. apply length_pos in Hc.
    rewrite Ha, Hb, Hc. reflexivity.
Qed.

(** X20: [refreshToken] never loses the token: it returns the current
    token whenever the handshake or the call fails, and otherwise either the
    current token or a non-empty string the response holds under
    perplexity_jwt (or under jwt, when perplexity_jwt is no string); an empty
    perplexity_jwt keeps the current token, whatever jwt holds. *)
Theorem refreshToken_keeps_a_token (currentJwt : string) (ready acked : Socket.Settled) :
  let refreshed := refreshToken currentJwt ready acked in
  (currentJwt <> "" -> refreshed <> "")
  /\ ((exists e, ready = Socket.Rejected e) \/ (exists e, acked = Socket.Rejected e) ->
      refreshed = currentJwt)
  /\ (refreshed = currentJwt
      \/ exists response, acked = Socket.Resolved response
           /\ (string_field response "perplexity_jwt" = Some refreshed
               \/ string_field response "perplexity_jwt" = None
                  /\ string_field response "jwt" = Some refreshed))
  /\ (forall response, acked = Socket.Resolved response ->
        string_field response "perplexity_jwt" = Some "" -> refreshed = currentJwt).
Proof.
  cbn zeta. unfold refreshToken.
  destruct ready as [r|e].
  2: { split; [intros H; exact H|]. split; [intros _; reflexivity|].
       split; [left; reflexivity|]. intros; reflexivity. }
  destruct acked as [response|e].
  2: { split; [intros H; exact H|]. split; [intros _; reflexivity|].
       split; [left; reflexivity|]. intros ? H; discriminate H. }
  destruct (string_field response "perplexity_jwt") as [[|c1 s1]|] eqn:E1.
  - split; [intros H; exact H|]. split; [intros _; reflexivity|].
    split; [left; reflexivity|]. intros; reflexivity.
  - split; [intros _; discriminate|].
    split; [intros [[e H]|[e H]]; discriminate H|].
    split; [|intros response' H; injection H as <-; rewrite E1; discriminate].
    right. exists response. split; [reflexivity|]. left. exact E1.
  - destruct (string_field response "jwt") as [[|c2 s2]|] eqn:E2.
    + split; [intros H; exact H|]. split; [intros _; reflexivity|].
      split; [left; reflexivity|]. intros; reflexivity.
    + split; [intros _; discriminate|].
      split; [intros [[e H]|[e H]]; discriminate H|].
      split; [|intros response' H; injection H as <-; rewrite E1; discriminate].
      right. exists response. split; [reflexivity|]. right. split; [exact E1|exact E2].
    + split; [intros H; exact H|]. split; [intros _; reflexivity|].
      split; [left; reflexivity|]. intros; reflexivity.
Qed.

End AuthFacts.

(** ** More on the socket *)

Module SocketMore.
Import Socket SocketInv SocketFacts SocketFrames.

Section Runs.
Variable JSON_parse : string -> option value.
Variable auth : option value.

Lemma promises_step (s : PerplexitySocket) (i : Input) (k : N) (o : Settled) :
  JsMap.get k (promises s) = Some o ->
  JsMap.get k (promises (step JSON_parse auth s i)) = Some o.
Proof.
  intros Hk. destruct i; cbn [step].
  - exact Hk.
  - unfold close, clear_pending. cbn [promises].
    destruct (reject_all_fields s) as (_ & _ & _ & _ & _ & _ & -> & _).
    apply get_reject_promises_settled. exact Hk.
  - unfold onmessage, rpc_onmessage, handshake_onmessage, send.
    repeat match goal with
           | |- context [if ?b then _ else _] => destruct b
           | |- context [match match_ack ?d with _ => _ end] => destruct (match_ack d) as [[? ?]|]
           | |- context [match JsMap.get ?a (pendingAcks s) with _ => _ end] =>
               destruct (JsMap.get a (pendingAcks s))
           end; cbn [promises]; try exact Hk; apply get_settle_settled; exact Hk.
  - unfold onclose, clear_pending. destruct (phase s =? 2)%N; cbn [promises]; [|exact Hk].
    destruct (reject_all_fields s) as (_ & _ & _ & _ & _ & _ & -> & _).
    apply get_reject_promises_settled. exact Hk.
  - exact Hk.
  - unfold timer_fires. destruct (JsMap.get handle (timers s)); cbn [promises]; [|exact Hk].
    apply get_settle_settled. exact Hk.
  - unfold connect_timer_fires. destruct (connect_timer s); exact Hk.
Qed.

Lemma is_Some_settle (ps : list (N * Settled)) (k : N) (o : Settled) :
  is_Some (JsMap.get k (settle k o ps)).
Proof.
  destruct (JsMap.get k ps) as [r|] eqn:E.
  - exists r. apply get_settle_settled. exact E.
  - exists o. apply get_settle_eq. exact E.
Qed.

Lemma none_lost_step (s : PerplexitySocket) (i : Input) :
  wf s -> none_lost s -> none_lost (step JSON_parse auth s i).
Proof.
  intros Hwf Hs k Hk Hnone.
  assert (Hkeep : (k < nextAckId s)%N -> JsMap.get k (pendingAcks s) = None ->
                  is_Some (JsMap.get k (promises (step JSON_parse auth s i)))).
  { intros Hlt Hn. destruct (Hs k Hlt Hn) as [r Hr]. exists r.
    apply promises_step. exact Hr. }
  destruct i; cbn [step] in *.
  - cbn [emitWithAck fst nextAckId pendingAcks promises] in *.
    destruct (decide (k = nextAckId s)) as [->|Hne].
    + rewrite get_set_eq in Hnone. discriminate Hnone.
    + rewrite get_set_ne in Hnone by exact Hne. apply Hs; [lia|exact Hnone].
  - destruct (reject_clear_all_pending_rejected s Hwf) as (_ & Hrej & _ & _).
    destruct (reject_all_fields s) as (Hn & _). cbv zeta in Hn.
    unfold close in *. cbn [nextAckId promises clear_pending] in *. rewrite Hn in Hk.
    destruct (JsMap.get k (pendingAcks s)) as [p|] eqn:Ep.
    + eexists. apply Hrej. eexists. exact Ep.
    + apply Hkeep; [exact Hk|reflexivity].
  - unfold onmessage in *. destruct (phase s =? 2)%N.
    + unfold rpc_onmessage, send in *.
      destruct (String.eqb data "2"); [apply Hs; assumption|].
      destruct (negb (startsWith data "43")); [apply Hs; assumption|].
      destruct (match_ack data) as [[ackId body]|]; [|apply Hs; assumption].
      destruct (JsMap.get ackId (pendingAcks s)) as [pa|] eqn:Hpa; [|apply Hs; assumption].
      destruct (wf_pending s Hwf ackId pa Hpa) as [Hpr Hti].
      cbn [nextAckId pendingAcks promises] in *. rewrite Hpr.
      destruct (decide (k = ackId)) as [->|Hne]; [apply is_Some_settle|].
      rewrite get_delete_ne in Hnone by exact Hne.
      rewrite get_settle_ne by exact Hne. apply Hs; assumption.
    + unfold handshake_onmessage, send in *.
      repeat match goal with
             | H : context [if ?c then _ else _] |- _ => destruct c
             end; apply Hs; assumption.
  - unfold onclose in *. destruct (phase s =? 2)%N; [|apply Hs; assumption].
    destruct (reject_clear_all_pending_rejected s Hwf) as (_ & Hrej & _ & _).
    destruct (reject_all_fields s) as (Hn & _). cbv zeta in Hn.
    cbn [nextAckId promises clear_pending] in *. rewrite Hn in Hk.
    destruct (JsMap.get k (pendingAcks s)) as [p|] eqn:Ep.
    + eexists. apply Hrej. eexists. exact Ep.
    + apply Hkeep; [exact Hk|reflexivity].
  - apply Hs; assumption.
  - unfold timer_fires in *.
    destruct (JsMap.get handle (timers s)) as [t|] eqn:Ht; [|apply Hs; assumption].
    pose proof (wf_timer s Hwf handle t Ht) as Hid.
    cbn [nextAckId pendingAcks promises] in *. rewrite Hid in *.
    destruct (decide (k = handle)) as [->|Hne]; [apply is_Some_settle|].
    rewrite get_delete_ne in Hnone by exact Hne.
    rewrite get_settle_ne by exact Hne. apply Hs; assumption.
  - unfold connect_timer_fires in *. destruct (connect_timer s); apply Hs; assumption.
Qed.

Lemma none_lost_run (inputs : list Input) (s : PerplexitySocket) :
  wf s -> none_lost s -> none_lost (run JSON_parse auth s inputs).
Proof.
  unfold run. revert s. induction inputs as [|i inputs IH]; intros s Hwf Hs; [exact Hs|].
  cbn [foldl]. apply IH; [apply wf_step; exact Hwf|apply none_lost_step; assumption].
Qed.

(** X21: no call is lost.  After any sequence of inputs on a new socket,
    every call handed out so far is either still pending, with its timer
    armed and its promise unsettled, or no longer pending, with its timer
    cleared and its promise settled; and an id not handed out yet is
    neither pending, nor armed, nor settled. *)
Theorem every_call_is_pending_or_settled (inputs : list Input) :
  let s := run JSON_parse auth new_socket inputs in
  (forall k, (k < nextAckId s)%N ->
     (is_Some (JsMap.get k (pendingAcks s)) /\ is_Some (JsMap.get k (timers s))
      /\ JsMap.get k (promises s) = None)
     \/ (JsMap.get k (pendingAcks s) = None /\ JsMap.get k (timers s) = None
         /\ is_Some (JsMap.get k (promises s))))
  /\ (forall k, (nextAckId s <= k)%N ->
        JsMap.get k (pendingAcks s) = None /\ JsMap.get k (timers s) = None
        /\ JsMap.get k (promises s) = None).
Proof.
  intros s.
  assert (Hwf : wf s) by (apply wf_run, wf_new_socket).
  assert (Hlost : none_lost s).
  { apply none_lost_run; [apply wf_new_socket|]. intros k Hk. cbn in Hk. lia. }
  assert (Htimer : forall k, JsMap.get k (pendingAcks s) = None ->
                             JsMap.get k (timers s) = None).
  { intros k Hn. destruct (JsMap.get k (timers s)) as [t|] eqn:Et; [|reflexivity].
    destruct (proj1 (wf_armed s Hwf k)) as [p Hp]; [eexists; exact Et|]. congruence. }
  split.
  - intros k Hk. destruct (JsMap.get k (pendingAcks s)) as [p|] eqn:Ep.
    + left. split; [eexists; reflexivity|]. split.
      * apply (wf_armed s Hwf k). eexists. exact Ep.
      * apply (wf_unsettled s Hwf k). eexists. exact Ep.
    + right. split; [reflexivity|]. split; [apply Htimer; exact Ep|].
      apply Hlost; assumption.
  - intros k Hk. destruct (wf_fresh s Hwf k Hk) as [Hp Hr].
    split; [exact Hp|]. split; [apply Htimer; exact Hp|exact Hr].
Qed.

(** X22: a call that is pending stays pending, its timer armed and its
    promise unsettled, through every input that is not a close, its own
    timeout or an ack frame carrying its own id: acks and timeouts of other
    calls do not touch it. *)
Theorem other_inputs_leave_a_call_pending (s : PerplexitySocket) (i : Input) (b : N)
    (p : Pending) :
  wf s -> JsMap.get b (pendingAcks s) = Some p ->
  i <> CallClose -> i <> WsClose -> i <> TimerFires b ->
  (forall data body, i = WsMessage data -> match_ack data <> Some (b, body)) ->
  JsMap.get b (pendingAcks (step JSON_parse auth s i)) = Some p
  /\ JsMap.get b (timers (step JSON_parse auth s i)) = JsMap.get b (timers s)
  /\ JsMap.get b (promises (step JSON_parse auth s i)) = None.
Proof.
  intros Hwf Hb Hc1 Hc2 Hc3 Hack.
  assert (Hun : JsMap.get b (promises s) = None).
  { apply (wf_unsettled s Hwf). eexists. exact Hb. }
  assert (Hlt : (b < nextAckId s)%N).
  { destruct (N.lt_ge_cases b (nextAckId s)) as [H|H]; [exact H|].
    destruct (wf_fresh s Hwf b H) as [Hn _]. congruence. }
  destruct i; cbn [step]; try congruence.
  - cbn [emitWithAck fst pendingAcks timers promises].
    rewrite !get_set_ne by lia. repeat split; assumption.
  - unfold onmessage. destruct (phase s =? 2)%N.
    + unfold rpc_onmessage, send.
      destruct (String.eqb data "2"); [repeat split; assumption|].
      destruct (negb (startsWith data "43")); [repeat split; assumption|].
      destruct (match_ack data) as [[ackId body]|] eqn:Hm; [|repeat split; assumption].
      destruct (JsMap.get ackId (pendingAcks s)) as [pa|] eqn:Hpa; [|repeat split; assumption].
      assert (Hne : b <> ackId).
      { intros ->. exact (Hack data body eq_refl Hm). }
      destruct (wf_pending s Hwf ackId pa Hpa) as [Hpr Hti].
      cbn [pendingAcks timers promises]. rewrite Hpr, Hti.
      rewrite !get_delete_ne by exact Hne. rewrite get_settle_ne by exact Hne.
      repeat split; assumption.
    + unfold handshake_onmessage, send.
      repeat match goal with |- context [if ?c then _ else _] => destruct c end;
        repeat split; assumption.
  - cbn [onerror pendingAcks timers promises]. repeat split; assumption.
  - assert (Hne : b <> handle) by congruence.
    unfold timer_fires. destruct (JsMap.get handle (timers s)) as [t|] eqn:Ht;
      [|repeat split; assumption].
    pose proof (wf_timer s Hwf handle t Ht) as Hid.
    cbn [pendingAcks timers promises]. rewrite Hid.
    rewrite !get_delete_ne by exact Hne. rewrite get_settle_ne by exact Hne.
    repeat split; assumption.
  - unfold connect_timer_fires. destruct (connect_timer s); repeat split; assumption.
Qed.

(** *** The handshake *)

Lemma join_frames_snoc (l : list Frame) (f : Frame) :
  join_frames (l ++ [f])
  = match f with
    | Join a => join_frames l ++ [a]
    | _ => join_frames l
    end.
Proof.
  unfold join_frames. rewrite omap_app. destruct f; cbn; rewrite ?app_nil_r; reflexivity.
Qed.

Lemma event_ids_snoc (l : list Frame) (f : Frame) :
  event_ids (l ++ [f])
  = match f with
    | Event ackId _ _ => event_ids l ++ [ackId]
    | _ => event_ids l
    end.
Proof.
  unfold event_ids. rewrite omap_app. destruct f; cbn; rewrite ?app_nil_r; reflexivity.
Qed.

Ltac keep := match goal with H : _ /\ _ /\ _ /\ _ |- _ => exact H end.

(** What every socket built by the constructor satisfies. *)
Lemma handshake_step (s : PerplexitySocket) (i : Input) :
  ((connect_timer s = true <-> ready s = None)
   /\ (forall r, ready s = Some (Resolved r) -> phase s = 2%N /\ r = None)
   /\ join_frames (sent s) = (if (phase s =? 0)%N then [] else [auth])
   /\ (phase s <= 2)%N) ->
  let s' := step JSON_parse auth s i in
  (connect_timer s' = true <-> ready s' = None)
  /\ (forall r, ready s' = Some (Resolved r) -> phase s' = 2%N /\ r = None)
  /\ join_frames (sent s') = (if (phase s' =? 0)%N then [] else [auth])
  /\ (phase s' <= 2)%N.
Proof.
  intros (I1 & I2 & I3 & I4). cbn zeta.
  assert (Hrej : forall e, (false = true <-> settle_ready (Rejected e) (ready s) = None)
                      /\ (forall r, settle_ready (Rejected e) (ready s) = Some (Resolved r) ->
                                    phase s = 2%N /\ r = None)).
  { intros e. unfold settle_ready. destruct (ready s) as [x|] eqn:Er.
    - split; [split; discriminate|]. intros r Hr. apply I2. exact Hr.
    - split; [split; discriminate|]. intros r Hr. discriminate Hr. }
  pose proof (conj I1 (conj I2 (conj I3 I4))) as Hall.
  destruct i; cbn [step].
  - cbn [emitWithAck fst connect_timer ready sent phase].
    rewrite join_frames_snoc. keep.
  - unfold close, clear_pending. cbn [connect_timer ready sent phase].
    destruct (reject_all_fields s) as (_ & _ & -> & -> & -> & _ & _ & -> & _).
    keep.
  - unfold onmessage. destruct (phase s =? 2)%N eqn:E2.
    + unfold rpc_onmessage, send.
      destruct (String.eqb data "2");
        [cbn [connect_timer ready sent phase]; rewrite join_frames_snoc; keep|].
      destruct (negb (startsWith data "43")); [keep|].
      destruct (match_ack data) as [[ackId body]|]; [|keep].
      destruct (JsMap.get ackId (pendingAcks s)); [|keep].
      cbn [connect_timer ready sent phase]. keep.
    + unfold handshake_onmessage, send.
      destruct (String.eqb data "2").
      { cbn [connect_timer ready sent phase]. rewrite join_frames_snoc.
        keep. }
      destruct (startsWith data "0{" && (phase s =? 0)%N) eqn:E0.
      { apply andb_true_iff in E0 as [_ E0]. rewrite E0 in I3.
        apply N.eqb_eq in E0.
        cbn [connect_timer ready sent phase]. rewrite join_frames_snoc, I3.
        split; [exact I1|]. split; [|split; [reflexivity|lia]].
        intros r Hr. destruct (I2 r Hr) as [Hp _]. lia. }
      destruct (startsWith data "40" && (phase s =? 1)%N) eqn:E1.
      { apply andb_true_iff in E1 as [_ E1]. apply N.eqb_eq in E1.
        rewrite E1 in I3. cbn [N.eqb] in I3.
        cbn [connect_timer ready sent phase].
        split; [|split; [|split; [exact I3|lia]]].
        - unfold settle_ready. destruct (ready s); split; discriminate.
        - intros r Hr. split; [reflexivity|].
          unfold settle_ready in Hr. destruct (ready s) as [x|] eqn:Er.
          + destruct (I2 r Hr) as [_ ->]. reflexivity.
          + injection Hr as <-. reflexivity. }
      destruct (startsWith data "44").
      { cbn [connect_timer ready sent phase].
        destruct (Hrej (ConnectError (slice_from 2 data))) as [H1 H2].
        split; [exact H1|]. split; [exact H2|]. split; assumption. }
      keep.
  - unfold onclose, clear_pending. destruct (phase s =? 2)%N.
    + cbn [connect_timer ready sent phase].
      destruct (reject_all_fields s) as (_ & _ & -> & -> & -> & _ & _ & -> & _).
      keep.
    + cbn [connect_timer ready sent phase].
      destruct (Hrej ClosedDuringHandshake) as [H1 H2].
      split; [exact H1|]. split; [exact H2|]. split; assumption.
  - cbn [onerror connect_timer ready sent phase].
    destruct (Hrej WebSocketError) as [H1 H2].
    split; [exact H1|]. split; [exact H2|]. split; assumption.
  - unfold timer_fires. destruct (JsMap.get handle (timers s));
      cbn [connect_timer ready sent phase]; keep.
  - unfold connect_timer_fires. destruct (connect_timer s) eqn:Ec.
    + cbn [connect_timer ready sent phase].
      destruct (Hrej ConnectionTimeout) as [H1 H2].
      split; [exact H1|]. split; [exact H2|]. split; assumption.
    + rewrite Ec. keep.
Qed.

(** X23: on every socket the constructor builds, whatever happens to it:
    the connect timeout is armed exactly while [ready()] is unsettled;
    [ready()] resolves only once the join is acknowledged; and the socket
    sends no join frame before the server's open packet and exactly one from
    then on, carrying the auth payload. *)
Theorem handshake_invariant (inputs : list Input) :
  let s := run JSON_parse auth new_socket inputs in
  (connect_timer s = true <-> ready s = None)
  /\ (forall r, ready s = Some (Resolved r) -> phase s = 2%N /\ r = None)
  /\ join_frames (sent s) = (if (phase s =? 0)%N then [] else [auth])
  /\ (phase s <= 2)%N.
Proof.
  cbn zeta. unfold run.
  assert (Hgen : forall s,
            ((connect_timer s = true <-> ready s = None)
             /\ (forall r, ready s = Some (Resolved r) -> phase s = 2%N /\ r = None)
             /\ join_frames (sent s) = (if (phase s =? 0)%N then [] else [auth])
             /\ (phase s <= 2)%N) ->
            let s' := foldl (step JSON_parse auth) s inputs in
            (connect_timer s' = true <-> ready s' = None)
            /\ (forall r, ready s' = Some (Resolved r) -> phase s' = 2%N /\ r = None)
            /\ join_frames (sent s') = (if (phase s' =? 0)%N then [] else [auth])
            /\ (phase s' <= 2)%N).
  { induction inputs as [|i inputs IH]; intros s Hs; [exact Hs|].
    cbn [foldl]. apply IH. apply (handshake_step s i Hs). }
  apply Hgen. cbn. repeat split; try discriminate; try lia.
Qed.

(** *** Ack ids *)

Lemma ack_ids_step (s : PerplexitySocket) (i : Input) :
  event_ids (sent s) = N.of_nat <$> seq 0 (N.to_nat (nextAckId s)) ->
  event_ids (sent (step JSON_parse auth s i))
  = N.of_nat <$> seq 0 (N.to_nat (nextAckId (step JSON_parse auth s i))).
Proof.
  intros Hs. destruct i; cbn [step].
  - cbn [emitWithAck fst sent nextAckId]. rewrite event_ids_snoc, Hs.
    rewrite N2Nat.inj_succ, seq_S, fmap_app. cbn. rewrite N2Nat.id. reflexivity.
  - unfold close, clear_pending. cbn [sent nextAckId].
    destruct (reject_all_fields s) as (-> & _ & _ & _ & _ & _ & _ & -> & _). exact Hs.
  - unfold onmessage, rpc_onmessage, handshake_onmessage, send.
    repeat match goal with
           | |- context [if ?b then _ else _] => destruct b
           | |- context [match match_ack ?d with _ => _ end] =>
               destruct (match_ack d) as [[? ?]|]
           | |- context [match JsMap.get ?a (pendingAcks s) with _ => _ end] =>
               destruct (JsMap.get a (pendingAcks s))
           end; cbn [sent nextAckId]; rewrite ?event_ids_snoc; exact Hs.
  - unfold onclose, clear_pending. destruct (phase s =? 2)%N; cbn [sent nextAckId].
    + destruct (reject_all_fields s) as (-> & _ & _ & _ & _ & _ & _ & -> & _). exact Hs.
    + exact Hs.
  - exact Hs.
  - unfold timer_fires. destruct (JsMap.get handle (timers s)); exact Hs.
  - unfold connect_timer_fires. destruct (connect_timer s); exact Hs.
Qed.

(** X24: the calls of a socket are numbered 0, 1, 2, ... in the order they
    are made and their event frames go out in that order: the ids of the
    event frames sent so far are exactly the ids handed out so far, whatever
    acks, timeouts or closes came in between (an id is never reused, not
    even after [close()]). *)
Theorem ack_ids_count_the_calls (inputs : list Input) (event : string) (data : value)
    (timeoutMs : option Z) :
  let s := run JSON_parse auth new_socket inputs in
  event_ids (sent s) = N.of_nat <$> seq 0 (N.to_nat (nextAckId s))
  /\ (snd (emitWithAck s event data timeoutMs) ∉ event_ids (sent s))
  /\ event_ids (sent (emitWithAck s event data timeoutMs).1)
     = event_ids (sent s) ++ [snd (emitWithAck s event data timeoutMs)].
Proof.
  cbn zeta.
  assert (Hids : forall s0,
            event_ids (sent s0) = N.of_nat <$> seq 0 (N.to_nat (nextAckId s0)) ->
            event_ids (sent (run JSON_parse auth s0 inputs))
            = N.of_nat <$> seq 0 (N.to_nat (nextAckId (run JSON_parse auth s0 inputs)))).
  { unfold run. induction inputs as [|i inputs' IH]; intros s0 Hs0; [exact Hs0|].
    cbn [foldl]. apply IH. apply ack_ids_step. exact Hs0. }
  specialize (Hids new_socket eq_refl).
  split; [exact Hids|]. split.
  - rewrite Hids. cbn [emitWithAck snd]. intros Hin.
    apply list_elem_of_fmap in Hin as (n & Hn & Hin). apply elem_of_seq in Hin. lia.
  - cbn [emitWithAck fst snd sent]. apply event_ids_snoc.
Qed.

(** X25: once the join is acknowledged, an ack frame whose id is pending
    ends that call: the call is no longer pending, its timer is cleared, and
    its promise is settled from the text after the id: resolved with
    [undefined] when there is none, rejected as malformed when the text is
    not JSON, and else resolved with the first element of the array (or the
    value itself when it is no array), unless that is an object with an
    [error] property, which rejects. *)
Theorem ack_frame_settles_its_call (s : PerplexitySocket) (data body : string) (b : N)
    (p : Pending) :
  wf s -> phase s = 2%N ->
  match_ack data = Some (b, body) ->
  JsMap.get b (pendingAcks s) = Some p ->
  let s' := step JSON_parse auth s (WsMessage data) in
  JsMap.get b (pendingAcks s') = None
  /\ JsMap.get b (timers s') = None
  /\ (body = "" -> JsMap.get b (promises s') = Some (Resolved None))
  /\ (body <> "" -> JSON_parse body = None ->
      JsMap.get b (promises s') = Some (Rejected (MalformedAck b)))
  /\ (forall payload, body <> "" -> JSON_parse body = Some payload ->
      let result := match payload with
                    | VArr items => head items
                    | _ => Some payload
                    end in
      JsMap.get b (promises s')
      = Some match rpc_error_of result with
             | Some message => Rejected (RpcFailure message)
             | None => Resolved result
             end).
Proof.
  intros Hwf Hph Hm Hb. cbn zeta. cbn [step]. unfold onmessage.
  rewrite Hph. cbn [N.eqb Pos.eqb]. unfold rpc_onmessage.
  destruct (match_ack_inv data body b Hm) as (c & rest & Hdata).
  assert (H2 : String.eqb data "2" = false) by (rewrite Hdata; reflexivity).
  assert (H43 : startsWith data "43" = true) by (rewrite Hdata; reflexivity).
  rewrite H2, H43, Hm, Hb. cbn [negb].
  destruct (wf_pending s Hwf b p Hb) as [Hpr Hti].
  assert (Hun : JsMap.get b (promises s) = None).
  { apply (wf_unsettled s Hwf). eexists. exact Hb. }
  cbn [pendingAcks timers promises]. rewrite Hpr, Hti.
  split; [apply get_delete_eq, (wf_pending_keys s Hwf)|].
  split; [apply get_delete_eq, (wf_timer_keys s Hwf)|].
  split; [|split].
  - intros ->. cbn [String.eqb]. apply get_settle_eq. exact Hun.
  - intros Hne Hp. apply String.eqb_neq in Hne. rewrite Hne, Hp.
    apply get_settle_eq. exact Hun.
  - intros payload Hne Hp. apply String.eqb_neq in Hne. rewrite Hne, Hp. cbn [option_map].
    rewrite (get_settle_eq _ _ _ Hun). destruct payload; reflexivity.
Qed.

End Runs.

(** Two calls, then the timeout of the first: the first is settled and no
    longer pending, the second is still pending. *)
Lemma every_call_is_pending_or_settled_witness :
  let s := run Json.JSON_parse None new_socket (two_pending_inputs ++ [TimerFires 0%N]) in
  (JsMap.get 0%N (pendingAcks s) = None /\ JsMap.get 0%N (timers s) = None
   /\ is_Some (JsMap.get 0%N (promises s)))
  /\ (is_Some (JsMap.get 1%N (pendingAcks s)) /\ is_Some (JsMap.get 1%N (timers s))
      /\ JsMap.get 1%N (promises s) = None).
Proof.
  intros s.
  destruct (every_call_is_pending_or_settled Json.JSON_parse None
              (two_pending_inputs ++ [TimerFires 0%N])) as [Hcalls _].
  fold s in Hcalls. split.
  - destruct (Hcalls 0%N eq_refl) as [([p Hp] & _)|Hsettled]; [|exact Hsettled].
    vm_compute in Hp. discriminate Hp.
  - destruct (Hcalls 1%N eq_refl) as [Hpending|(Hp & _)]; [exact Hpending|].
    vm_compute in Hp. discriminate Hp.
Defined.

(** The handshake, then one call, answered with an array. *)
Lemma ack_frame_settles_its_call_witness :
  JsMap.get 0%N
    (promises (step Json.JSON_parse None
                 (run Json.JSON_parse None new_socket
                      [WsMessage "0{}"; WsMessage "40";
                       CallEmitWithAck "refreshJWT" VNull None])
                 (WsMessage "430[1]")))
  = Some (Resolved (Some (VNum 1))).
Proof.
  pose proof (ack_frame_settles_its_call Json.JSON_parse None
                (run Json.JSON_parse None new_socket
                     [WsMessage "0{}"; WsMessage "40";
                      CallEmitWithAck "refreshJWT" VNull None])
                "430[1]" "[1]" 0%N {| promise := 0; timer := 0 |}) as H.
  destruct H as (_ & _ & _ & _ & H).
  - apply wf_run, wf_new_socket.
  - reflexivity.
  - reflexivity.
  - reflexivity.
  - apply (H (VArr [VNum 1])); [discriminate|reflexivity].
Defined.

(** Two calls pending: the ack of the first leaves the second pending. *)
Lemma other_inputs_leave_a_call_pending_witness :
  JsMap.get 1%N
    (pendingAcks (step Json.JSON_parse None
                    (run Json.JSON_parse None new_socket two_pending_inputs)
                    (WsMessage "430[1]")))
  = Some {| promise := 1; timer := 1 |}.
Proof.
  apply (other_inputs_leave_a_call_pending Json.JSON_parse None
           (run Json.JSON_parse None new_socket two_pending_inputs)
           (WsMessage "430[1]") 1%N {| promise := 1; timer := 1 |}).
  - apply wf_run, wf_new_socket.
  - reflexivity.
  - discriminate.
  - discriminate.
  - discriminate.
  - intros data body Hd. injection Hd as <-. vm_compute. discriminate.
Defined.

End SocketMore.
(** ** The streaming writer *)

Module LayoutFacts.
Import Layout.

Section Writer.
Variable stringWidth : string -> Z.

#[local] Abbreviation write_char := (Layout.write_char stringWidth).
#[local] Abbreviation write := (Layout.write stringWidth).
#[local] Abbreviation line_width := (Layout.line_width stringWidth).

Lemma write_cons (st : StreamWriter * list Written) (c : ascii) (text : string) :
  write st (String c text) = write (write_char st c) text.
Proof. reflexivity. Qed.

(** Writing a text in two pieces is writing it whole. *)
Lemma write_app (st : StreamWriter * list Written) (a b : string) :
  write st (a +:+ b) = write (write st a) b.
Proof.
  revert st. induction a as [|c a IH]; intros st; [reflexivity|].
  change (String c a +:+ b) with (String c (a +:+ b)). rewrite !write_cons. apply IH.
Qed.

Lemma lines_of_snoc (out : list Written) (w : Written) :
  lines_of (out ++ [w]) = add_written (lines_of out) w.
Proof. unfold lines_of. rewrite foldl_app. reflexivity. Qed.

Lemma line_width_snoc (line : list ascii) (c : ascii) :
  line_width (line ++ [c]) = (line_width line + stringWidth (String c EmptyString))%Z.
Proof.
  unfold Layout.line_width. induction line as [|d line IH]; cbn [app foldr]; [lia|].
  rewrite IH. lia.
Qed.

Lemma styles_of_snoc (out : list Written) (w : Written) :
  styles_of (out ++ [w])
  = match w with
    | WriteAnsi sequence =>
        if String.eqb sequence RESET then "" else styles_of out +:+ sequence
    | _ => styles_of out
    end.
Proof. unfold styles_of. rewrite foldl_app. reflexivity. Qed.

Lemma unwrapped_app (out1 out2 : list Written) :
  unwrapped (out1 ++ out2) = unwrapped out1 +:+ unwrapped out2.
Proof.
  unfold unwrapped. induction out1 as [|w out1 IH]; [reflexivity|].
  cbn [app foldr]. rewrite IH. destruct w; try reflexivity.
  symmetry. apply append_assoc.
Qed.

(** *** Line width *)

Lemma width_write_char (st : StreamWriter * list Written) (c : ascii) :
  width (write_char st c).1 = width st.1 /\ prefix (write_char st c).1 = prefix st.1.
Proof.
  destruct st as [this out]. unfold Layout.write_char, wrap.
  destruct (inAnsi this); [destruct (Ascii.eqb c "m"); split; reflexivity|].
  destruct (Ascii.eqb c ESC); [split; reflexivity|].
  destruct (Ascii.eqb c LF); [split; reflexivity|].
  destruct (width this <? col this + stringWidth (String c EmptyString))%Z; split; reflexivity.
Qed.

(** What [write] keeps about the lines. *)
Lemma lines_write_char (st : StreamWriter * list Written) (c : ascii) :
  (col st.1 = line_width (lines_of st.2).2
   /\ Forall (fun line => (line_width line <= width st.1)%Z \/ length line <= 1)
             ((lines_of st.2).1 ++ [(lines_of st.2).2])) ->
  let st' := write_char st c in
  col st'.1 = line_width (lines_of st'.2).2
  /\ Forall (fun line => (line_width line <= width st'.1)%Z \/ length line <= 1)
            ((lines_of st'.2).1 ++ [(lines_of st'.2).2]).
Proof.
  destruct st as [this out]. cbn [fst snd]. intros [Hcol Hfit]. cbn zeta.
  assert (Hwrapped : forall c0,
            Forall (fun line => (line_width line <= width this)%Z \/ length line <= 1)
                   (((lines_of out).1 ++ [(lines_of out).2]) ++ [[c0]])).
  { intros c0. apply Forall_app. split; [exact Hfit|].
    apply Forall_singleton. right. cbn. lia. }
  unfold Layout.write_char, wrap.
  destruct (inAnsi this).
  { destruct (Ascii.eqb c "m"); cbn [fst snd col width].
    - rewrite lines_of_snoc. cbn [add_written]. split; assumption.
    - split; assumption. }
  destruct (Ascii.eqb c ESC); [cbn [fst snd col width]; split; assumption|].
  destruct (Ascii.eqb c LF).
  { cbn [fst snd col width]. rewrite lines_of_snoc. cbn [add_written fst snd].
    split; [reflexivity|]. apply Forall_app. split; [exact Hfit|].
    apply Forall_singleton. right. cbn. lia. }
  destruct (width this <? col this + stringWidth (String c EmptyString))%Z eqn:Ew;
    cbn [fst snd col width].
  - rewrite !lines_of_snoc. cbn [add_written fst snd app].
    split; [cbn; lia|]. apply Hwrapped.
  - apply Z.ltb_ge in Ew. rewrite lines_of_snoc. cbn [add_written fst snd].
    rewrite line_width_snoc. split; [lia|].
    apply Forall_app in Hfit as [Hdone _]. apply Forall_app. split; [exact Hdone|].
    apply Forall_singleton. left. rewrite line_width_snoc. lia.
Qed.

Lemma lines_write (text : string) (st : StreamWriter * list Written) :
  (col st.1 = line_width (lines_of st.2).2
   /\ Forall (fun line => (line_width line <= width st.1)%Z \/ length line <= 1)
             ((lines_of st.2).1 ++ [(lines_of st.2).2])) ->
  let st' := write st text in
  width st'.1 = width st.1
  /\ col st'.1 = line_width (lines_of st'.2).2
  /\ Forall (fun line => (line_width line <= width st'.1)%Z \/ length line <= 1)
            ((lines_of st'.2).1 ++ [(lines_of st'.2).2]).
Proof.
  revert st. induction text as [|c text IH]; intros st Hst; cbn zeta.
  - split; [reflexivity|exact Hst].
  - rewrite write_cons.
    destruct (IH (write_char st c) (lines_write_char st c Hst)) as (Hw & Hrest).
    split; [|exact Hrest]. rewrite Hw. apply width_write_char.
Qed.

(** X26: whatever texts are written, in however many calls, every line the
    writer has put out (the one being written too) takes at most [width]
    columns, or holds at most one character (a character wider than the line
    stands alone); and [col] is the width of the line being written.  So when the width is
    not negative and no character is wider than it, no line is. *)
Theorem written_lines_fit_the_width (columns : option Z) (prefix0 : string)
    (texts : list string) :
  let st := foldl write (new_writer stringWidth columns prefix0, []) texts in
  let lines := (lines_of st.2).1 ++ [(lines_of st.2).2] in
  width st.1 = (terminalWidth columns - stringWidth prefix0 - 1)%Z
  /\ col st.1 = line_width (lines_of st.2).2
  /\ Forall (fun line => (line_width line <= width st.1)%Z \/ length line <= 1) lines
  /\ ((0 <= width st.1)%Z ->
      (forall c, (stringWidth (String c EmptyString) <= width st.1)%Z) ->
      Forall (fun line => (line_width line <= width st.1)%Z) lines).
Proof.
  cbn zeta.
  assert (Hgen : forall st0,
            (col st0.1 = line_width (lines_of st0.2).2
             /\ Forall (fun line => (line_width line <= width st0.1)%Z \/ length line <= 1)
                       ((lines_of st0.2).1 ++ [(lines_of st0.2).2])) ->
            let st := foldl write st0 texts in
            width st.1 = width st0.1
            /\ col st.1 = line_width (lines_of st.2).2
            /\ Forall (fun line => (line_width line <= width st.1)%Z \/ length line <= 1)
                      ((lines_of st.2).1 ++ [(lines_of st.2).2])).
  { induction texts as [|text texts' IH]; intros st0 Hst0; cbn zeta.
    - split; [reflexivity|exact Hst0].
    - cbn [foldl]. destruct (lines_write text st0 Hst0) as (Hw & Hrest).
      destruct (IH (write st0 text) Hrest) as (Hw' & Hrest').
      split; [|exact Hrest']. rewrite Hw', Hw. reflexivity. }
  destruct (Hgen (new_writer stringWidth columns prefix0, [])) as (Hw & Hcol & Hfit).
  { cbn. split; [reflexivity|]. apply Forall_singleton. right. cbn. lia. }
  split; [exact Hw|]. split; [exact Hcol|]. split; [exact Hfit|].
  intros Hpos Hchars. eapply Forall_impl; [exact Hfit|].
  intros line [H|H]; [exact H|].
  destruct line as [|c [|d line]]; cbn [length] in H; try lia.
  - cbn. exact Hpos.
  - specialize (Hchars c). cbn. lia.
Qed.

(** *** Styles *)

Lemma styles_write_char (st : StreamWriter * list Written) (c : ascii) :
  (activeAnsi st.1 = styles_of st.2
   /\ forall i a, st.2 !! i = Some (WriteWrap a) -> a = styles_of (take i st.2)) ->
  let st' := write_char st c in
  activeAnsi st'.1 = styles_of st'.2
  /\ forall i a, st'.2 !! i = Some (WriteWrap a) -> a = styles_of (take i st'.2).
Proof.
  destruct st as [this out]. cbn [fst snd]. intros [Hact Hwraps]. cbn zeta.
  assert (Hsnoc : forall w,
            (forall a, w = WriteWrap a -> a = styles_of out) ->
            forall i a, (out ++ [w]) !! i = Some (WriteWrap a) ->
                        a = styles_of (take i (out ++ [w]))).
  { intros w Hw i a Hi. destruct (decide (i < length out)) as [Hlt|Hge].
    - rewrite lookup_app_l in Hi by exact Hlt.
      rewrite take_app_le by lia. apply Hwraps. exact Hi.
    - rewrite lookup_app_r in Hi by lia.
      destruct (i - length out) as [|k] eqn:Ek; [|destruct k; discriminate Hi].
      injection Hi as ->. assert (i = length out) as -> by lia.
      rewrite take_app_length. apply Hw. reflexivity. }
  assert (Hsnoc2 : forall w1 w2,
            (forall a, w1 = WriteWrap a -> a = styles_of out) ->
            (forall a, w2 = WriteWrap a -> False) ->
            forall i a, ((out ++ [w1]) ++ [w2]) !! i = Some (WriteWrap a) ->
                        a = styles_of (take i ((out ++ [w1]) ++ [w2]))).
  { intros w1 w2 Hw1 Hw2 i a Hi.
    destruct (decide (i < length (out ++ [w1]))) as [Hlt|Hge].
    - rewrite lookup_app_l in Hi by exact Hlt.
      rewrite take_app_le by lia. apply (Hsnoc w1 Hw1). exact Hi.
    - rewrite lookup_app_r in Hi by lia.
      destruct (i - length (out ++ [w1])) as [|k]; [|destruct k; discriminate Hi].
      injection Hi as Hi. destruct (Hw2 a Hi). }
  unfold Layout.write_char, wrap.
  destruct (inAnsi this).
  { destruct (Ascii.eqb c "m"); cbn [fst snd activeAnsi].
    - rewrite styles_of_snoc, Hact. split; [reflexivity|].
      apply Hsnoc. intros a Ha. discriminate Ha.
    - split; assumption. }
  destruct (Ascii.eqb c ESC); [cbn [fst snd activeAnsi]; split; assumption|].
  destruct (Ascii.eqb c LF).
  { cbn [fst snd activeAnsi]. rewrite styles_of_snoc. split; [exact Hact|].
    apply Hsnoc. intros a Ha. injection Ha as <-. exact Hact. }
  destruct (width this <? col this + stringWidth (String c EmptyString))%Z;
    cbn [fst snd activeAnsi].
  - rewrite !styles_of_snoc. split; [exact Hact|].
    apply Hsnoc2; [intros a Ha; injection Ha as <-; exact Hact|intros a Ha; discriminate Ha].
  - rewrite styles_of_snoc. split; [exact Hact|].
    apply Hsnoc. intros a Ha. discriminate Ha.
Qed.

(** X27: the styles the writer holds are those of the escape sequences it
    has written since the last reset, and every line break of [wrap()]
    emits exactly the styles in force at that point again. *)
Theorem wraps_restore_the_active_styles (columns : option Z) (prefix0 : string)
    (texts : list string) :
  let st := foldl write (new_writer stringWidth columns prefix0, []) texts in
  activeAnsi st.1 = styles_of st.2
  /\ (forall i a, st.2 !! i = Some (WriteWrap a) -> a = styles_of (take i st.2))
  /\ (forall i a, st.2 !! i = Some (WriteWrap a) ->
        written_text st.1 (WriteWrap a)
        = RESET +:+ String LF EmptyString +:+ prefix0 +:+ styles_of (take i st.2)).
Proof.
  cbn zeta.
  assert (Hchars : forall text st0,
            (activeAnsi st0.1 = styles_of st0.2
             /\ forall i a, st0.2 !! i = Some (WriteWrap a) -> a = styles_of (take i st0.2)) ->
            (activeAnsi (write st0 text).1 = styles_of (write st0 text).2
             /\ forall i a, (write st0 text).2 !! i = Some (WriteWrap a) ->
                            a = styles_of (take i (write st0 text).2))
            /\ prefix (write st0 text).1 = prefix st0.1).
  { induction text as [|c text IH]; intros st0 Hst0; [split; [exact Hst0|reflexivity]|].
    rewrite write_cons.
    destruct (IH (write_char st0 c) (styles_write_char st0 c Hst0)) as [H1 H2].
    split; [exact H1|]. rewrite H2. apply width_write_char. }
  assert (Hgen : forall st0,
            (activeAnsi st0.1 = styles_of st0.2
             /\ forall i a, st0.2 !! i = Some (WriteWrap a) -> a = styles_of (take i st0.2)) ->
            (activeAnsi (foldl write st0 texts).1 = styles_of (foldl write st0 texts).2
             /\ forall i a, (foldl write st0 texts).2 !! i = Some (WriteWrap a) ->
                            a = styles_of (take i (foldl write st0 texts).2))
            /\ prefix (foldl write st0 texts).1 = prefix st0.1).
  { induction texts as [|text texts' IH]; intros st0 Hst0; [split; [exact Hst0|reflexivity]|].
    cbn [foldl]. destruct (Hchars text st0 Hst0) as [H1 H2].
    destruct (IH (write st0 text) H1) as [H3 H4].
    split; [exact H3|]. rewrite H4. exact H2. }
  destruct (Hgen (new_writer stringWidth columns prefix0, [])) as ([Hact Hwraps] & Hprefix).
  { split; [reflexivity|]. intros i a Hi. discriminate Hi. }
  split; [exact Hact|]. split; [exact Hwraps|].
  intros i a Hi. cbn [written_text]. rewrite Hprefix, (Hwraps i a Hi). reflexivity.
Qed.

(** *** Content *)

Lemma content_write_char (st : StreamWriter * list Written) (c : ascii) (seen : string) :
  Ascii.eqb c LF = false ->
  (inAnsi st.1 = false -> ansiBuffer st.1 = "") ->
  unwrapped st.2 +:+ ansiBuffer st.1 = seen ->
  let st' := write_char st c in
  (inAnsi st'.1 = false -> ansiBuffer st'.1 = "")
  /\ unwrapped st'.2 +:+ ansiBuffer st'.1 = seen +:+ String c EmptyString.
Proof.
  destruct st as [this out]. cbn [fst snd]. intros Hc Hbuf Hseen. cbn zeta.
  unfold Layout.write_char, wrap. rewrite Hc.
  destruct (inAnsi this) eqn:Hin.
  { destruct (Ascii.eqb c "m"); cbn [fst snd inAnsi ansiBuffer].
    - split; [reflexivity|]. rewrite unwrapped_app. cbn [unwrapped foldr].
      rewrite !append_nil_r, <- append_assoc, Hseen. reflexivity.
    - split; [discriminate|]. rewrite <- append_assoc, Hseen. reflexivity. }
  specialize (Hbuf eq_refl). rewrite Hbuf, append_nil_r in Hseen.
  destruct (Ascii.eqb c ESC); cbn [fst snd inAnsi ansiBuffer].
  { split; [discriminate|]. rewrite Hseen. reflexivity. }
  destruct (width this <? col this + stringWidth (String c EmptyString))%Z;
    cbn [fst snd inAnsi ansiBuffer]; rewrite ?Hin, ?Hbuf.
  - split; [reflexivity|]. rewrite !unwrapped_app. cbn [unwrapped foldr].
    rewrite !append_nil_r, Hseen. reflexivity.
  - split; [reflexivity|]. rewrite unwrapped_app. cbn [unwrapped foldr].
    rewrite !append_nil_r, Hseen. reflexivity.
Qed.

Lemma content_write (text : string) (st : StreamWriter * list Written) (seen : string) :
  no_line_feed text = true ->
  (inAnsi st.1 = false -> ansiBuffer st.1 = "") ->
  unwrapped st.2 +:+ ansiBuffer st.1 = seen ->
  (inAnsi (write st text).1 = false -> ansiBuffer (write st text).1 = "")
  /\ unwrapped (write st text).2 +:+ ansiBuffer (write st text).1 = seen +:+ text.
Proof.
  revert st seen. induction text as [|c text IH]; intros st seen Hlf Hbuf Hseen.
  - rewrite append_nil_r. split; assumption.
  - unfold no_line_feed in Hlf. cbn [String.list_ascii_of_string forallb] in Hlf.
    apply andb_true_iff in Hlf as [Hc Hlf]. apply negb_true_iff in Hc.
    rewrite write_cons.
    destruct (content_write_char st c seen Hc Hbuf Hseen) as [H1 H2].
    destruct (IH (write_char st c) (seen +:+ String c EmptyString) Hlf H1 H2) as [H3 H4].
    split; [exact H3|]. rewrite H4, append_assoc. reflexivity.
Qed.

(** X28: nothing is lost in the writer: for a text without line feeds,
    written in two calls cut anywhere (inside an escape sequence too) and
    flushed, what reaches the terminal is, the line breaks of [wrap()] left
    out, the text itself; and writing in two calls leaves the writer and the
    terminal as writing the whole text at once does. *)
Theorem written_text_is_the_input (columns : option Z) (prefix0 a b : string) :
  no_line_feed (a +:+ b) = true ->
  let st := write (write (new_writer stringWidth columns prefix0, []) a) b in
  unwrapped (flush st).2 = a +:+ b
  /\ st = write (new_writer stringWidth columns prefix0, []) (a +:+ b).
Proof.
  intros Hlf. cbn zeta. rewrite <- write_app. split; [|reflexivity].
  destruct (content_write (a +:+ b) (new_writer stringWidth columns prefix0, []) ""
              Hlf (fun _ => eq_refl) eq_refl) as [Hbuf Hseen].
  change ("" +:+ (a +:+ b)) with (a +:+ b) in Hseen.
  destruct (write (new_writer stringWidth columns prefix0, []) (a +:+ b)) as [this out].
  cbn [fst snd] in *. unfold flush.
  destruct (String.eqb (ansiBuffer this) "") eqn:E.
  - apply String.eqb_eq in E. rewrite E, append_nil_r in Hseen. exact Hseen.
  - cbn [snd]. rewrite unwrapped_app. cbn [unwrapped foldr]. rewrite append_nil_r.
    exact Hseen.
Qed.

End Writer.

(** A styled word, cut inside its first escape sequence. *)
Lemma written_text_is_the_input_witness :
  unwrapped (flush (Layout.write (fun _ => 1%Z)
                      (Layout.write (fun _ => 1%Z)
                         (new_writer (fun _ => 1%Z) (Some 5%Z) "", [])
                         (String ESC "[1"))
                      ("mbold" +:+ String ESC "[0m"))).2
  = String ESC "[1" +:+ ("mbold" +:+ String ESC "[0m").
Proof.
  apply (written_text_is_the_input (fun _ => 1%Z) (Some 5%Z) ""
           (String ESC "[1") ("mbold" +:+ String ESC "[0m")).
  reflexivity.
Defined.

End LayoutFacts.

(** ** Chat commands *)

Module ChatFacts.
Import Chat.

Lemma valid_setting_update (o : obj) (k key : string) (v : value) (values : list string)
    (nullable : bool) :
  valid_setting o key values nullable = true ->
  (k = key -> match v with
              | VStr x => one_of values x = true
              | VNull => nullable = true
              | _ => False
              end) ->
  valid_setting ({[ k := v ]} ∪ o) key values nullable = true.
Proof.
  intros Ho Hv. unfold valid_setting in *. rewrite lookup_union.
  destruct (decide (k = key)) as [->|Hne].
  - rewrite lookup_singleton_eq. specialize (Hv eq_refl).
    destruct (o !! key); cbn; destruct v; try exact Hv; try destruct Hv.
  - rewrite lookup_singleton_ne by exact Hne.
    destruct (o !! key) as [x|]; cbn; [exact Ho|reflexivity].
Qed.

Lemma valid_settings_update (o : obj) (k : string) (v : value) :
  valid_settings o = true ->
  (k = "focus" -> exists x, v = VStr x /\ one_of FOCUS_VALUES x = true) ->
  (k = "mode" -> exists x, v = VStr x /\ one_of MODE_VALUES x = true) ->
  (k = "recency" -> v = VNull \/ exists x, v = VStr x /\ one_of RECENCY_VALUES x = true) ->
  valid_settings ({[ k := v ]} ∪ o) = true.
Proof.
  unfold valid_settings. intros Ho Hf Hm Hr.
  apply andb_true_iff in Ho as [Ho Ho3]. apply andb_true_iff in Ho as [Ho1 Ho2].
  rewrite !andb_true_iff. split; [split|]; (apply valid_setting_update; [assumption|]).
  - intros Hk. destruct (Hf Hk) as (x & -> & Hx). exact Hx.
  - intros Hk. destruct (Hm Hk) as (x & -> & Hx). exact Hx.
  - intros Hk. destruct (Hr Hk) as [->|(x & -> & Hx)]; [reflexivity|exact Hx].
Qed.

(** The settings of a session: its own defaults and the thread's. *)
Lemma updateDefaults_valid (s : Session) (k : string) (v : value) :
  (valid_settings (session_defaults s) = true
   /\ valid_settings (Thread.defaults (session_thread s)) = true) ->
  (k = "focus" -> exists x, v = VStr x /\ one_of FOCUS_VALUES x = true) ->
  (k = "mode" -> exists x, v = VStr x /\ one_of MODE_VALUES x = true) ->
  (k = "recency" -> v = VNull \/ exists x, v = VStr x /\ one_of RECENCY_VALUES x = true) ->
  valid_settings (session_defaults (updateDefaults s {[ k := v ]})) = true
  /\ valid_settings (Thread.defaults (session_thread (updateDefaults s {[ k := v ]}))) = true.
Proof.
  intros [H1 H2] Hf Hm Hr. unfold updateDefaults, Thread.updateDefaults.
  cbn [session_defaults session_thread Thread.defaults].
  split; apply valid_settings_update; assumption.
Qed.

Lemma handleCommand_valid (input uuid : string) (s : Session) :
  (valid_settings (session_defaults s) = true
   /\ valid_settings (Thread.defaults (session_thread s)) = true) ->
  let s' := (handleCommand input s uuid).1.2 in
  (valid_settings (session_defaults s') = true
   /\ valid_settings (Thread.defaults (session_thread s')) = true)
  /\ ((handleCommand input s uuid).1.1 = true -> s' = s)
  /\ (Thread.threadId (session_thread s') = Thread.threadId (session_thread s)
      /\ Thread.lastEntryId (session_thread s') = Thread.lastEntryId (session_thread s)
      \/ default "" (head (split_spaces (slice_from 1 input))) = "new"
         /\ Thread.threadId (session_thread s') = uuid
         /\ Thread.lastEntryId (session_thread s') = None).
Proof.
  intros Hs. cbn zeta. unfold handleCommand.
  set (command := default "" (head (split_spaces (slice_from 1 input)))).
  set (arg0 := head (tail (split_spaces (slice_from 1 input)))).
  set (model := join_spaces (tail (split_spaces (slice_from 1 input)))).
  assert (Hkeep : (valid_settings (session_defaults s) = true
                   /\ valid_settings (Thread.defaults (session_thread s)) = true)
                  /\ (Thread.threadId (session_thread s) = Thread.threadId (session_thread s)
                      /\ Thread.lastEntryId (session_thread s)
                         = Thread.lastEntryId (session_thread s)
                      \/ command = "new"
                         /\ Thread.threadId (session_thread s) = uuid
                         /\ Thread.lastEntryId (session_thread s) = None)).
  { split; [exact Hs|]. left. split; reflexivity. }
  assert (Hupd : forall k v,
            (k = "focus" -> exists x, v = VStr x /\ one_of FOCUS_VALUES x = true) ->
            (k = "mode" -> exists x, v = VStr x /\ one_of MODE_VALUES x = true) ->
            (k = "recency" ->
             v = VNull \/ exists x, v = VStr x /\ one_of RECENCY_VALUES x = true) ->
            (valid_settings (session_defaults (updateDefaults s {[ k := v ]})) = true
             /\ valid_settings
                  (Thread.defaults (session_thread (updateDefaults s {[ k := v ]}))) = true)
            /\ (Thread.threadId (session_thread (updateDefaults s {[ k := v ]}))
                = Thread.threadId (session_thread s)
                /\ Thread.lastEntryId (session_thread (updateDefaults s {[ k := v ]}))
                   = Thread.lastEntryId (session_thread s)
                \/ command = "new"
                   /\ Thread.threadId (session_thread (updateDefaults s {[ k := v ]})) = uuid
                   /\ Thread.lastEntryId (session_thread (updateDefaults s {[ k := v ]}))
                      = None)).
  { intros k v Hf Hm Hr. split; [apply updateDefaults_valid; assumption|].
    left. split; reflexivity. }
  destruct (String.eqb command "exit" || String.eqb command "quit").
  { cbn [fst snd]. destruct Hkeep as [H1 H2]. split; [exact H1|]. split; [reflexivity|exact H2]. }
  destruct (String.eqb command "help").
  { cbn [fst snd]. destruct Hkeep as [H1 H2]. split; [exact H1|]. split; [discriminate|exact H2]. }
  destruct (String.eqb command "new") eqn:Enew.
  { cbn [fst snd session_defaults session_thread Thread.reset Thread.defaults
         Thread.threadId Thread.lastEntryId default].
    split; [exact Hs|]. split; [discriminate|].
    right. apply String.eqb_eq in Enew. repeat split. exact Enew. }
  destruct (String.eqb command "model").
  { destruct (String.eqb model ""); cbn [fst snd].
    - destruct Hkeep as [H1 H2]. split; [exact H1|]. split; [discriminate|exact H2].
    - destruct (Hupd "model" (VStr model)) as [H1 H2]; try discriminate.
      split; [exact H1|]. split; [discriminate|exact H2]. }
  destruct (String.eqb command "focus").
  { destruct arg0 as [[|c f]|]; try (cbn [fst snd]; destruct Hkeep as [H1 H2];
      split; [exact H1|]; split; [discriminate|exact H2]).
    destruct (one_of FOCUS_VALUES (String c f)) eqn:E; cbn [fst snd].
    - destruct (Hupd "focus" (VStr (String c f))) as [H1 H2]; try discriminate.
      + intros _. eexists. split; [reflexivity|exact E].
      + split; [exact H1|]. split; [discriminate|exact H2].
    - destruct Hkeep as [H1 H2]. split; [exact H1|]. split; [discriminate|exact H2]. }
  destruct (String.eqb command "mode").
  { destruct arg0 as [[|c f]|]; try (cbn [fst snd]; destruct Hkeep as [H1 H2];
      split; [exact H1|]; split; [discriminate|exact H2]).
    destruct (one_of MODE_VALUES (String c f)) eqn:E; cbn [fst snd].
    - destruct (Hupd "mode" (VStr (String c f))) as [H1 H2]; try discriminate.
      + intros _. eexists. split; [reflexivity|exact E].
      + split; [exact H1|]. split; [discriminate|exact H2].
    - destruct Hkeep as [H1 H2]. split; [exact H1|]. split; [discriminate|exact H2]. }
  destruct (String.eqb command "recency").
  { destruct arg0 as [[|c f]|]; try (cbn [fst snd]; destruct Hkeep as [H1 H2];
      split; [exact H1|]; split; [discriminate|exact H2]).
    destruct (String.eqb (String c f) "off") eqn:Eoff; cbn [negb andb].
    - cbn [fst snd].
      destruct (Hupd "recency" VNull) as [H1 H2]; try discriminate.
      + intros _. left. reflexivity.
      + split; [exact H1|]. split; [discriminate|exact H2].
    - destruct (one_of RECENCY_VALUES (String c f)) eqn:E; cbn [negb fst snd].
      + destruct (Hupd "recency" (VStr (String c f))) as [H1 H2]; try discriminate.
        * intros _. right. eexists. split; [reflexivity|exact E].
        * split; [exact H1|]. split; [discriminate|exact H2].
      + destruct Hkeep as [H1 H2]. split; [exact H1|]. split; [discriminate|exact H2]. }
  destruct (String.eqb command "incognito").
  { destruct arg0 as [[|c f]|]; try (cbn [fst snd]; destruct Hkeep as [H1 H2];
      split; [exact H1|]; split; [discriminate|exact H2]).
    destruct (one_of ["on"; "off"] (String c f)); cbn [fst snd].
    - destruct (Hupd "incognito" (VBool (String.eqb (String c f) "on"))) as [H1 H2];
        try discriminate.
      split; [exact H1|]. split; [discriminate|exact H2].
    - destruct Hkeep as [H1 H2]. split; [exact H1|]. split; [discriminate|exact H2]. }
  cbn [fst snd]. destruct Hkeep as [H1 H2]. split; [exact H1|]. split; [discriminate|exact H2].
Qed.

(** X29: chat commands store validated settings only: if the focus, the
    mode and the recency filter of a session (in its own defaults and in the
    thread's) are each absent or one of the values known, they still are
    after any sequence of commands; a command that exits changes nothing, and
    only the command new touches the thread's id and its last entry. *)
Theorem chat_commands_keep_settings_valid (inputs : list (string * string)) (s : Session) :
  valid_settings (session_defaults s) = true ->
  valid_settings (Thread.defaults (session_thread s)) = true ->
  (valid_settings (session_defaults (run_commands s inputs)) = true
   /\ valid_settings (Thread.defaults (session_thread (run_commands s inputs))) = true)
  /\ (forall input uuid,
        let s' := (handleCommand input s uuid).1.2 in
        ((handleCommand input s uuid).1.1 = true -> s' = s)
        /\ (Thread.threadId (session_thread s') = Thread.threadId (session_thread s)
            /\ Thread.lastEntryId (session_thread s') = Thread.lastEntryId (session_thread s)
            \/ default "" (head (split_spaces (slice_from 1 input))) = "new"
               /\ Thread.threadId (session_thread s') = uuid
               /\ Thread.lastEntryId (session_thread s') = None)).
Proof.
  intros H1 H2. split.
  - revert s H1 H2. induction inputs as [|[input uuid] inputs IH]; intros s H1 H2.
    + split; assumption.
    + cbn [run_commands].
      destruct (handleCommand_valid input uuid s (conj H1 H2)) as ([H3 H4] & _).
      destruct (handleCommand input s uuid) as [[shouldExit s'] written].
      cbn [fst snd] in H3, H4. destruct shouldExit; [split; assumption|].
      apply IH; assumption.
  - intros input uuid. exact (proj2 (handleCommand_valid input uuid s (conj H1 H2))).
Qed.

Lemma chat_commands_keep_settings_valid_witness :
  valid_settings
    (session_defaults
       (run_commands fresh_session
          [("/focus academic", "u1"); ("/focus nowhere", "u2"); ("/recency off", "u3");
           ("/new", "u4"); ("/exit", "u5"); ("/mode concise", "u6")])) = true
  /\ valid_settings
       (Thread.defaults
          (session_thread
             (run_commands fresh_session
                [("/focus academic", "u1"); ("/focus nowhere", "u2"); ("/recency off", "u3");
                 ("/new", "u4"); ("/exit", "u5"); ("/mode concise", "u6")]))) = true.
Proof.
  apply (chat_commands_keep_settings_valid
           [("/focus academic", "u1"); ("/focus nowhere", "u2"); ("/recency off", "u3");
            ("/new", "u4"); ("/exit", "u5"); ("/mode concise", "u6")] fresh_session);
    reflexivity.
Defined.

End ChatFacts.

(** ** Model categories *)

Module ModelsFacts.
Import Models.

Section Categories.
Variable ModelInfo : Type.
Variable sort_by_id : list (string * ModelInfo) -> list (string * ModelInfo).
Hypothesis sort_by_id_permutes : forall l, sort_by_id l ≡ₚ l.

Implicit Types (cats : list (ModelCategory ModelInfo)) (entry : string * ModelInfo).

(** What a category is, its models apart. *)
Lemma place_Some cats entry placed :
  place ModelInfo cats entry = Some placed ->
  exists pre c post,
    cats = pre ++ c :: post /\ placed = pre ++ push ModelInfo c entry :: post
    /\ Forall (fun x => takes ModelInfo x entry.1 = false) pre
    /\ takes ModelInfo c entry.1 = true.
Proof.
  revert placed. induction cats as [|c cats IH]; intros placed H; [discriminate H|].
  cbn [place] in H. destruct (takes ModelInfo c entry.1) eqn:Et.
  - injection H as <-. exists [], c, cats. repeat split; [apply Forall_nil_2|exact Et].
  - destruct (place ModelInfo cats entry) as [placed'|]; [|discriminate H].
    injection H as <-. destruct (IH placed' eq_refl) as (pre & c' & post & -> & -> & Hpre & Hc).
    exists (c :: pre), c', post. repeat split; [|exact Hc].
    apply Forall_cons. split; assumption.
Qed.

Lemma place_None cats entry :
  place ModelInfo cats entry = None ->
  Forall (fun x => takes ModelInfo x entry.1 = false) cats.
Proof.
  induction cats as [|c cats IH]; intros H; [apply Forall_nil_2|].
  cbn [place] in H. destruct (takes ModelInfo c entry.1) eqn:Et; [discriminate H|].
  destruct (place ModelInfo cats entry); [discriminate H|].
  apply Forall_cons. split; [exact Et|apply IH; reflexivity].
Qed.

Lemma push_other_spec cats entry :
  "Other" ∈ name ModelInfo <$> cats ->
  exists pre c post,
    cats = pre ++ c :: post /\ push_other ModelInfo cats entry = pre ++ push ModelInfo c entry :: post
    /\ name ModelInfo c = "Other".
Proof.
  induction cats as [|c cats IH]; intros H.
  - rewrite fmap_nil in H. apply elem_of_nil in H. destruct H.
  - cbn [push_other]. destruct (String.eqb (name ModelInfo c) "Other") eqn:En.
    + apply String.eqb_eq in En. exists [], c, cats. repeat split. exact En.
    + rewrite fmap_cons in H. apply elem_of_cons in H as [H|H].
      * apply String.eqb_neq in En. congruence.
      * destruct (IH H) as (pre & c' & post & -> & -> & Hn).
        exists (c :: pre), c', post. repeat split. exact Hn.
Qed.

(** Categories with the names and prefixes of the initial ones find the
    same names. *)
Lemma find_takes_names cats1 cats2 (id : string) :
  (fun c => (name ModelInfo c, prefixes ModelInfo c)) <$> cats1
  = (fun c => (name ModelInfo c, prefixes ModelInfo c)) <$> cats2 ->
  name ModelInfo <$> List.find (fun c => takes ModelInfo c id) cats1
  = name ModelInfo <$> List.find (fun c => takes ModelInfo c id) cats2.
Proof.
  revert cats2. induction cats1 as [|c1 cats1 IH]; intros [|c2 cats2] H;
    try discriminate H; [reflexivity|].
  rewrite !fmap_cons in H. injection H as Hn Hp Hrest. cbn [List.find].
  unfold takes at 1 3. rewrite Hp.
  destruct (existsb _ (prefixes ModelInfo c2)); [cbn; congruence|].
  apply IH. exact Hrest.
Qed.

Lemma perm_insert {A : Type} (l1 l2 l3 : list A) (e : A) :
  l1 ++ (l2 ++ [e]) ++ l3 ≡ₚ e :: l1 ++ l2 ++ l3.
Proof.
  rewrite <- (assoc_L app l2 [e] l3). cbn [app].
  rewrite (assoc_L app l1 l2 (e :: l3)). rewrite <- Permutation_middle.
  rewrite <- (assoc_L app). reflexivity.
Qed.

Lemma concat_models_push (pre post : list (ModelCategory ModelInfo)) c entry :
  concat (models ModelInfo <$> pre ++ push ModelInfo c entry :: post)
  ≡ₚ entry :: concat (models ModelInfo <$> pre ++ c :: post).
Proof.
  rewrite !fmap_app, !fmap_cons, !concat_app, !concat_cons. cbn [push models].
  apply perm_insert.
Qed.

(** What the loop keeps. *)
Lemma categorize_step_inv cats (done : list (string * ModelInfo)) entry :
  ((fun c => (name ModelInfo c, prefixes ModelInfo c)) <$> cats
   = (fun c => (name ModelInfo c, prefixes ModelInfo c)) <$> categories0 ModelInfo
   /\ concat (models ModelInfo <$> cats) ≡ₚ done
   /\ forall c e, c ∈ cats -> e ∈ models ModelInfo c -> name ModelInfo c = category_of ModelInfo e.1) ->
  (fun c => (name ModelInfo c, prefixes ModelInfo c)) <$> categorize_step ModelInfo cats entry
  = (fun c => (name ModelInfo c, prefixes ModelInfo c)) <$> categories0 ModelInfo
  /\ concat (models ModelInfo <$> categorize_step ModelInfo cats entry) ≡ₚ entry :: done
  /\ forall c e, c ∈ categorize_step ModelInfo cats entry -> e ∈ models ModelInfo c ->
                 name ModelInfo c = category_of ModelInfo e.1.
Proof.
  intros (Hkeys & Hperm & Hnames).
  assert (Hpushed : forall pre c post,
            cats = pre ++ c :: post ->
            name ModelInfo c = category_of ModelInfo entry.1 ->
            (fun c => (name ModelInfo c, prefixes ModelInfo c)) <$> (pre ++ push ModelInfo c entry :: post)
            = (fun c => (name ModelInfo c, prefixes ModelInfo c)) <$> categories0 ModelInfo
            /\ concat (models ModelInfo <$> pre ++ push ModelInfo c entry :: post) ≡ₚ entry :: done
            /\ forall c' e, c' ∈ pre ++ push ModelInfo c entry :: post -> e ∈ models ModelInfo c' ->
                            name ModelInfo c' = category_of ModelInfo e.1).
  { intros pre c post -> Hc. split; [|split].
    - rewrite <- Hkeys. rewrite !fmap_app, !fmap_cons. reflexivity.
    - rewrite concat_models_push, Hperm. reflexivity.
    - intros c' e Hc' He. apply elem_of_app in Hc' as [Hc'|Hc'].
      + apply (Hnames c' e); [|exact He]. apply elem_of_app. left. exact Hc'.
      + apply elem_of_cons in Hc' as [->|Hc'].
        * cbn [push models name] in He |- *. apply elem_of_app in He as [He|He].
          -- apply (Hnames c e); [|exact He].
             apply elem_of_app. right. apply list_elem_of_here.
          -- apply list_elem_of_singleton in He. subst e. exact Hc.
        * apply (Hnames c' e); [|exact He].
          apply elem_of_app. right. apply list_elem_of_further. exact Hc'. }
  unfold categorize_step. destruct (place ModelInfo cats entry) as [placed|] eqn:Ep.
  - destruct (place_Some cats entry placed Ep) as (pre & c & post & Hcats & -> & Hpre & Hc).
    apply (Hpushed pre c post Hcats).
    pose proof (find_takes_names cats (categories0 ModelInfo) entry.1 Hkeys) as Hfind.
    rewrite Hcats, (find_first _ pre post c Hpre Hc) in Hfind. cbn [fmap option_fmap option_map] in Hfind.
    unfold category_of. destruct (List.find _ (categories0 ModelInfo)) as [c0|];
      [|discriminate Hfind]. injection Hfind as Hfind. exact Hfind.
  - pose proof (place_None cats entry Ep) as Hnone.
    assert (Hother : "Other" ∈ name ModelInfo <$> cats).
    { assert (Hk : name ModelInfo <$> cats = name ModelInfo <$> categories0 ModelInfo).
      { apply (f_equal (fmap fst)) in Hkeys. rewrite <- !list_fmap_compose in Hkeys.
        exact Hkeys. }
      rewrite Hk. cbn. do 7 apply list_elem_of_further. apply list_elem_of_here. }
    destruct (push_other_spec cats entry Hother) as (pre & c & post & Hcats & -> & Hc).
    apply (Hpushed pre c post Hcats). rewrite Hc.
    pose proof (find_takes_names cats (categories0 ModelInfo) entry.1 Hkeys) as Hfind.
    rewrite (find_none _ cats Hnone) in Hfind.
    unfold category_of. destruct (List.find _ (categories0 ModelInfo)) as [c0|];
      [discriminate Hfind|reflexivity].
Qed.

Lemma categorize_fold_inv (entries done : list (string * ModelInfo)) cats :
  ((fun c => (name ModelInfo c, prefixes ModelInfo c)) <$> cats
   = (fun c => (name ModelInfo c, prefixes ModelInfo c)) <$> categories0 ModelInfo
   /\ concat (models ModelInfo <$> cats) ≡ₚ done
   /\ forall c e, c ∈ cats -> e ∈ models ModelInfo c -> name ModelInfo c = category_of ModelInfo e.1) ->
  (fun c => (name ModelInfo c, prefixes ModelInfo c))
    <$> foldl (categorize_step ModelInfo) cats entries
  = (fun c => (name ModelInfo c, prefixes ModelInfo c)) <$> categories0 ModelInfo
  /\ concat (models ModelInfo <$> foldl (categorize_step ModelInfo) cats entries)
     ≡ₚ done ++ entries
  /\ forall c e, c ∈ foldl (categorize_step ModelInfo) cats entries -> e ∈ models ModelInfo c ->
                 name ModelInfo c = category_of ModelInfo e.1.
Proof.
  revert cats done. induction entries as [|entry entries IH]; intros cats done Hinv.
  - rewrite app_nil_r. exact Hinv.
  - cbn [foldl].
    destruct (IH _ (entry :: done) (categorize_step_inv cats done entry Hinv)) as (H1 & H2 & H3).
    split; [exact H1|]. split; [|exact H3].
    rewrite H2. rewrite (Permutation_middle done entries entry). reflexivity.
Qed.

(** X30: provided the sort permutes what it is given, [categorizeModels]
    lists every model exactly once: the models of the categories returned are, together, the entries given (in another
    order); no category returned is empty; the categories keep the order of
    the table; and each model stands under the first category of the table
    that has a prefix of its id (its id itself counts), or under Other when
    none has. *)
Theorem categorizeModels_lists_every_model_once (entries : list (string * ModelInfo)) :
  let result := categorizeModels ModelInfo sort_by_id entries in
  concat (models ModelInfo <$> result) ≡ₚ entries
  /\ Forall (fun c => models ModelInfo c <> []) result
  /\ name ModelInfo <$> result `sublist_of` name ModelInfo <$> categories0 ModelInfo
  /\ (forall c e, c ∈ result -> e ∈ models ModelInfo c ->
                  name ModelInfo c = category_of ModelInfo e.1).
Proof.
  cbn zeta. unfold categorizeModels.
  destruct (categorize_fold_inv entries [] (categories0 ModelInfo)) as (Hkeys & Hperm & Hnames).
  { split; [reflexivity|]. split; [reflexivity|].
    intros c e Hc He.
    assert (Hempty : Forall (fun c => models ModelInfo c = []) (categories0 ModelInfo))
      by (repeat constructor).
    rewrite Forall_forall in Hempty. rewrite (Hempty c Hc) in He.
    apply elem_of_nil in He. destruct He. }
  set (filled := foldl (categorize_step ModelInfo) (categories0 ModelInfo) entries) in *.
  set (sorted := (fun category => {| name := name ModelInfo category;
                                     prefixes := prefixes ModelInfo category;
                                     models := sort_by_id (models ModelInfo category) |})
                   <$> filled).
  assert (Hconcat : forall l : list (ModelCategory ModelInfo),
            concat (models ModelInfo <$> filter (fun category => models ModelInfo category <> []) l)
            = concat (models ModelInfo <$> l)).
  { induction l as [|c l IH]; [reflexivity|].
    rewrite filter_cons. destruct (decide (models ModelInfo c <> [])) as [Hne|He].
    - rewrite !fmap_cons, !concat_cons, IH. reflexivity.
    - rewrite fmap_cons, concat_cons, IH.
      destruct (models ModelInfo c); [reflexivity|]. exfalso. apply He. discriminate. }
  assert (Hsorted : concat (models ModelInfo <$> sorted) ≡ₚ concat (models ModelInfo <$> filled)).
  { subst sorted. generalize filled. intros l. induction l as [|c l IH]; [reflexivity|].
    rewrite !fmap_cons, !concat_cons. cbn [models].
    rewrite sort_by_id_permutes, IH. reflexivity. }
  split; [|split; [|split]].
  - rewrite Hconcat, Hsorted, Hperm. reflexivity.
  - apply Forall_forall. intros c Hc. apply list_elem_of_filter in Hc as [Hc _]. exact Hc.
  - assert (Hk : name ModelInfo <$> sorted = name ModelInfo <$> categories0 ModelInfo).
    { subst sorted. rewrite <- list_fmap_compose.
      apply (f_equal (fmap fst)) in Hkeys. rewrite <- !list_fmap_compose in Hkeys.
      exact Hkeys. }
    rewrite <- Hk. apply fmap_sublist. apply sublist_filter.
  - intros c e Hc He. apply list_elem_of_filter in Hc as [_ Hc].
    subst sorted. apply list_elem_of_fmap in Hc as (c0 & -> & Hc0).
    cbn [models name] in He |- *. rewrite sort_by_id_permutes in He.
    exact (Hnames c0 e Hc0 He).
Qed.

End Categories.

(** Three models (listed unsorted): one per category, none lost. *)
Lemma categorizeModels_lists_every_model_once_witness :
  name unit <$> categorizeModels unit (fun l => l)
                  [("zephyr", tt); ("gpt5", tt); ("claude45", tt)]
  = ["OpenAI"; "Anthropic"; "Other"]
  /\ concat (models unit <$> categorizeModels unit (fun l => l)
                               [("zephyr", tt); ("gpt5", tt); ("claude45", tt)])
     ≡ₚ [("zephyr", tt); ("gpt5", tt); ("claude45", tt)].
Proof.
  split; [reflexivity|].
  apply (categorizeModels_lists_every_model_once unit (fun l => l)).
  intros l. reflexivity.
Defined.

End ModelsFacts.
